(** * Type-level utilities of the type-challenges package

    The programs of this package are TypeScript type aliases
    ([MyPick], [MyOmit], [MyExclude], [MyReadonly], [MyMutable],
    [SomeReadonly], [DeepReadonly], [TupleToObject]) together with the
    test helpers of [@type-challenges/utils] ([Equal], [NotEqual],
    [IsAny], [NotAny], [Expect], [Debug]).  They run inside the
    TypeScript checker.  The development embeds them over a reified type
    model: the constructs the aliases are written with (union and
    intersection construction, [keyof], indexed access [T[K]], mapped
    types, conditional types, the assignability and identity relations)
    are functions over [ty] that follow the checker under [strict]
    (strictNullChecks on, exactOptionalPropertyTypes off), and every
    alias is transcribed construct by construct on top of them.

    The model covers records with named fields, unions, intersections,
    literals, primitives, arrays, tuples and function types.  Index
    signatures and the members that arrays, functions and primitives
    inherit from the standard library are left out: an evaluation that
    would need them answers [Err OutsideFragment]. *)

From Stdlib Require Import List String Ascii ZArith Bool Lia PeanoNat.
From Stdlib Require Import DecimalString DecimalZ.
Import ListNotations.
Open Scope string_scope.
Open Scope list_scope.

(** ** Outcome of a type-level evaluation *)

(** [StaticRejection]: a constraint of a type alias is violated (the
    checker reports an error at the instantiation).
    [OutsideFragment]: the answer depends on declarations of the standard
    library (members of [Array], [String], [Function]...) or needs an
    index signature; the model does not decide it.
    [DepthLimit]: the instantiation depth budget is exhausted. *)
Inductive error : Type := StaticRejection | OutsideFragment | DepthLimit.

Inductive result (A : Type) : Type :=
| Ok (a : A)
| Err (e : error).
Arguments Ok {A} a.
Arguments Err {A} e.

Definition bind {A B : Type} (m : result A) (k : A -> result B) : result B :=
  match m with
  | Ok a => k a
  | Err e => Err e
  end.

Notation "x <- m ;; k" := (bind m (fun x => k))
  (at level 61, m at next level, right associativity).

Section monadic_lists.
Context {A B : Type}.
Variable f : A -> result B.
Variable g : A -> result bool.

Fixpoint mapM (l : list A) : result (list B) :=
  match l with
  | [] => Ok []
  | a :: l' => b <- f a ;; bs <- mapM l' ;; Ok (b :: bs)
  end.

(** Conjunction and disjunction over a list, left to right. *)
Fixpoint allM (l : list A) : result bool :=
  match l with
  | [] => Ok true
  | a :: l' => b <- g a ;; if b then allM l' else Ok false
  end.

Fixpoint anyM (l : list A) : result bool :=
  match l with
  | [] => Ok false
  | a :: l' => b <- g a ;; if b then Ok true else anyM l'
  end.
End monadic_lists.

(** ** Structural type model *)

Inductive lit : Type :=
| LStr (s : string)
| LNum (z : Z)
| LBool (b : bool).

Inductive prim : Type :=
| PString | PNumber | PBigInt | PUndefined | PNull | PVoid.

(** One named field of a record type. *)
Record attr (T : Type) : Type := Attr {
  name : string;
  valueType : T;
  readonly : bool;
  optional : bool
}.
Arguments Attr {T} name valueType readonly optional.
Arguments name {T} a.
Arguments valueType {T} a.
Arguments readonly {T} a.
Arguments optional {T} a.

(** Type expressions.  [boolean] is the union [false | true] as in the
    checker (see [TBoolean]).  [TFun n ps r] is a function type with [n]
    type parameters; [TVar] refers to them by index.  [TCond] is a
    conditional type whose check type is still a type variable, so that
    it cannot be resolved (it only occurs under a generic [TFun]). *)
#[local] Unset Elimination Schemes.
Inductive ty : Type :=
| TAny
| TUnknown
| TNever
| TPrim (p : prim)
| TObject
| TLit (l : lit)
| TUnion (members : list ty)
| TInter (members : list ty)
| TRecord (attrs : list (attr ty))
| TArray (ro : bool) (elem : ty)
| TTuple (ro : bool) (elems : list ty)
| TFun (tparams : nat) (params : list ty) (ret : ty)
| TVar (i : nat)
| TCond (check ext tt ff : ty).
#[local] Set Elimination Schemes.

Definition TString : ty := TPrim PString.
Definition TNumber : ty := TPrim PNumber.
Definition TUndefined : ty := TPrim PUndefined.
Definition TNull : ty := TPrim PNull.
Definition TStr (s : string) : ty := TLit (LStr s).
Definition TNum (z : Z) : ty := TLit (LNum z).
Definition TTrue : ty := TLit (LBool true).
Definition TFalse : ty := TLit (LBool false).
Definition TBool (b : bool) : ty := TLit (LBool b).
Definition TBoolean : ty := TUnion [TFalse; TTrue].

(** Induction principle that reaches the types nested in lists. *)
Section ty_induction.
Variable P : ty -> Prop.
Hypothesis HAny : P TAny.
Hypothesis HUnknown : P TUnknown.
Hypothesis HNever : P TNever.
Hypothesis HPrim : forall p, P (TPrim p).
Hypothesis HObject : P TObject.
Hypothesis HLit : forall l, P (TLit l).
Hypothesis HUnion : forall ts, Forall P ts -> P (TUnion ts).
Hypothesis HInter : forall ts, Forall P ts -> P (TInter ts).
Hypothesis HRecord :
  forall ps, Forall (fun p => P (valueType p)) ps -> P (TRecord ps).
Hypothesis HArray : forall ro e, P e -> P (TArray ro e).
Hypothesis HTuple : forall ro es, Forall P es -> P (TTuple ro es).
Hypothesis HFun : forall n ps r, Forall P ps -> P r -> P (TFun n ps r).
Hypothesis HVar : forall i, P (TVar i).
Hypothesis HCond :
  forall c e a b, P c -> P e -> P a -> P b -> P (TCond c e a b).

Fixpoint ty_nested_ind (t : ty) : P t :=
  let many := fix many (ts : list ty) : Forall P ts :=
    match ts with
    | [] => Forall_nil _
    | x :: r => Forall_cons _ (ty_nested_ind x) (many r)
    end in
  match t with
  | TAny => HAny
  | TUnknown => HUnknown
  | TNever => HNever
  | TPrim p => HPrim p
  | TObject => HObject
  | TLit l => HLit l
  | TUnion ts => HUnion ts (many ts)
  | TInter ts => HInter ts (many ts)
  | TRecord ps =>
      HRecord ps
        ((fix fields (ps : list (attr ty)) :
            Forall (fun p => P (valueType p)) ps :=
            match ps with
            | [] => Forall_nil _
            | p :: r =>
                Forall_cons _ (ty_nested_ind (valueType p)) (fields r)
            end) ps)
  | TArray ro e => HArray ro e (ty_nested_ind e)
  | TTuple ro es => HTuple ro es (many es)
  | TFun n ps r => HFun n ps r (many ps) (ty_nested_ind r)
  | TVar i => HVar i
  | TCond c e a b =>
      HCond c e a b (ty_nested_ind c) (ty_nested_ind e)
        (ty_nested_ind a) (ty_nested_ind b)
  end.
End ty_induction.

(** Number of nodes; the budget of the assignability check. *)
Fixpoint size (t : ty) : nat :=
  let sum := fix sum (ts : list ty) : nat :=
    match ts with
    | [] => 0
    | x :: r => size x + sum r
    end in
  match t with
  | TUnion ts | TInter ts | TTuple _ ts => S (sum ts)
  | TRecord ps =>
      S ((fix fields (ps : list (attr ty)) : nat :=
            match ps with
            | [] => 0
            | p :: r => size (valueType p) + fields r
            end) ps)
  | TArray _ e => S (size e)
  | TFun _ ps r => S (sum ps + size r)
  | TCond c e a b => S (size c + size e + size a + size b)
  | _ => 1
  end.

(** ** Type identity *)

Definition lit_eqb (a b : lit) : bool :=
  match a, b with
  | LStr s, LStr t => String.eqb s t
  | LNum x, LNum y => Z.eqb x y
  | LBool x, LBool y => Bool.eqb x y
  | _, _ => false
  end.

Definition prim_eqb (a b : prim) : bool :=
  match a, b with
  | PString, PString | PNumber, PNumber | PBigInt, PBigInt
  | PUndefined, PUndefined | PNull, PNull | PVoid, PVoid => true
  | _, _ => false
  end.

(** Two fields declare the same thing apart from their value types. *)
Definition same_decl {A B : Type} (p : attr A) (q : attr B) : bool :=
  String.eqb (name p) (name q)
  && Bool.eqb (readonly p) (readonly q)
  && Bool.eqb (optional p) (optional q).

(** The checker's identity relation ([isTypeIdenticalTo]): structural,
    with [any] identical to [any] only; fields are compared by name with
    their [readonly] and [optional] modifiers, whatever the order of
    declaration; union and intersection members are compared as sets. *)
Fixpoint identical (s t : ty) {struct s} : bool :=
  let pairwise := fix pairwise (ss ts : list ty) {struct ss} : bool :=
    match ss, ts with
    | [], [] => true
    | x :: ss', y :: ts' => identical x y && pairwise ss' ts'
    | _, _ => false
    end in
  match s, t with
  | TAny, TAny | TUnknown, TUnknown | TNever, TNever
  | TObject, TObject => true
  | TPrim p, TPrim q => prim_eqb p q
  | TLit l, TLit m => lit_eqb l m
  | TUnion ss, TUnion ts | TInter ss, TInter ts =>
      forallb (fun x => existsb (fun y => identical x y) ts) ss
      && forallb (fun y => existsb (fun x => identical x y) ss) ts
  | TRecord ps, TRecord qs =>
      forallb (fun p => existsb (fun q =>
                 same_decl p q && identical (valueType p) (valueType q)) qs) ps
      && forallb (fun q => existsb (fun p =>
                 same_decl p q && identical (valueType p) (valueType q)) ps) qs
  | TArray r e, TArray r' e' => Bool.eqb r r' && identical e e'
  | TTuple r es, TTuple r' es' => Bool.eqb r r' && pairwise es es'
  | TFun n ps r, TFun n' ps' r' =>
      Nat.eqb n n' && pairwise ps ps' && identical r r'
  | TVar i, TVar j => Nat.eqb i j
  | TCond c e a b, TCond c' e' a' b' =>
      identical c c' && identical e e' && identical a a' && identical b b'
  | _, _ => false
  end.

(** ** Union construction *)

(** The constituents a union contributes when it is flattened; [never]
    is the empty union. *)
Fixpoint union_members (t : ty) : list ty :=
  match t with
  | TUnion ts => flat_map union_members ts
  | TNever => []
  | _ => [t]
  end.

Definition is_any (t : ty) : bool :=
  match t with TAny => true | _ => false end.
Definition is_unknown (t : ty) : bool :=
  match t with TUnknown => true | _ => false end.

Fixpoint dedupe (ts : list ty) : list ty :=
  match ts with
  | [] => []
  | t :: r => t :: filter (fun u => negb (identical t u)) (dedupe r)
  end.

(** A literal is dropped from a union that also holds its primitive. *)
Definition subsumed_literal (ts : list ty) (t : ty) : bool :=
  match t with
  | TLit (LStr _) => existsb (identical TString) ts
  | TLit (LNum _) => existsb (identical TNumber) ts
  | _ => false
  end.

Definition of_members (ts : list ty) : ty :=
  match ts with
  | [] => TNever
  | [t] => t
  | _ => TUnion ts
  end.

(** [getUnionType] with literal reduction: flatten, let [any] then
    [unknown] absorb the rest, remove duplicates and subsumed literals;
    no member is [never], one member is that member. *)
Definition mkUnion (ts : list ty) : ty :=
  let flat := flat_map union_members ts in
  if existsb is_any flat then TAny
  else if existsb is_unknown flat then TUnknown
  else
    let ds := dedupe flat in
    of_members (filter (fun t => negb (subsumed_literal ds t)) ds).

(** ** Intersection construction *)

Fixpoint inter_members (t : ty) : list ty :=
  match t with
  | TInter ts => flat_map inter_members ts
  | _ => [t]
  end.

Definition is_never (t : ty) : bool :=
  match t with TNever => true | _ => false end.

(** Value domains of the constituents that are not object types. *)
Inductive domain : Type :=
| DString | DNumber | DBigInt | DBoolean | DVoidLike | DNull.

Definition domain_eqb (a b : domain) : bool :=
  match a, b with
  | DString, DString | DNumber, DNumber | DBigInt, DBigInt
  | DBoolean, DBoolean | DVoidLike, DVoidLike | DNull, DNull => true
  | _, _ => false
  end.

Definition prim_domain (p : prim) : domain :=
  match p with
  | PString => DString
  | PNumber => DNumber
  | PBigInt => DBigInt
  | PUndefined | PVoid => DVoidLike
  | PNull => DNull
  end.

Definition lit_domain (l : lit) : domain :=
  match l with
  | LStr _ => DString
  | LNum _ => DNumber
  | LBool _ => DBoolean
  end.

Definition domain_of (t : ty) : option domain :=
  match t with
  | TPrim p => Some (prim_domain p)
  | TLit l => Some (lit_domain l)
  | _ => None
  end.

Definition is_nullish (t : ty) : bool :=
  match t with
  | TPrim PUndefined | TPrim PNull | TPrim PVoid => true
  | _ => false
  end.

Definition is_object_type (t : ty) : bool :=
  match t with
  | TRecord _ | TArray _ _ | TTuple _ _ | TFun _ _ _ => true
  | _ => false
  end.

(** Two constituents with no common value: values of different primitive
    domains, two different literals, a primitive against [object], a
    nullish type against an object type. *)
Definition disjoint (a b : ty) : bool :=
  match domain_of a, domain_of b with
  | Some d, Some e =>
      negb (domain_eqb d e)
      || match a, b with
         | TLit l, TLit m => negb (lit_eqb l m)
         | _, _ => false
         end
  | Some _, None =>
      match b with
      | TObject => true
      | _ => is_nullish a && is_object_type b
      end
  | None, Some _ =>
      match a with
      | TObject => true
      | _ => is_nullish b && is_object_type a
      end
  | None, None => false
  end.

Fixpoint has_conflict (ts : list ty) : bool :=
  match ts with
  | [] => false
  | t :: r => existsb (disjoint t) r || has_conflict r
  end.

Definition is_empty_record (t : ty) : bool :=
  match t with TRecord [] => true | _ => false end.

(** A constituent that adds nothing to the others: a primitive next to
    one of its literals, [void] next to [undefined], the empty record
    next to anything else. *)
Definition absorbed (ts : list ty) (t : ty) : bool :=
  match t with
  | TPrim PVoid => existsb (identical TUndefined) ts
  | TPrim p =>
      existsb (fun u => match u with
                        | TLit l => domain_eqb (lit_domain l) (prim_domain p)
                        | _ => false
                        end) ts
  | TRecord [] => existsb (fun u => negb (is_empty_record u)) ts
  | _ => false
  end.

(** Intersection of constituents none of which is a union. *)
Definition inter_atoms (xs : list ty) : ty :=
  let ys := dedupe (filter (fun t => negb (is_any t || is_unknown t)) xs) in
  if existsb is_never xs then TNever
  else if has_conflict ys then TNever
  else if existsb is_any xs then TAny
  else
    match filter (fun t => negb (absorbed ys t)) ys with
    | [] => TUnknown
    | [t] => t
    | zs => TInter zs
    end.

(** The choices of one union member per operand. *)
Fixpoint choices (ts : list ty) : list (list ty) :=
  match ts with
  | [] => [[]]
  | t :: r =>
      flat_map (fun m => map (fun c => inter_members m ++ c) (choices r))
               (union_members t)
  end.

(** [getIntersectionType]: distribute over the union operands, flatten,
    reduce an empty intersection to [never], let [any] absorb the rest. *)
Definition intersect (ts : list ty) : ty :=
  mkUnion (map inter_atoms (choices ts)).

(** ** Members of object types *)

Definition key_name (z : Z) : string := NilZero.string_of_int (Z.to_int z).

(** The property name a key type stands for. *)
Definition prop_name (k : ty) : option string :=
  match k with
  | TLit (LStr s) => Some s
  | TLit (LNum z) => Some (key_name z)
  | _ => None
  end.

Definition lookup (n : string) (ps : list (attr ty)) : option (attr ty) :=
  find (fun p => String.eqb (name p) n) ps.

Fixpoint merge_attr (p : attr ty) (acc : list (attr ty)) : list (attr ty) :=
  match acc with
  | [] => [p]
  | q :: r =>
      if String.eqb (name p) (name q)
      then Attr (name q) (intersect [valueType q; valueType p])
             (readonly q && readonly p) (optional q && optional p) :: r
      else q :: merge_attr p r
  end.

Definition own_attributes (t : ty) : result (list (attr ty)) :=
  match t with
  | TRecord ps => Ok ps
  | TFun _ _ _ | TUnknown | TObject => Ok []
  | _ => Err OutsideFragment
  end.

(** The named fields of an object type; an intersection has the fields
    of its constituents, a field declared by several of them has the
    intersection of their types and a modifier when all declare it. *)
Definition attributes (t : ty) : result (list (attr ty)) :=
  match t with
  | TInter ts =>
      pss <- mapM own_attributes ts ;;
      Ok (fold_left (fun acc p => merge_attr p acc) (List.concat pss) [])
  | _ => own_attributes t
  end.

(** [keyof T]. *)
Fixpoint keyof (t : ty) : result ty :=
  match t with
  | TUnion ts => ks <- mapM keyof ts ;; Ok (intersect ks)
  | TAny | TNever => Err OutsideFragment
  | _ => ps <- attributes t ;; Ok (mkUnion (map (fun p => TStr (name p)) ps))
  end.

(** Position of a tuple element from its key. *)
Definition element_index (k : ty) (len : nat) : option nat :=
  match prop_name k with
  | Some n => find (fun i => String.eqb (key_name (Z.of_nat i)) n) (seq 0 len)
  | None => None
  end.

(** [T[K]] for one key [k]. *)
Fixpoint index_one (t k : ty) : result ty :=
  match t with
  | TAny => Ok TAny
  | TUnion ts => vs <- mapM (fun x => index_one x k) ts ;; Ok (mkUnion vs)
  | TArray _ e =>
      match k with
      | TPrim PNumber | TLit (LNum _) => Ok e
      | _ => Err OutsideFragment
      end
  | TTuple _ es =>
      match k with
      | TPrim PNumber => Ok (mkUnion es)
      | TLit (LNum _) =>
          match element_index k (List.length es) with
          | Some i => Ok (nth i es TNever)
          | None => Err StaticRejection
          end
      | _ =>
          match element_index k (List.length es) with
          | Some i => Ok (nth i es TNever)
          | None => Err OutsideFragment
          end
      end
  | TRecord _ | TInter _ | TFun _ _ _ | TUnknown | TObject =>
      ps <- attributes t ;;
      match prop_name k with
      | Some n =>
          match lookup n ps with
          | Some p => Ok (valueType p)
          | None => Err StaticRejection
          end
      | None => Err StaticRejection
      end
  | _ => Err OutsideFragment
  end.

(** [T[K]]: the union of the accesses by the members of [K]. *)
Definition index (t k : ty) : result ty :=
  match k with
  | TUnion ks => vs <- mapM (index_one t) ks ;; Ok (mkUnion vs)
  | TNever => Ok TNever
  | _ => index_one t k
  end.

(** ** Assignability *)

Definition both (a b : result bool) : result bool :=
  x <- a ;; if x then b else Ok false.

Definition lit_in_prim (l : lit) (p : prim) : bool :=
  match l, p with
  | LStr _, PString | LNum _, PNumber => true
  | _, _ => false
  end.

Definition prim_sub (p q : prim) : bool :=
  prim_eqb p q || match p, q with PUndefined, PVoid => true | _, _ => false end.

(** [unknown] is assignable to [{} | null | undefined] besides the top
    types. *)
Definition accepts_unknown (t : ty) : bool :=
  match t with
  | TUnion ts =>
      existsb is_empty_record ts && existsb (identical TNull) ts
      && existsb (identical TUndefined) ts
  | _ => false
  end.

(** A target whose fields are all optional accepts no source that has
    fields but none in common with it. *)
Definition weak_mismatch (ps qs : list (attr ty)) : bool :=
  match ps, qs with
  | _ :: _, _ :: _ =>
      forallb (fun q => optional q) qs
      && negb (existsb (fun q => existsb (fun p => String.eqb (name p) (name q)) ps) qs)
  | _, _ => false
  end.

Section structural.
(** The relation on the component types, one level down. *)
Variable rel : ty -> ty -> result bool.

(** Fields of the source [ps] against the fields of the target [qs]:
    every target field is present unless optional, a required target
    field is required in the source, and the value types are related.
    [readonly] plays no part. *)
Definition record_related (ps qs : list (attr ty)) : result bool :=
  if weak_mismatch ps qs then Ok false
  else
    allM (fun q =>
            match lookup (name q) ps with
            | Some p =>
                if optional p && negb (optional q) then Ok false
                else rel (valueType p) (valueType q)
            | None => Ok (optional q)
            end) qs.

Definition is_void (t : ty) : bool :=
  match t with TPrim PVoid => true | _ => false end.

(** Source and target are neither top nor bottom nor unions, and the
    target is not an intersection. *)
Definition related (s t : ty) : result bool :=
  match s, t with
  | TVar i, TVar j => Ok (Nat.eqb i j)
  | TCond c e a b, TCond c' e' a' b' =>
      if identical c c' && identical e e'
      then both (rel a a') (rel b b')
      else Ok false
  | TCond _ _ a b, _ => both (rel a t) (rel b t)
  | _, TCond _ _ a b => both (rel s a) (rel s b)
  | TVar _, _ | _, TVar _ => Ok false
  | TInter ss, _ =>
      r <- anyM (fun x => rel x t) ss ;;
      if r then Ok true
      else
        match t with
        | TRecord qs => ps <- attributes s ;; record_related ps qs
        | _ => Ok false
        end
  | TLit l, TLit m => Ok (lit_eqb l m)
  | TLit l, TPrim p => Ok (lit_in_prim l p)
  | TPrim p, TPrim q => Ok (prim_sub p q)
  | TPrim _, TRecord qs | TLit _, TRecord qs =>
      if is_nullish s then Ok false
      else match qs with [] => Ok true | _ => Err OutsideFragment end
  | TObject, TObject => Ok true
  | TObject, TRecord qs => record_related [] qs
  | TRecord _, TObject | TArray _ _, TObject
  | TTuple _ _, TObject | TFun _ _ _, TObject => Ok true
  | TRecord ps, TRecord qs => record_related ps qs
  | TArray _ _, TRecord qs | TTuple _ _, TRecord qs
  | TFun _ _ _, TRecord qs =>
      match qs with [] => Ok true | _ => Err OutsideFragment end
  | TArray r e, TArray r' e' =>
      if r && negb r' then Ok false else rel e e'
  | TTuple r es, TArray r' e' =>
      if r && negb r' then Ok false else allM (fun x => rel x e') es
  | TTuple r es, TTuple r' es' =>
      if (r && negb r') || negb (Nat.eqb (List.length es) (List.length es'))
      then Ok false
      else allM (fun xy => rel (fst xy) (snd xy)) (combine es es')
  | TFun n ps r, TFun n' ps' r' =>
      if Nat.eqb n n' && Nat.leb (List.length ps) (List.length ps')
      then both (allM (fun xy => rel (snd xy) (fst xy)) (combine ps ps'))
                (if is_void r' then Ok true else rel r r')
      else Ok false
  | TRecord (_ :: _), TArray _ _ | TRecord (_ :: _), TTuple _ _ =>
      Err OutsideFragment
  | _, _ => Ok false
  end.
End structural.

(** [isTypeAssignableTo], with a budget for the descent. *)
Fixpoint assignable (fuel : nat) (s t : ty) {struct fuel} : result bool :=
  match fuel with
  | O => Err DepthLimit
  | S n =>
      match t with
      | TAny | TUnknown => Ok true
      | _ =>
          match s with
          | TNever => Ok true
          | TAny => Ok (negb (is_never t))
          | TUnknown => Ok (accepts_unknown t)
          | TUnion ss => allM (fun x => assignable n x t) ss
          | _ =>
              match t with
              | TNever => Ok false
              | TUnion ts => anyM (fun y => assignable n s y) ts
              | TInter ts => allM (fun y => assignable n s y) ts
              | _ => related (assignable n) s t
              end
          end
      end
  end.

(** [S extends T] on resolved types. *)
Definition extends (s t : ty) : result bool :=
  assignable (size s + size t) s t.

(** ** Conditional types *)

(** [C extends E ? A : B] for one check type.  A check type that is
    still a type variable defers the conditional; an [any] or [unknown]
    extends type selects [A]; an [any] check type yields both branches. *)
Definition cond (c e : ty) (a b : result ty) : result ty :=
  match c with
  | TVar _ => x <- a ;; y <- b ;; Ok (TCond c e x y)
  | _ =>
      if is_any e || is_unknown e then a
      else if is_any c then x <- a ;; y <- b ;; Ok (mkUnion [x; y])
      else r <- extends c e ;; if r then a else b
  end.

(** A conditional type whose check type is a naked type parameter,
    instantiated with [T]: it is resolved member by member over a union,
    and the results are united; over [never] there is nothing to
    resolve. *)
Definition cond_dist (T e : ty) (a b : ty -> result ty) : result ty :=
  match T with
  | TUnion ms =>
      rs <- mapM (fun m => cond m e (a m) (b m)) ms ;; Ok (mkUnion rs)
  | TNever => Ok TNever
  | _ => cond T e (a T) (b T)
  end.

(** A type argument against the constraint of its parameter. *)
Definition constrain {A : Type} (arg bound : ty) (body : result A) : result A :=
  ok <- extends arg bound ;; if ok then body else Err StaticRejection.

(** ** Mapped types *)

Inductive modifier : Type := Keep | Add | Remove.

Definition modified (m : modifier) (inherited : bool) : bool :=
  match m with
  | Add => true
  | Remove => false
  | Keep => inherited
  end.

Definition direct_members (t : ty) : list ty :=
  match t with
  | TUnion ts => ts
  | TNever => []
  | _ => [t]
  end.

Definition is_undefined_like (t : ty) : bool :=
  match t with
  | TPrim PUndefined | TPrim PVoid => true
  | _ => false
  end.

Definition maybe_undefined (t : ty) : bool :=
  existsb is_undefined_like (direct_members t).

(** The type of an optional field includes [undefined]. *)
Definition add_optional (t : ty) : ty :=
  if maybe_undefined t then t else mkUnion [t; TUndefined].

Definition strip_undefined (t : ty) : ty :=
  mkUnion (filter (fun m => negb (identical TUndefined m)) (direct_members t)).

(** Key types that would produce an index signature. *)
Definition index_key (k : ty) : bool :=
  match k with
  | TAny | TPrim PString | TPrim PNumber => true
  | _ => false
  end.

Fixpoint add_key (n : string) (k : ty) (acc : list (string * ty)) : list (string * ty) :=
  match acc with
  | [] => [(n, k)]
  | (m, k') :: r =>
      if String.eqb n m then (m, mkUnion [k'; k]) :: r
      else (m, k') :: add_key n k r
  end.

(** The properties a key union gives rise to: one per property name,
    with the union of the keys of that name.  A key that is neither
    usable as a property name nor as an index key is skipped. *)
Fixpoint collect_keys (ks : list ty) (acc : list (string * ty)) : result (list (string * ty)) :=
  match ks with
  | [] => Ok acc
  | k :: r =>
      match prop_name k with
      | Some n => collect_keys r (add_key n k acc)
      | None => if index_key k then Err OutsideFragment else collect_keys r acc
      end
  end.

Section mapped.
(** Modifiers of the mapped type: [readonly]/[-readonly], [?]/[-?]. *)
Variables ro opt : modifier.

(** One member: its modifiers come from the declaration of the mapped
    type or are inherited from the field [mp] of the modifiers type. *)
Definition mapped_attr (mods : list (attr ty)) (tmpl : ty -> result ty)
    (nk : string * ty) : result (attr ty) :=
  let mp := lookup (fst nk) mods in
  let inherits (f : attr ty -> bool) :=
    match mp with Some p => f p | None => false end in
  let is_opt := modified opt (inherits optional) in
  let is_ro := modified ro (inherits readonly) in
  v <- tmpl (snd nk) ;;
  Ok (Attr (fst nk)
        (if is_opt then add_optional v
         else if inherits optional then strip_undefined v
         else v)
        is_ro is_opt).

Definition mapped_members (mods : list (attr ty)) (keys : list ty)
    (tmpl : ty -> result ty) : result ty :=
  nks <- collect_keys keys [] ;;
  ps <- mapM (mapped_attr mods tmpl) nks ;;
  Ok (TRecord ps).

(** [{ [P in keys]: tmpl P }] where [keys] is not written [keyof T].
    The checker inherits [readonly] and [?] from the fields of the
    modifiers type of the mapped type, which it finds from the
    declaration: [T] when the key type is [keyof T] or a type parameter
    bounded by [keyof T], and otherwise none.  [modT] is that type:
    [Some T] in the second case (as in [{ [P in K]: T[P] }] with
    [K extends keyof T]), [None] for any other key type (a conditional
    type such as [Exclude<keyof T, K>], an indexed access such as
    [T[number]]), where every field comes out neither [readonly] nor
    optional. *)
Definition mapped_in (modT : option ty) (keys : ty)
    (tmpl : ty -> result ty) : result ty :=
  match direct_members keys with
  | [] => Ok (TRecord [])
  | ks =>
      mods <- match modT with
              | Some T => attributes T
              | None => Ok []
              end ;;
      mapped_members mods ks tmpl
  end.

Definition element_optionality (v : ty) : ty :=
  match opt with
  | Add => add_optional v
  | Remove => strip_undefined v
  | Keep => v
  end.

(** [{ [P in keyof T]: tmpl T P }] instantiated at a type [t] that is
    not a union: arrays and tuples are mapped element by element,
    primitives are left as they are, and an object type is mapped
    field by field, inheriting the modifiers of each field. *)
Definition mapped_keyof_one (tmpl : ty -> ty -> result ty) (t : ty) : result ty :=
  match t with
  | TArray r _ =>
      v <- tmpl t TNumber ;;
      Ok (TArray (modified ro r) (element_optionality v))
  | TTuple r es =>
      match opt with
      | Add => Err OutsideFragment
      | _ =>
          vs <- mapM (fun i => tmpl t (TStr (key_name (Z.of_nat i))))
                     (seq 0 (List.length es)) ;;
          Ok (TTuple (modified ro r) vs)
      end
  | TRecord _ | TFun _ _ _ | TInter _ | TUnknown =>
      ps <- attributes t ;;
      mapped_members ps (map (fun p => TStr (name p)) ps) (tmpl t)
  | TAny | TVar _ | TCond _ _ _ _ => Err OutsideFragment
  | _ => Ok t
  end.

(** The homomorphic form distributes over a union. *)
Definition mapped_keyof (tmpl : ty -> ty -> result ty) (T : ty) : result ty :=
  match T with
  | TUnion ms => rs <- mapM (mapped_keyof_one tmpl) ms ;; Ok (mkUnion rs)
  | _ => mapped_keyof_one tmpl T
  end.
End mapped.

(** * The type aliases of the package *)

(** ** [src/3-Omit.ts] *)

(** [type MyExclude<T, U> = T extends U ? never : T]; the built-in
    [Exclude] has the same declaration. *)
Definition MyExclude (T U : ty) : result ty :=
  cond_dist T U (fun _ => Ok TNever) (fun M => Ok M).

Definition Exclude : ty -> ty -> result ty := MyExclude.

(** [type MyOmit<T, K extends keyof T> =
      { [P in MyExclude<keyof T, K>]: T[P] }].
    The key type is a conditional type, not [keyof] of a type parameter
    nor a type parameter bounded by one: the mapped type has no
    modifiers type. *)
Definition MyOmit (T K : ty) : result ty :=
  kT <- keyof T ;;
  constrain K kT (
    ks <- MyExclude kT K ;;
    mapped_in Keep Keep None ks (fun P => index T P)).

(** ** [MyPick] *)

(** [type MyPick<T, K extends keyof T> = { [P in K]: T[P] }]: [K] is a
    type parameter bounded by [keyof T], so [T] is the modifiers type. *)
Definition MyPick (T K : ty) : result ty :=
  kT <- keyof T ;;
  constrain K kT (mapped_in Keep Keep (Some T) K (fun P => index T P)).

(** [type MyOmit<T, K extends keyof T> = Pick<T, Exclude<keyof T, K>>],
    the declaration given in the package's notes on the utility types. *)
Definition PickExclude (T K : ty) : result ty :=
  kT <- keyof T ;;
  constrain K kT (ks <- Exclude kT K ;; MyPick T ks).

(** ** [src/4-Readonly.ts] *)

(** [type MyReadonly<T> = { readonly [K in keyof T] : T[K] }] *)
Definition MyReadonly (T : ty) : result ty :=
  mapped_keyof Add Keep (fun T K => index T K) T.

(** [type MyMutable<T> = { -readonly [K in keyof T] : T[K] }] *)
Definition MyMutable (T : ty) : result ty :=
  mapped_keyof Remove Keep (fun T K => index T K) T.

(** [type SomeReadonly<T, K extends keyof T> =
      { readonly [P in K]: T[P] } & { [P in Exclude<keyof T, K>]: T[P] }] *)
Definition SomeReadonly (T K : ty) : result ty :=
  kT <- keyof T ;;
  constrain K kT (
    marked <- mapped_in Add Keep (Some T) K (fun P => index T P) ;;
    ks <- Exclude kT K ;;
    others <- mapped_in Keep Keep None ks (fun P => index T P) ;;
    Ok (intersect [marked; others])).

(** [type DeepReadonly<T> = {
       readonly [P in keyof T]: T[P] extends object ? DeepReadonly<T[P]> : T[P] }],
    unfolded at most [depth] times. *)
Fixpoint DeepReadonly_at (depth : nat) (T : ty) : result ty :=
  match depth with
  | O => Err DepthLimit
  | S d =>
      mapped_keyof Add Keep
        (fun T P => v <- index T P ;; cond v TObject (DeepReadonly_at d v) (Ok v))
        T
  end.

Definition DeepReadonly (T : ty) : result ty := DeepReadonly_at (size T) T.

(** ** [src/5-Tuple2Object.ts] *)

(** [type TupleToObject<T extends readonly any[]> = { [P in T[number]]: P }] *)
Definition TupleToObject (T : ty) : result ty :=
  constrain T (TArray true TAny) (
    ks <- index T TNumber ;;
    mapped_in Keep Keep None ks (fun P => Ok P)).

(** ** [@type-challenges/utils] *)

(** [<T>() => T extends X ? 1 : 2] *)
Definition probe (X : ty) : result ty :=
  r <- cond (TVar 0) X (Ok (TNum 1)) (Ok (TNum 2)) ;;
  Ok (TFun 1 [] r).

(** [Equal<X, Y> = (<T>() => T extends X ? 1 : 2) extends
                   (<T>() => T extends Y ? 1 : 2) ? true : false] *)
Definition Equal (X Y : ty) : result ty :=
  px <- probe X ;;
  py <- probe Y ;;
  cond px py (Ok TTrue) (Ok TFalse).

(** [NotEqual<X, Y> = true extends Equal<X, Y> ? false : true] *)
Definition NotEqual (X Y : ty) : result ty :=
  e <- Equal X Y ;;
  cond TTrue e (Ok TFalse) (Ok TTrue).

(** [IsAny<T> = 0 extends (1 & T) ? true : false] *)
Definition IsAny (T : ty) : result ty :=
  cond (TNum 0) (intersect [TNum 1; T]) (Ok TTrue) (Ok TFalse).

(** [NotAny<T> = true extends IsAny<T> ? false : true] *)
Definition NotAny (T : ty) : result ty :=
  i <- IsAny T ;;
  cond TTrue i (Ok TFalse) (Ok TTrue).

(** [Expect<T extends true> = T] *)
Definition Expect (T : ty) : result ty :=
  constrain T TTrue (Ok T).

(** [Debug<T> = { [K in keyof T]: T[K] }] *)
Definition Debug (T : ty) : result ty :=
  mapped_keyof Keep Keep (fun T K => index T K) T.

(** ** Record declarations *)

(** [n: v], [readonly n: v], [n?: v] and [readonly n?: v] as they are
    declared: an optional field has [undefined] in its type. *)
Definition field (n : string) (v : ty) : attr ty := Attr n v false false.
Definition ro_field (n : string) (v : ty) : attr ty := Attr n v true false.
Definition opt_field (n : string) (v : ty) : attr ty :=
  Attr n (add_optional v) false true.
Definition ro_opt_field (n : string) (v : ty) : attr ty :=
  Attr n (add_optional v) true true.

(** ** Well-formed record declarations *)

(** A record declares each name once, and the type of an optional field
    includes [undefined]. *)
Definition well_formed (ps : list (attr ty)) : Prop :=
  NoDup (map name ps)
  /\ Forall (fun p => optional p = true ->
                      add_optional (valueType p) = valueType p) ps.

Fixpoint distinct_names (ns : list string) : bool :=
  match ns with
  | [] => true
  | n :: r => negb (existsb (String.eqb n) r) && distinct_names r
  end.

(** The same, as a test: the names are distinct, and the type of an
    optional field holds [undefined] or is a top type. *)
Definition well_formedb (ps : list (attr ty)) : bool :=
  distinct_names (map name ps)
  && forallb (fun p => implb (optional p)
                         (maybe_undefined (valueType p)
                          || is_any (valueType p)
                          || is_unknown (valueType p))) ps.

(** The field [p] with its [readonly] flag set to [b], nothing else
    touched. *)
Definition with_readonly (b : bool) (p : attr ty) : attr ty :=
  Attr (name p) (valueType p) b (optional p).

(** [keyof] of a record, as a list of keys. *)
Definition key_types (ps : list (attr ty)) : list ty :=
  map (fun p => TStr (name p)) ps.

(** Both evaluations succeed and [Equal] answers [true] on their
    results. *)
Definition equal_results (a b : result ty) : Prop :=
  exists x y, a = Ok x /\ b = Ok y /\ Equal x y = Ok TTrue.

(** ** Resolved types *)

(** A type that stands for itself inside a union or an intersection. *)
Definition atom (t : ty) : bool :=
  match t with
  | TAny | TUnknown | TNever | TUnion _ | TInter _
  | TVar _ | TCond _ _ _ _ => false
  | _ => true
  end.

(** A member of a union: an atom or a flat intersection of atoms. *)
Definition constituent (t : ty) : bool :=
  atom t || match t with TInter ts => forallb atom ts | _ => false end.

Fixpoint distinct (ts : list ty) : bool :=
  match ts with
  | [] => true
  | t :: r => negb (existsb (identical t) r) && distinct r
  end.

(** The shape of the types the checker builds: a union has at least two
    members, flat, different from one another, none of them a top or
    bottom type or a literal next to its primitive; an intersection is
    flat; no conditional type is left unresolved. *)
Definition canonical (t : ty) : bool :=
  match t with
  | TUnion ms =>
      Nat.leb 2 (List.length ms) && forallb constituent ms && distinct ms
      && forallb (fun m => negb (subsumed_literal ms m)) ms
  | TInter ts => forallb atom ts
  | TVar _ | TCond _ _ _ _ => false
  | _ => true
  end.


(** ** Intersections the checker keeps *)








(** ** Deep readonly, as a function on shapes *)

Definition primitive_like (t : ty) : bool :=
  match t with
  | TPrim _ | TLit _ => true
  | _ => false
  end.

(** A value type [DeepReadonly] does not enter: a primitive, a literal,
    or a union with a primitive or literal member (so the type of every
    optional field). *)
Definition leaf (t : ty) : bool :=
  match t with
  | TPrim _ | TLit _ => true
  | TUnion ms =>
      forallb (fun m => primitive_like m || is_object_type m) ms
      && existsb primitive_like ms
  | _ => false
  end.

(** Records, arrays and functions nested in one another down to leaves;
    records are well formed. *)
Fixpoint plain (t : ty) : bool :=
  match t with
  | TRecord ps =>
      distinct_names (map name ps)
      && forallb (fun p =>
                    (leaf (valueType p) || plain (valueType p))
                    && implb (optional p) (maybe_undefined (valueType p))) ps
  | TArray _ e => leaf e || plain e
  | TFun _ _ _ => true
  | _ => false
  end.

(** What [DeepReadonly] is to compute on them: every field of every
    nested record is [readonly], an array becomes a readonly array of
    deep-readonly elements, a function becomes the empty record (a mapped
    type keeps no call signature), and a leaf is left as it is. *)
Fixpoint deep_readonly_spec (t : ty) : ty :=
  match t with
  | TRecord ps =>
      TRecord (map (fun p => Attr (name p) (deep_readonly_spec (valueType p))
                               true (optional p)) ps)
  | TArray _ e => TArray true (deep_readonly_spec e)
  | TFun _ _ _ => TRecord []
  | _ => t
  end.

(** ** Sample declarations *)

(** [{ readonly id: number; name?: string; tags: string[] }] *)
Definition sample_record : list (attr ty) :=
  [ro_field "id" TNumber; opt_field "name" TString;
   field "tags" (TArray false TString)].

(** [{ readonly title: string; description?: string; completed: boolean }] *)
Definition Todo : ty :=
  TRecord [ro_field "title" TString; opt_field "description" TString;
           field "completed" TBoolean].

(** [DeepReadonlyUser] of [src/4-Readonly.ts]. *)
Definition DeepReadonlyUser : ty :=
  TRecord [field "id" TNumber;
           field "profile"
             (TRecord [field "name" TString;
                       field "settings" (TRecord [field "theme" TString])])].

(** [{ id: number; tags: string[]; greet: () => void }] *)
Definition Tagged : ty :=
  TRecord [field "id" TNumber; field "tags" (TArray false TString);
           field "greet" (TFun 0 [] (TPrim PVoid))].

(** [{ inner?: { x: number } }] *)
Definition OptNested : ty :=
  TRecord [opt_field "inner" (TRecord [field "x" TNumber])].

(** [{ id: number; greet: () => void }] *)
Definition Greeter : ty :=
  TRecord [field "id" TNumber; field "greet" (TFun 0 [] (TPrim PVoid))].

(** ** Shapes met by [IsAny] *)

(** The literal [1], alone or intersected with further types. *)
Definition branded_one (t : ty) : bool :=
  match t with
  | TLit (LNum 1) => true
  | TInter (TLit (LNum 1) :: _) => true
  | _ => false
  end.

(** Every member of [T] is an atom or a flat intersection of atoms. *)
Definition flat_atoms (T : ty) : bool :=
  forallb (fun m => forallb atom (inter_members m)) (union_members T).

(** ** Keys given by name *)

(** The union of the string literal keys [ks]. *)
Definition keys_of (ks : list string) : ty := of_members (map TStr ks).

(** The field is named by one of [ks]. *)
Definition named (ks : list string) (p : attr ty) : bool :=
  existsb (String.eqb (name p)) ks.

(** The field with its name and value type only. *)
Definition bare (p : attr ty) : attr ty :=
  Attr (name p) (valueType p) false false.

(** ** Tuples of literals *)

Fixpoint uniq (ls : list lit) : list lit :=
  match ls with
  | [] => []
  | l :: r => l :: filter (fun m => negb (lit_eqb l m)) (uniq r)
  end.


(** No two different elements of [ls] stand for the same property name
    (as ["1"] and [1] would). *)
Definition keys_apart (ls : list lit) : Prop :=
  forall a b n, In a ls -> In b ls ->
    prop_name (TLit a) = Some n -> prop_name (TLit b) = Some n -> a = b.

(** [MyUser] of [src/3-Omit.ts]. *)
Definition MyUser : ty :=
  TRecord [field "id" TNumber; field "name" TString;
           field "password" TString; field "email" TString].

(** [EventPayloads] of [src/3-Omit.ts]. *)
Definition EventPayloads : ty :=
  TUnion
    [TRecord [field "type" (TStr "click"); field "x" TNumber; field "y" TNumber];
     TRecord [field "type" (TStr "keydown"); field "key" TString];
     TRecord [field "type" (TStr "keyup"); field "key" TString]].

(** [User] of the declaration of [MyPick]. *)
Definition User : ty :=
  TRecord [field "name" TString; field "age" TNumber; field "email" TString].

(** * Further aliases of the package *)

(** ** Fields selected by name *)

(** The fields of [ps] named by [ks], in the order of [ks]. *)
Definition selected (ks : list string) (ps : list (attr ty)) : list (attr ty) :=
  flat_map (fun k => match lookup k ps with Some p => [p] | None => [] end) ks.

(** ** Primitives and literals against one another *)

(** A literal is below itself and below its primitive; a primitive is
    below itself, and [undefined] below [void]; nothing else is below a
    primitive or a literal. *)
Definition scalar_sub (a u : ty) : bool :=
  match a, u with
  | TLit l, TLit m => lit_eqb l m
  | TLit l, TPrim p => lit_in_prim l p
  | TPrim p, TPrim q => prim_sub p q
  | _, _ => false
  end.

(** A primitive, a literal, a union of such, or [never]. *)
Definition scalars (U : ty) : bool :=
  forallb primitive_like (direct_members U).

(** The member [m] is below one member of [U]. *)
Definition below (U m : ty) : bool :=
  existsb (scalar_sub m) (direct_members U).

(** A union of atoms, an atom, or [never]. *)
Definition atomic (T : ty) : bool := forallb atom (direct_members T).

(** ** [src/3-Omit.ts], continued *)

(** [type MyNonNullable<T> = Exclude<T, null | undefined>] *)
Definition MyNonNullable (T : ty) : result ty :=
  Exclude T (TUnion [TNull; TUndefined]).

Definition is_null_or_undefined (t : ty) : bool :=
  match t with
  | TPrim PNull | TPrim PUndefined => true
  | _ => false
  end.

(** ** Notes on the utility types: conditional types *)

(** [type MyExtract<T, U> = T extends U ? T : never] *)
Definition MyExtract (T U : ty) : result ty :=
  cond_dist T U (fun M => Ok M) (fun _ => Ok TNever).

(** ** [@type-challenges/utils], continued *)

(** [ExpectFalse<T extends false> = T]; [IsFalse] has the same
    declaration, as [ExpectTrue] and [IsTrue] have that of [Expect]. *)
Definition ExpectFalse (T : ty) : result ty :=
  constrain T TFalse (Ok T).

(** [ExpectExtends<VALUE, EXPECTED> = EXPECTED extends VALUE ? true : false] *)
Definition ExpectExtends (VALUE EXPECTED : ty) : result ty :=
  cond_dist EXPECTED VALUE (fun _ => Ok TTrue) (fun _ => Ok TFalse).

(** ** [src/5-Tuple2Object.ts], continued *)






(** ** Notes on the utility types: modifiers *)

(** [type MyPartial<T> = { [P in keyof T]?: T[P] }] *)
Definition MyPartial (T : ty) : result ty :=
  mapped_keyof Keep Add (fun T P => index T P) T.

(** [type MyRequired<T> = { [P in keyof T]-?: T[P] }] *)
Definition MyRequired (T : ty) : result ty :=
  mapped_keyof Keep Remove (fun T P => index T P) T.

(** The field made optional: its type includes [undefined]. *)
Definition partial_field (p : attr ty) : attr ty :=
  Attr (name p) (add_optional (valueType p)) (readonly p) true.

(** The field made required: when it was optional, [undefined] leaves
    its type. *)
Definition required_field (p : attr ty) : attr ty :=
  Attr (name p)
       (if optional p then strip_undefined (valueType p) else valueType p)
       (readonly p) false.

(** A field whose type is canonical and holds no [void], and no
    [undefined] either unless the field is optional. *)
Definition tidy (p : attr ty) : bool :=
  canonical (valueType p)
  && negb (existsb is_void (direct_members (valueType p)))
  && (optional p || negb (maybe_undefined (valueType p))).

(** [{ id: number; name?: string; email?: string; password: string }],
    the [User] of the notes' [RegisterForm]. *)
Definition FormUser : ty :=
  TRecord [field "id" TNumber; opt_field "name" TString;
           opt_field "email" TString; field "password" TString].

(** ** Notes on the utility types: [Record] *)

(** [keyof any], the bound of a key type: [string | number | symbol].
    The model has no symbol types. *)
Definition PropertyKey : ty := TUnion [TString; TNumber].

(** [type MyRecord<K extends keyof any, T> = { [P in K]: T }]; the key
    type is a type parameter that [keyof] of no type bounds, so the
    mapped type has no modifiers type. *)
Definition MyRecord (K T : ty) : result ty :=
  constrain K PropertyKey (mapped_in Keep Keep None K (fun _ => Ok T)).

(** ** Variadic tuples and [Flatten] *)

(** The element lists a spread operand [...A] stands for: those of [A]
    when it is a tuple, one list per member when it is a union of
    tuples, none when it is [never]. *)
Definition spread_one (t : ty) : result (list (list ty)) :=
  mapM (fun m => match m with
                 | TTuple _ es => Ok es
                 | _ => Err OutsideFragment
                 end)
       (direct_members t).

(** The element lists of [[...A, ...B, ...]]: one alternative per
    operand, concatenated. *)
Fixpoint spread (parts : list ty) : result (list (list ty)) :=
  match parts with
  | [] => Ok [[]]
  | p :: r =>
      heads <- spread_one p ;;
      tails <- spread r ;;
      Ok (flat_map (fun h => map (fun t => h ++ t) tails) heads)
  end.

(** [[...A, ...B, ...]] *)
Definition variadic (parts : list ty) : result ty :=
  alts <- spread parts ;; Ok (mkUnion (map (TTuple false) alts)).

(** [type Flatten<T extends readonly any[]> =
       T extends [infer First, ...infer Rest]
         ? First extends any[]
           ? [...Flatten<First>, ...Flatten<Rest>]
           : [First, ...Flatten<Rest>]
         : []],
    unfolded at most [depth] times.  Both conditional types have a type
    parameter as their check type and distribute.  The pattern
    [[infer First, ...infer Rest]] is a mutable tuple type: a mutable
    tuple with a first element matches it, with [First] that element and
    [Rest] the tuple of the others; the empty tuple, a readonly tuple
    and an array do not. *)
Fixpoint Flatten_at (depth : nat) (T : ty) : result ty :=
  match depth with
  | O => Err DepthLimit
  | S d =>
      constrain T (TArray true TAny) (
        rs <- mapM (fun M =>
                match M with
                | TTuple false (First :: Rest) =>
                    cond_dist First (TArray false TAny)
                      (fun F =>
                         a <- Flatten_at d F ;;
                         b <- Flatten_at d (TTuple false Rest) ;;
                         variadic [a; b])
                      (fun F =>
                         b <- Flatten_at d (TTuple false Rest) ;;
                         variadic [TTuple false [F]; b])
                | TTuple _ _ | TArray _ _ => Ok (TTuple false [])
                | _ => Err OutsideFragment
                end)
              (direct_members T) ;;
        Ok (mkUnion rs))
  end.

Definition Flatten (T : ty) : result ty := Flatten_at (size T) T.

(** The checker gives up on an instantiation nested a hundred deep, and
    [Flatten] is instantiated once more for each element; an argument
    this small stays well inside that bound. *)
Definition within_depth (T : ty) : bool := Nat.leb (size T) 24.

(** An element [Flatten] leaves in place: a primitive, a literal, a
    readonly tuple or a readonly array. *)
Definition kept (e : ty) : bool :=
  match e with
  | TPrim _ | TLit _ | TTuple true _ | TArray true _ => true
  | _ => false
  end.

(** Mutable tuples nested in one another, down to kept elements and
    mutable arrays. *)
Fixpoint nested (t : ty) : bool :=
  match t with
  | TTuple false es => forallb (fun e => kept e || nested e) es
  | TArray false _ => true
  | _ => false
  end.

(** The kept elements of the nested tuples, from left to right; a
    mutable array has none. *)
Fixpoint leaves (t : ty) : list ty :=
  match t with
  | TTuple false es => flat_map leaves es
  | TArray false _ => []
  | _ => [t]
  end.

(** ** Mapped types with an [as] clause *)

(** One property more, named [n], for the key [k] whose field in the
    modifiers type is [origin]: a name that is there already stands for
    one property, of the union of the keys, with the modifiers of the
    first. *)
Fixpoint add_renamed (n : string) (k : ty) (origin : option (attr ty))
    (acc : list (string * ty * option (attr ty)))
    : list (string * ty * option (attr ty)) :=
  match acc with
  | [] => [(n, k, origin)]
  | (m, k', o) :: r =>
      if String.eqb n m then (m, mkUnion [k'; k], o) :: r
      else (m, k', o) :: add_renamed n k origin r
  end.

(** Name types that are not resolved to a literal or a primitive. *)
Definition composite_name (t : ty) : bool :=
  match t with
  | TInter _ | TVar _ | TCond _ _ _ _ => true
  | _ => false
  end.

(** The names one key resolves to, member by member of its name type; a
    member that is neither usable as a property name nor as an index key
    gives no property, and [never] has no member. *)
Fixpoint add_names (names : list ty) (k : ty) (origin : option (attr ty))
    (acc : list (string * ty * option (attr ty)))
    : result (list (string * ty * option (attr ty))) :=
  match names with
  | [] => Ok acc
  | t :: r =>
      match prop_name t with
      | Some n => add_names r k origin (add_renamed n k origin acc)
      | None =>
          if index_key t || composite_name t then Err OutsideFragment
          else add_names r k origin acc
      end
  end.

Section mapped_as.
(** Modifiers of the mapped type, the fields of its modifiers type, its
    name type [as N] and its template, both as functions of the key. *)
Variables ro opt : modifier.
Variable mods : list (attr ty).
Variable as_name : ty -> result ty.
Variable tmpl : ty -> result ty.

Fixpoint collect_renamed (keys : list ty)
    (acc : list (string * ty * option (attr ty)))
    : result (list (string * ty * option (attr ty))) :=
  match keys with
  | [] => Ok acc
  | k :: r =>
      N <- as_name k ;;
      acc' <- add_names (direct_members N) k
                (match prop_name k with
                 | Some n => lookup n mods
                 | None => None
                 end) acc ;;
      collect_renamed r acc'
  end.

(** One member: named by the name type, typed by the template at the
    key, with the modifiers of the mapped type or those of the field the
    key names in the modifiers type. *)
Definition renamed_attr (e : string * ty * option (attr ty))
    : result (attr ty) :=
  let inherits (f : attr ty -> bool) :=
    match snd e with Some p => f p | None => false end in
  let is_opt := modified opt (inherits optional) in
  let is_ro := modified ro (inherits readonly) in
  v <- tmpl (snd (fst e)) ;;
  Ok (Attr (fst (fst e))
        (if is_opt then add_optional v
         else if inherits optional then strip_undefined v
         else v)
        is_ro is_opt).

Definition mapped_as_members (keys : list ty) : result ty :=
  es <- collect_renamed keys [] ;;
  ps <- mapM renamed_attr es ;;
  Ok (TRecord ps).
End mapped_as.

(** [{ [P in keyof T as N]: tmpl }] instantiated at a type [t] that is
    not a union: an object type is mapped field by field, each field
    under the names its key resolves to and with its own modifiers; a
    primitive is left as it is; with an [as] clause an array or a tuple
    is mapped as an object, through the members of the standard
    library. *)
Definition mapped_keyof_as_one (ro opt : modifier)
    (as_name tmpl : ty -> ty -> result ty) (t : ty) : result ty :=
  match t with
  | TRecord _ | TFun _ _ _ | TInter _ | TUnknown =>
      ps <- attributes t ;;
      mapped_as_members ro opt ps (as_name t) (tmpl t)
        (map (fun p => TStr (name p)) ps)
  | TArray _ _ | TTuple _ _ | TAny | TVar _ | TCond _ _ _ _ =>
      Err OutsideFragment
  | _ => Ok t
  end.

Definition mapped_keyof_as (ro opt : modifier)
    (as_name tmpl : ty -> ty -> result ty) (T : ty) : result ty :=
  match T with
  | TUnion ms =>
      rs <- mapM (mapped_keyof_as_one ro opt as_name tmpl) ms ;;
      Ok (mkUnion rs)
  | _ => mapped_keyof_as_one ro opt as_name tmpl T
  end.

(** [type MyOmit<T, K extends keyof T> =
      { [P in keyof T as P extends K ? never : P]: T[P] }],
    the declaration of the notes on the [as] clause. *)
Definition MyOmit_as (T K : ty) : result ty :=
  kT <- keyof T ;;
  constrain K kT (
    mapped_keyof_as Keep Keep
      (fun _ P => cond_dist P K (fun _ => Ok TNever) (fun P => Ok P))
      (fun T P => index T P) T).

(** [type PickByType<T, U> =
      { [K in keyof T as T[K] extends U ? K : never]: T[K] }];
    [OnlyStrings<T>] and [OnlyStringProperties<T>] of the notes are
    [PickByType<T, string>]. *)
Definition PickByType (T U : ty) : result ty :=
  mapped_keyof_as Keep Keep
    (fun T K => v <- index T K ;; cond v U (Ok K) (Ok TNever))
    (fun T K => index T K) T.

(** [type OmitByType<T, U> =
      { [K in keyof T as T[K] extends U ? never : K]: T[K] }];
    [OmitStrings<T>] of the notes is [OmitByType<T, string>]. *)
Definition OmitByType (T U : ty) : result ty :=
  mapped_keyof_as Keep Keep
    (fun T K => v <- index T K ;; cond v U (Ok TNever) (Ok K))
    (fun T K => index T K) T.

(** [type OptionalKeys<T> =
      { [K in keyof T as {} extends Pick<T, K> ? K : never]: T[K] }];
    [PickOptional<T>] has the same declaration. *)
Definition OptionalKeys (T : ty) : result ty :=
  mapped_keyof_as Keep Keep
    (fun T K => p <- MyPick T K ;; cond (TRecord []) p (Ok K) (Ok TNever))
    (fun T K => index T K) T.

(** The value type of a field is below [U], member by member. *)
Definition typed_below (U : ty) (p : attr ty) : bool :=
  forallb (below U) (direct_members (valueType p)).

(** The field has a canonical type made of atoms. *)
Definition atomic_field (p : attr ty) : bool :=
  canonical (valueType p) && atomic (valueType p).

(** [{ id: number; name: string; email: string; active: boolean }], the
    [User] of the notes on filtering by type. *)
Definition TypedUser : ty :=
  TRecord [field "id" TNumber; field "name" TString;
           field "email" TString; field "active" TBoolean].

(** ** [src/5-Tuple2Object.ts]: keys in upper case *)

(** One character of a string literal in upper case; the characters
    outside ASCII are not modelled. *)
Definition upper_char (c : ascii) : option ascii :=
  let n := nat_of_ascii c in
  if Nat.leb 128 n then None
  else if Nat.leb 97 n && Nat.leb n 122 then Some (ascii_of_nat (n - 32))
  else Some c.

Fixpoint upper (s : string) : option string :=
  match s with
  | EmptyString => Some EmptyString
  | String c r =>
      match upper_char c, upper r with
      | Some d, Some u => Some (String d u)
      | _, _ => None
      end
  end.

Definition Uppercase_one (t : ty) : result ty :=
  match t with
  | TLit (LStr s) =>
      match upper s with
      | Some u => Ok (TStr u)
      | None => Err OutsideFragment
      end
  | _ => Err OutsideFragment
  end.

(** The intrinsic [Uppercase<S>]: member by member over a union, a
    string literal in upper case; [Uppercase<string>] is a type of its
    own, outside the fragment. *)
Definition Uppercase (t : ty) : result ty :=
  match t with
  | TNever => Ok TNever
  | TUnion ms => rs <- mapM Uppercase_one ms ;; Ok (mkUnion rs)
  | _ => Uppercase_one t
  end.

(** [type TupleToObjectUpperKeys<T extends readonly any[]> =
      { [P in T[number] as Uppercase<P & string>]: P }] *)
Definition TupleToObjectUpperKeys (T : ty) : result ty :=
  constrain T (TArray true TAny) (
    ks <- index T TNumber ;;
    mapped_as_members Keep Keep []
      (fun P => Uppercase (intersect [P; TString]))
      (fun P => Ok P)
      (direct_members ks)).

(** The string elements, each once, in the order of their first
    occurrence. *)
Definition strings_of (ls : list lit) : list string :=
  flat_map (fun l => match l with LStr s => [s] | _ => [] end) (uniq ls).

Definition upper_name (s : string) : string :=
  match upper s with Some u => u | None => s end.

Definition is_ascii (s : string) : bool :=
  match upper s with Some _ => true | None => false end.

Definition string_or_number (l : lit) : bool :=
  match l with
  | LStr s => is_ascii s
  | LNum _ => true
  | LBool _ => false
  end.

(** ** Notes on the utility types: indexed access and conditional types *)

(** [type ValueOf<T> = T[keyof T]] *)
Definition ValueOf (T : ty) : result ty :=
  K <- keyof T ;; index T K.

(** [type IsString<T> = T extends string ? true : false] *)
Definition IsString (T : ty) : result ty :=
  cond_dist T TString (fun _ => Ok TTrue) (fun _ => Ok TFalse).

(** [type ToArray<T> = T extends any ? T[] : never] *)
Definition ToArray (T : ty) : result ty :=
  cond_dist T TAny (fun M => Ok (TArray false M)) (fun _ => Ok TNever).

(** * Properties *)

(** ** The declarations of the sources, evaluated *)

(** The results the sources announce in their comments, recomputed on the model. *)

Example Test2_of_Omit :
  MyExclude (TUnion [TStr "a"; TStr "b"; TStr "c"; TStr "d"])
            (TUnion [TStr "a"; TStr "b"])
  = Ok (TUnion [TStr "c"; TStr "d"]).
Proof. reflexivity. Qed.

Example Test3_of_Omit :
  MyExclude (mkUnion [TString; TNumber; TBoolean]) TString
  = Ok (mkUnion [TNumber; TBoolean]).
Proof. reflexivity. Qed.

Example Test4_of_Omit :
  MyExclude (TUnion [TString; TNull]) TNull = Ok TString.
Proof. reflexivity. Qed.

Example KeyboardEvents_of_Omit :
  Exclude EventPayloads (TRecord [field "type" (TStr "click")])
  = Ok (TUnion
          [TRecord [field "type" (TStr "keydown"); field "key" TString];
           TRecord [field "type" (TStr "keyup"); field "key" TString]]).
Proof. reflexivity. Qed.

Example PublicKeys_of_Omit :
  (K <- keyof MyUser ;; Exclude K (TStr "password"))
  = Ok (TUnion [TStr "id"; TStr "name"; TStr "email"]).
Proof. reflexivity. Qed.

Example MyOmit_of_MyUser :
  MyOmit MyUser (TStr "password")
  = Ok (TRecord [field "id" TNumber; field "name" TString; field "email" TString]).
Proof. reflexivity. Qed.

Example MyOmit_rejects_foreign_key :
  MyOmit MyUser (TStr "phone") = Err StaticRejection.
Proof. reflexivity. Qed.

Example UserPreview_of_MyPick :
  MyPick User (TUnion [TStr "name"; TStr "age"])
  = Ok (TRecord [field "name" TString; field "age" TNumber]).
Proof. reflexivity. Qed.

Example MutableUser_of_Readonly :
  MyMutable (TRecord [ro_field "id" TNumber; field "name" TString])
  = Ok (TRecord [field "id" TNumber; field "name" TString]).
Proof. reflexivity. Qed.

Example Result1_of_Tuple2Object :
  TupleToObject
    (TTuple true [TStr "tesla"; TStr "model 3"; TStr "model X"; TStr "model Y"])
  = Ok (TRecord [field "tesla" (TStr "tesla"); field "model 3" (TStr "model 3");
                 field "model X" (TStr "model X");
                 field "model Y" (TStr "model Y")]).
Proof. reflexivity. Qed.

Example Numbers_of_Tuple2Object :
  TupleToObject (TTuple false [TNum 1; TNum 2; TNum 3])
  = Ok (TRecord [field "1" (TNum 1); field "2" (TNum 2); field "3" (TNum 3)]).
Proof. reflexivity. Qed.

Example Empty_of_Tuple2Object :
  TupleToObject (TTuple false []) = Ok (TRecord []).
Proof. reflexivity. Qed.

Example cases_of_Equal :
  Equal TString TString = Ok TTrue
  /\ Equal TNumber TString = Ok TFalse
  /\ Equal (TRecord [field "a" (TNum 1)]) (TRecord [field "a" (TNum 1)]) = Ok TTrue
  /\ Equal (TRecord [field "a" (TNum 1)]) (TRecord [ro_field "a" (TNum 1)])
     = Ok TFalse
  /\ Equal TAny TString = Ok TFalse
  /\ NotEqual TString TNumber = Ok TTrue.
Proof. repeat split; reflexivity. Qed.

Example cases_of_IsAny :
  IsAny TAny = Ok TTrue /\ IsAny TString = Ok TFalse
  /\ NotAny TString = Ok TTrue /\ NotAny TAny = Ok TFalse.
Proof. repeat split; reflexivity. Qed.

(** ** Lists under the result monad *)

Lemma mapM_pointwise {A B C} (f : B -> result C) (h : A -> B) (g : A -> C)
    (l : list A) :
  (forall x, In x l -> f (h x) = Ok (g x)) ->
  mapM f (map h l) = Ok (map g l).
Proof.
  induction l as [|a l IH]; intros H; simpl; [reflexivity|].
  rewrite (H a) by now left. simpl.
  rewrite IH by (intros; apply H; now right). reflexivity.
Qed.

Lemma mapM_id {A} (f : A -> result A) (l : list A) :
  (forall x, In x l -> f x = Ok x) -> mapM f l = Ok l.
Proof.
  intros H. rewrite <- (map_id l) at 1.
  rewrite (mapM_pointwise f (fun x => x) (fun x => x)) by assumption.
  now rewrite map_id.
Qed.

Lemma mapM_ext_in {A B} (f g : A -> result B) (l : list A) :
  (forall x, In x l -> f x = g x) -> mapM f l = mapM g l.
Proof.
  induction l as [|a l IH]; intros H; simpl; [reflexivity|].
  rewrite (H a) by now left.
  rewrite IH by (intros; apply H; now right). reflexivity.
Qed.

Lemma anyM_pointwise {A} (g : A -> result bool) (f : A -> bool) (l : list A) :
  (forall x, In x l -> g x = Ok (f x)) -> anyM g l = Ok (existsb f l).
Proof.
  induction l as [|a l IH]; intros H; simpl; [reflexivity|].
  rewrite (H a) by now left. simpl.
  destruct (f a); [reflexivity|]. apply IH. intros; apply H; now right.
Qed.

Lemma allM_pointwise {A} (g : A -> result bool) (f : A -> bool) (l : list A) :
  (forall x, In x l -> g x = Ok (f x)) -> allM g l = Ok (forallb f l).
Proof.
  induction l as [|a l IH]; intros H; simpl; [reflexivity|].
  rewrite (H a) by now left. simpl.
  destruct (f a); [|reflexivity]. apply IH. intros; apply H; now right.
Qed.

(** [allM] over the image of a list. *)
Lemma allM_map {A B} (g : B -> result bool) (h : A -> B) (l : list A)
    (f : A -> bool) :
  (forall x, In x l -> g (h x) = Ok (f x)) ->
  allM g (map h l) = Ok (forallb f l).
Proof.
  induction l as [|a l IH]; intros H; simpl; [reflexivity|].
  rewrite (H a) by now left. simpl.
  destruct (f a); [|reflexivity]. apply IH. intros; apply H; now right.
Qed.

Lemma filter_all {A} (f : A -> bool) l :
  (forall x, In x l -> f x = true) -> filter f l = l.
Proof.
  induction l as [|a l IH]; intros H; simpl; [reflexivity|].
  rewrite (H a) by now left. f_equal. apply IH. intros; apply H; now right.
Qed.

Lemma NoDup_filter {A} (f : A -> bool) l : NoDup l -> NoDup (filter f l).
Proof.
  induction 1 as [|a l Ha Hnd IH]; simpl; [constructor|].
  destruct (f a); [|exact IH]. constructor; [|exact IH].
  intros Hin. apply filter_In in Hin as [Hin _]. contradiction.
Qed.

(** ** Distinct names *)

Lemma existsb_eqb_In a ns : In a ns -> existsb (String.eqb a) ns = true.
Proof.
  intros H. apply existsb_exists. exists a. now rewrite String.eqb_refl.
Qed.

Lemma distinct_names_NoDup ns : distinct_names ns = true -> NoDup ns.
Proof.
  induction ns as [|n ns IH]; simpl; intros H; constructor.
  - apply andb_true_iff in H as [H _]. apply negb_true_iff in H.
    intros Hin. apply existsb_eqb_In in Hin. congruence.
  - apply andb_true_iff in H as [_ H]. auto.
Qed.

(** ** Type identity and [Equal] *)

Lemma lit_eqb_refl l : lit_eqb l l = true.
Proof.
  destruct l; simpl.
  - apply String.eqb_refl.
  - apply Z.eqb_refl.
  - apply Bool.eqb_reflx.
Qed.

Lemma lit_eqb_eq a b : lit_eqb a b = true <-> a = b.
Proof.
  destruct a, b; simpl; split; intros H; try discriminate; try congruence.
  - apply String.eqb_eq in H. congruence.
  - injection H as ->. apply String.eqb_refl.
  - apply Z.eqb_eq in H. congruence.
  - injection H as ->. apply Z.eqb_refl.
  - apply Bool.eqb_prop in H. congruence.
  - injection H as ->. apply Bool.eqb_reflx.
Qed.

Lemma prim_eqb_refl p : prim_eqb p p = true.
Proof. destruct p; reflexivity. Qed.

Lemma same_decl_refl (p : attr ty) : same_decl p p = true.
Proof.
  unfold same_decl.
  now rewrite String.eqb_refl, !Bool.eqb_reflx.
Qed.

Lemma same_decl_name {A B} (p : attr A) (q : attr B) :
  same_decl p q = true -> name p = name q.
Proof.
  unfold same_decl. intros H.
  apply andb_true_iff in H as [H _]. apply andb_true_iff in H as [H _].
  now apply String.eqb_eq.
Qed.

Lemma existsb_self {A} (f : A -> A -> bool) (l : list A) :
  Forall (fun x => f x x = true) l ->
  forallb (fun x => existsb (fun y => f x y) l) l = true.
Proof.
  intros H. apply forallb_forall. intros x Hx.
  apply existsb_exists. exists x. split; [assumption|].
  rewrite Forall_forall in H. auto.
Qed.

Lemma identical_refl t : identical t t = true.
Proof.
  induction t using ty_nested_ind; simpl; auto using lit_eqb_refl, prim_eqb_refl.
  - rewrite existsb_self by assumption.
    apply andb_true_intro; split; [reflexivity|].
    apply forallb_forall. intros x Hx. apply existsb_exists. exists x.
    rewrite Forall_forall in H. auto.
  - rewrite existsb_self by assumption.
    apply andb_true_intro; split; [reflexivity|].
    apply forallb_forall. intros x Hx. apply existsb_exists. exists x.
    rewrite Forall_forall in H. auto.
  - rewrite Forall_forall in H.
    apply andb_true_intro; split; apply forallb_forall; intros p Hp;
      apply existsb_exists; exists p; (split; [assumption|]);
      rewrite same_decl_refl; simpl; auto.
  - now rewrite Bool.eqb_reflx.
  - rewrite Bool.eqb_reflx. simpl.
    induction H; simpl; [reflexivity|]. now rewrite H, IHForall.
  - rewrite Nat.eqb_refl, IHt. simpl. rewrite andb_true_r.
    induction H; simpl; [reflexivity|]. now rewrite H, IHForall.
  - apply Nat.eqb_refl.
  - now rewrite IHt1, IHt2, IHt3, IHt4.
Qed.

Lemma assignable_probe n X Y :
  3 <= n ->
  assignable n (TFun 1 [] (TCond (TVar 0) X (TNum 1) (TNum 2)))
               (TFun 1 [] (TCond (TVar 0) Y (TNum 1) (TNum 2)))
  = Ok (identical X Y).
Proof.
  intros Hn. destruct n as [|[|[|n]]]; try lia.
  cbn. destruct (identical X Y); reflexivity.
Qed.

Lemma Equal_identical X Y : Equal X Y = Ok (TBool (identical X Y)).
Proof.
  unfold Equal, probe. cbn [cond bind].
  unfold cond. cbn [is_any is_unknown orb].
  unfold extends. rewrite assignable_probe.
  - cbn [bind]. destruct (identical X Y); reflexivity.
  - cbn [size]. lia.
Qed.

Lemma Equal_refl X : Equal X X = Ok TTrue.
Proof. rewrite Equal_identical, identical_refl. reflexivity. Qed.

Lemma equal_results_same (a : result ty) (x : ty) :
  a = Ok x -> equal_results a (Ok x).
Proof. intros ->. exists x, x. auto using Equal_refl. Qed.

(** [NotEqual] is the negation of [Equal]. *)
Lemma NotEqual_negates X Y : NotEqual X Y = Ok (TBool (negb (identical X Y))).
Proof.
  unfold NotEqual. rewrite Equal_identical. cbn [bind].
  destruct (identical X Y); reflexivity.
Qed.

(** C1.  [Equal] is the identity of types and sees the modifiers of the
    fields.  Two records that differ in one field only, of the same name
    but with another [readonly] or [optional] modifier, are not [Equal],
    whatever the value types, while a record is [Equal] to itself; in
    particular [Equal<{a: number}, {a: number}>] is [true],
    [Equal<{a: number}, {readonly a: number}>] is [false] and
    [Equal<{a?: number}, {a: number}>] is [false]. *)
Theorem Equal_modifier_sensitive (pre post : list (attr ty)) (p q : attr ty) :
  NoDup (map name (pre ++ p :: post)) ->
  name q = name p ->
  same_decl p q = false ->
  Equal (TRecord (pre ++ p :: post)) (TRecord (pre ++ p :: post)) = Ok TTrue
  /\ Equal (TRecord (pre ++ p :: post)) (TRecord (pre ++ q :: post)) = Ok TFalse
  /\ Equal (TRecord [field "a" TNumber]) (TRecord [field "a" TNumber]) = Ok TTrue
  /\ Equal (TRecord [field "a" TNumber]) (TRecord [ro_field "a" TNumber]) = Ok TFalse
  /\ Equal (TRecord [opt_field "a" TNumber]) (TRecord [field "a" TNumber]) = Ok TFalse.
Proof.
  intros Hnd Hname Hdecl.
  split; [apply Equal_refl|].
  split; [|repeat split; reflexivity].
  rewrite Equal_identical.
  replace (identical (TRecord (pre ++ p :: post)) (TRecord (pre ++ q :: post)))
    with false; [reflexivity|].
  symmetry. cbn [identical].
  apply andb_false_iff. left.
  apply not_true_is_false. intros Hall.
  rewrite forallb_forall in Hall.
  specialize (Hall p (in_elt p pre post)).
  apply existsb_exists in Hall as [q0 [Hin Hq0]].
  apply andb_true_iff in Hq0 as [Hsame _].
  rewrite map_app in Hnd. simpl in Hnd.
  apply in_app_or in Hin as [Hin | [<- | Hin]].
  - apply NoDup_remove_2 in Hnd. apply Hnd.
    apply in_or_app. left. rewrite (same_decl_name _ _ Hsame).
    now apply in_map.
  - congruence.
  - apply NoDup_remove_2 in Hnd. apply Hnd.
    apply in_or_app. right. rewrite (same_decl_name _ _ Hsame).
    now apply in_map.
Qed.

Lemma Equal_modifier_sensitive_witness :
  distinct_names (map name [field "id" TNumber; field "a" TNumber]) = true
  /\ Equal (TRecord [field "id" TNumber; field "a" TNumber])
           (TRecord [field "id" TNumber; ro_field "a" TNumber]) = Ok TFalse.
Proof.
  split; [reflexivity|].
  apply (Equal_modifier_sensitive
           [field "id" TNumber] [] (field "a" TNumber) (ro_field "a" TNumber)).
  - apply distinct_names_NoDup. reflexivity.
  - reflexivity.
  - reflexivity.
Defined.

(** ** Assignability, one step at a time *)

Lemma size_pos t : 1 <= size t.
Proof. destruct t; simpl; lia. Qed.

Lemma size_field ps p : In p ps -> size (valueType p) < size (TRecord ps).
Proof.
  cbn [size]. induction ps as [|q ps IH]; [contradiction|].
  intros [->|H]; [lia|]. specialize (IH H). lia.
Qed.

Lemma assignable_S n s t :
  assignable (S n) s t =
  match t with
  | TAny | TUnknown => Ok true
  | _ =>
      match s with
      | TNever => Ok true
      | TAny => Ok (negb (is_never t))
      | TUnknown => Ok (accepts_unknown t)
      | TUnion ss => allM (fun x => assignable n x t) ss
      | _ =>
          match t with
          | TNever => Ok false
          | TUnion ts => anyM (fun y => assignable n s y) ts
          | TInter ts => allM (fun y => assignable n s y) ts
          | _ => related (assignable n) s t
          end
      end
  end.
Proof. reflexivity. Qed.

Lemma extends_never s :
  (if is_never s || is_any s then false
   else match s with TUnion _ => false | _ => true end) = true ->
  extends s TNever = Ok false.
Proof.
  intros H. unfold extends.
  pose proof (size_pos s) as Hs.
  destruct (size s + size TNever) as [|n] eqn:E; [lia|].
  rewrite assignable_S.
  destruct s; try discriminate; reflexivity.
Qed.

(** ** Canonical unions *)

Lemma constituent_members m : constituent m = true -> union_members m = [m].
Proof. destruct m; try discriminate; reflexivity. Qed.

Lemma flat_constituents ms :
  forallb constituent ms = true -> flat_map union_members ms = ms.
Proof.
  induction ms as [|m ms IH]; simpl; [reflexivity|].
  intros H. apply andb_true_iff in H as [Hm Hms].
  rewrite (constituent_members m Hm), IH by assumption. reflexivity.
Qed.

Lemma existsb_constituents (f : ty -> bool) ms :
  (forall m, constituent m = true -> f m = false) ->
  forallb constituent ms = true -> existsb f ms = false.
Proof.
  intros Hf. induction ms as [|m ms IH]; simpl; [reflexivity|].
  intros H. apply andb_true_iff in H as [Hm Hms].
  now rewrite (Hf m Hm), IH.
Qed.

Lemma dedupe_In x l : In x (dedupe l) -> In x l.
Proof.
  induction l as [|a l IH]; simpl; [auto|].
  intros [->|H]; [now left|].
  apply filter_In in H as [H _]. right. auto.
Qed.

Lemma dedupe_distinct ms : distinct ms = true -> dedupe ms = ms.
Proof.
  induction ms as [|m ms IH]; simpl; [reflexivity|].
  intros H. apply andb_true_iff in H as [Hm Hms].
  rewrite IH by assumption. f_equal. apply filter_all.
  intros x Hx. apply negb_true_iff. apply negb_true_iff in Hm.
  apply not_true_is_false. intros Hid.
  assert (existsb (identical m) ms = true)
    by (apply existsb_exists; now exists x).
  congruence.
Qed.

Lemma canonical_union_inv ms :
  canonical (TUnion ms) = true ->
  Nat.leb 2 (List.length ms) = true
  /\ forallb constituent ms = true
  /\ distinct ms = true
  /\ forallb (fun m => negb (subsumed_literal ms m)) ms = true.
Proof.
  cbn [canonical]. intros H.
  apply andb_true_iff in H as [H Hsub].
  apply andb_true_iff in H as [H Hdis].
  apply andb_true_iff in H as [Hlen Hcon].
  auto.
Qed.

(** A canonical union is what [mkUnion] builds from its members. *)
Lemma mkUnion_canonical ms :
  canonical (TUnion ms) = true -> mkUnion ms = TUnion ms.
Proof.
  intros H. destruct (canonical_union_inv _ H) as [Hlen [Hcon [Hdis Hsub]]].
  unfold mkUnion. rewrite flat_constituents by assumption.
  rewrite (existsb_constituents is_any), (existsb_constituents is_unknown);
    try assumption; try (intros m; destruct m; (discriminate || reflexivity)).
  rewrite dedupe_distinct by assumption.
  rewrite filter_all by (now apply forallb_forall).
  destruct ms as [|a [|b ms]]; try discriminate. reflexivity.
Qed.

Lemma mkUnion_flat l l' :
  flat_map union_members l = flat_map union_members l' ->
  mkUnion l = mkUnion l'.
Proof. unfold mkUnion. now intros ->. Qed.

(** ** [MyExclude] *)

Lemma MyExclude_never_member m :
  constituent m = true ->
  cond m TNever (Ok TNever) (Ok m) = Ok m.
Proof.
  intros Hm. unfold cond.
  rewrite extends_never by (destruct m; (discriminate || reflexivity)).
  destruct m; try discriminate; reflexivity.
Qed.

(** C6.  [MyExclude] resolves its conditional member by member and
    unites the results; [Exclude<"a" | "b" | "c", "a">] is ["b" | "c"];
    excluding [never] from a canonical type gives the type back;
    excluding anything from [never] gives [never]. *)
Theorem MyExclude_laws (X U : ty) :
  canonical X = true ->
  MyExclude (TUnion [TStr "a"; TStr "b"; TStr "c"]) (TStr "a")
    = Ok (TUnion [TStr "b"; TStr "c"])
  /\ MyExclude X TNever = Ok X
  /\ MyExclude TNever U = Ok TNever
  /\ MyExclude X U
     = rs <- mapM (fun M => MyExclude M U) (direct_members X) ;; Ok (mkUnion rs).
Proof.
  intros Hc. split; [reflexivity|]. split; [|split; [reflexivity|]].
  - destruct X; try discriminate; try reflexivity;
      try (unfold MyExclude, cond_dist, cond; cbn [is_any is_unknown orb];
           rewrite extends_never by reflexivity; reflexivity).
    unfold MyExclude, cond_dist.
    destruct (canonical_union_inv _ Hc) as [_ [Hm _]].
    rewrite mapM_id.
    + cbn [bind]. now rewrite mkUnion_canonical.
    + intros m Hin. apply MyExclude_never_member.
      rewrite forallb_forall in Hm. auto.
  - destruct X; try discriminate; try reflexivity;
      try (cbn [direct_members mapM]; unfold MyExclude, cond_dist, cond;
           destruct (is_any U || is_unknown U); [reflexivity|];
           cbn [is_any]; try reflexivity;
           match goal with
           | |- context [extends ?x U] =>
               destruct (extends x U) as [[|]|e]; try reflexivity
           end;
           match goal with
           | l : lit |- _ => destruct l; reflexivity
           end).
    unfold MyExclude at 1. cbn [cond_dist direct_members].
    destruct (canonical_union_inv _ Hc) as [_ [Hm _]]. clear Hc.
    rename Hm into Hc.
    rewrite forallb_forall in Hc.
    rewrite (mapM_ext_in _ (fun M => MyExclude M U)); [reflexivity|].
    intros m Hin. specialize (Hc m Hin).
    destruct m; try discriminate; reflexivity.
Qed.

Lemma MyExclude_laws_witness :
  canonical (TUnion [TString; TNumber; TNull]) = true
  /\ MyExclude (TUnion [TString; TNumber; TNull]) TNever
     = Ok (TUnion [TString; TNumber; TNull]).
Proof.
  split; [reflexivity|].
  apply (MyExclude_laws (TUnion [TString; TNumber; TNull]) TNever).
  reflexivity.
Defined.

(** ** Keys given by name *)

Lemma flat_strings ns : flat_map union_members (map TStr ns) = map TStr ns.
Proof.
  induction ns as [|a ns IH]; [reflexivity|].
  cbn [map flat_map]. rewrite IH. reflexivity.
Qed.

Lemma existsb_strings (f : ty -> bool) ns :
  (forall n, f (TStr n) = false) -> existsb f (map TStr ns) = false.
Proof. intros H. induction ns; simpl; [reflexivity|]. now rewrite H. Qed.

Lemma dedupe_strings ns : NoDup ns -> dedupe (map TStr ns) = map TStr ns.
Proof.
  induction 1 as [|n ns Hn Hnd IH]; simpl; [reflexivity|].
  rewrite IH. f_equal. apply filter_all.
  intros x Hx. apply in_map_iff in Hx as [m [<- Hm]]. simpl.
  destruct (String.eqb_spec n m); [subst; contradiction|reflexivity].
Qed.

Lemma mkUnion_strings ns :
  NoDup ns -> mkUnion (map TStr ns) = of_members (map TStr ns).
Proof.
  intros Hnd. unfold mkUnion. rewrite flat_strings.
  rewrite !existsb_strings by reflexivity.
  rewrite dedupe_strings by assumption.
  rewrite filter_all; [reflexivity|].
  intros x Hx. apply in_map_iff in Hx as [m [<- Hm]]. simpl.
  now rewrite existsb_strings.
Qed.

Lemma direct_members_strings ns :
  direct_members (of_members (map TStr ns)) = map TStr ns.
Proof. destruct ns as [|a [|b ns]]; reflexivity. Qed.

Lemma incl_forallb ks ns :
  incl ks ns -> forallb (fun k => existsb (String.eqb k) ns) ks = true.
Proof.
  intros H. apply forallb_forall. intros k Hk.
  apply existsb_eqb_In. auto.
Qed.

Lemma assignable_string_union n a ns :
  assignable (S (S n)) (TStr a) (TUnion (map TStr ns))
  = Ok (existsb (String.eqb a) ns).
Proof.
  rewrite assignable_S. unfold TStr. cbv iota beta.
  induction ns as [|b ns IH]; [reflexivity|].
  cbn [map anyM existsb].
  change (assignable (S n) (TLit (LStr a)) (TLit (LStr b)))
    with (Ok (String.eqb a b)).
  cbn [bind].
  destruct (String.eqb a b); [reflexivity|exact IH].
Qed.

Lemma assignable_key f n ks :
  2 <= f ->
  assignable f (TStr n) (keys_of ks) = Ok (existsb (String.eqb n) ks).
Proof.
  intros Hf. destruct f as [|[|f]]; try lia.
  destruct ks as [|a [|b ks]].
  - reflexivity.
  - cbn. now rewrite orb_false_r.
  - apply (assignable_string_union f n (a :: b :: ks)).
Qed.

Lemma size_keys ks : 1 <= size (keys_of ks).
Proof. apply size_pos. Qed.

Lemma extends_key n ks :
  extends (TStr n) (keys_of ks) = Ok (existsb (String.eqb n) ks).
Proof.
  unfold extends. apply assignable_key.
  pose proof (size_keys ks). cbn [size TStr]. lia.
Qed.

(** [K extends keyof T] on keys given by name: every key of [K] is a key
    of [T]. *)
Lemma extends_keys ks ns :
  extends (keys_of ks) (keys_of ns)
  = Ok (forallb (fun k => existsb (String.eqb k) ns) ks).
Proof.
  destruct ks as [|a [|b ks]].
  - unfold extends. pose proof (size_keys ns).
    destruct (size (keys_of []) + size (keys_of ns)) as [|f] eqn:E;
      [cbn in E; lia|].
    rewrite assignable_S. destruct (keys_of ns); reflexivity.
  - cbn [keys_of of_members map forallb]. rewrite andb_true_r.
    apply extends_key.
  - unfold extends. pose proof (size_keys ns).
    assert (Hsz : 4 <= size (keys_of (a :: b :: ks)) + size (keys_of ns))
      by (cbn; lia).
    destruct (size (keys_of (a :: b :: ks)) + size (keys_of ns))
      as [|[|[|f]]]; try lia.
    rewrite assignable_S.
    assert (Ht : forall A (x y : A),
               match keys_of ns with TAny | TUnknown => x | _ => y end = y).
    { intros. destruct ns as [|? [|? ?]]; reflexivity. }
    rewrite Ht. cbn [keys_of of_members map].
    change (TStr a :: TStr b :: map TStr ks) with (map TStr (a :: b :: ks)).
    fold (keys_of ns).
    rewrite (allM_map _ _ _ (fun k => existsb (String.eqb k) ns));
      [reflexivity|].
    intros k _. apply assignable_key. lia.
Qed.

Lemma keys_not_top ks : is_any (keys_of ks) || is_unknown (keys_of ks) = false.
Proof. destruct ks as [|? [|? ?]]; reflexivity. Qed.

(** One key against the excluded keys. *)
Lemma MyExclude_key n ks :
  cond (TStr n) (keys_of ks) (Ok TNever) (Ok (TStr n))
  = Ok (if existsb (String.eqb n) ks then TNever else TStr n).
Proof.
  unfold cond. cbn [TStr]. fold (TStr n).
  rewrite keys_not_top. cbn [is_any].
  rewrite extends_key. cbn [bind].
  now destruct (existsb _ ks).
Qed.

(** [MyExclude] on keys given by name removes the excluded names. *)
Lemma MyExclude_keys ns ks :
  NoDup ns ->
  MyExclude (keys_of ns) (keys_of ks)
  = Ok (keys_of (filter (fun n => negb (existsb (String.eqb n) ks)) ns)).
Proof.
  intros Hnd. unfold MyExclude.
  destruct ns as [|a [|b ns]].
  - reflexivity.
  - cbn [keys_of of_members map cond_dist TStr]. fold (TStr a).
    rewrite MyExclude_key. cbn [filter].
    now destruct (existsb _ ks).
  - set (l := a :: b :: ns) in *.
    change (keys_of l) with (TUnion (map TStr l)). cbn [cond_dist].
    rewrite (mapM_pointwise _ TStr
               (fun n => if existsb (String.eqb n) ks then TNever else TStr n))
      by (intros; apply MyExclude_key).
    cbn [bind]. f_equal. unfold keys_of.
    rewrite <- mkUnion_strings by now apply NoDup_filter.
    apply mkUnion_flat. rewrite flat_strings.
    clear. induction l as [|n l IH]; [reflexivity|].
    cbn [map flat_map filter]. rewrite IH.
    now destruct (existsb _ ks).
Qed.

(** ** Mapped types over a record *)

Lemma add_key_fresh n k acc :
  ~ In n (map fst acc) -> add_key n k acc = acc ++ [(n, k)].
Proof.
  induction acc as [|[m k'] acc IH]; simpl; intros H; [reflexivity|].
  destruct (String.eqb_spec n m) as [->|Hne].
  - exfalso. apply H. now left.
  - rewrite IH; [reflexivity|]. intros Hin. apply H. now right.
Qed.

Lemma collect_keys_names ns acc :
  NoDup (map fst acc ++ ns) ->
  collect_keys (map TStr ns) acc
  = Ok (acc ++ map (fun n => (n, TStr n)) ns).
Proof.
  revert acc. induction ns as [|n ns IH]; intros acc H; simpl.
  - now rewrite app_nil_r.
  - rewrite add_key_fresh.
    + rewrite IH.
      * now rewrite <- app_assoc.
      * rewrite map_app. simpl. rewrite <- app_assoc. exact H.
    + apply NoDup_remove_2 in H. intros Hin. apply H.
      apply in_or_app. now left.
Qed.

Lemma lookup_self ps p :
  NoDup (map name ps) -> In p ps -> lookup (name p) ps = Some p.
Proof.
  unfold lookup. induction ps as [|q ps IH]; intros Hnd Hin; [contradiction|].
  simpl. inversion Hnd as [|? ? Hq Hps]; subst.
  destruct Hin as [->|Hin].
  - now rewrite String.eqb_refl.
  - destruct (String.eqb_spec (name q) (name p)) as [E|_].
    + exfalso. apply Hq. rewrite E. now apply in_map.
    + now apply IH.
Qed.

Lemma index_field ps p :
  NoDup (map name ps) -> In p ps ->
  index (TRecord ps) (TStr (name p)) = Ok (valueType p).
Proof.
  intros Hnd Hin. simpl. now rewrite lookup_self.
Qed.

Lemma keyof_record ps :
  NoDup (map name ps) ->
  keyof (TRecord ps) = Ok (of_members (key_types ps)).
Proof.
  intros H. cbn. f_equal. unfold key_types.
  rewrite <- (map_map name TStr). now apply mkUnion_strings.
Qed.

Lemma names_filter (f : string -> bool) (ps : list (attr ty)) :
  map name (filter (fun p => f (name p)) ps) = filter f (map name ps).
Proof.
  induction ps as [|p ps IH]; simpl; [reflexivity|].
  destruct (f (name p)); simpl; now rewrite IH.
Qed.

Lemma In_forallb (qs ps : list (attr ty)) :
  (forall q, In q qs -> In q ps) ->
  forallb (fun k => existsb (String.eqb k) (map name ps)) (map name qs) = true.
Proof.
  intros H. apply incl_forallb. intros k Hk.
  apply in_map_iff in Hk as [q [<- Hq]]. apply in_map. auto.
Qed.

(** A mapped type over distinct keys is a map over them. *)
Lemma mapped_members_pointwise ro opt mods qs (tmpl : ty -> result ty)
    (h : attr ty -> attr ty) :
  NoDup (map name qs) ->
  (forall q, In q qs ->
     mapped_attr ro opt mods tmpl (name q, TStr (name q)) = Ok (h q)) ->
  mapped_members ro opt mods (key_types qs) tmpl = Ok (TRecord (map h qs)).
Proof.
  intros Hnd Hq. unfold mapped_members, key_types.
  replace (map (fun p => TStr (name p)) qs) with (map TStr (map name qs))
    by now rewrite map_map.
  rewrite collect_keys_names by exact Hnd.
  cbn [bind app]. rewrite map_map.
  rewrite (mapM_pointwise _ _ h) by exact Hq. reflexivity.
Qed.

(** A homomorphic mapped type over the fields of a record, for any
    template that succeeds on every key: the [readonly] flag follows the
    modifier, the [optional] flag is inherited. *)
Lemma mapped_members_fields ro ps (tmpl : ty -> result ty) (g : attr ty -> ty) :
  NoDup (map name ps) ->
  (forall p, In p ps -> tmpl (TStr (name p)) = Ok (g p)) ->
  (forall p, In p ps -> optional p = true -> add_optional (g p) = g p) ->
  mapped_members ro Keep ps (key_types ps) tmpl
  = Ok (TRecord (map (fun p => Attr (name p) (g p)
                                 (modified ro (readonly p)) (optional p)) ps)).
Proof.
  intros Hnd Htmpl Hopt. apply mapped_members_pointwise; [exact Hnd|].
  intros p Hp. unfold mapped_attr. cbn [fst snd].
  rewrite lookup_self by assumption.
  rewrite Htmpl by assumption. cbn [bind modified].
  f_equal. specialize (Hopt p Hp).
  destruct (optional p); [now rewrite Hopt|reflexivity].
Qed.

(** With the template [T[P]] the value types are kept as well. *)
Lemma mapped_members_record ro ps :
  well_formed ps ->
  mapped_members ro Keep ps (key_types ps) (index (TRecord ps))
  = Ok (TRecord (map (fun p => with_readonly (modified ro (readonly p)) p) ps)).
Proof.
  intros [Hnd Hopt].
  apply (mapped_members_fields ro ps _ valueType); [exact Hnd| |].
  - intros p Hp. now apply index_field.
  - rewrite Forall_forall in Hopt. exact Hopt.
Qed.

(** A mapped type over a type parameter bounded by [keyof T] inherits
    the modifiers of the fields it selects. *)
Lemma mapped_in_selected ro ps qs :
  well_formed ps -> (forall q, In q qs -> In q ps) -> NoDup (map name qs) ->
  mapped_in ro Keep (Some (TRecord ps)) (keys_of (map name qs))
    (fun P => index (TRecord ps) P)
  = Ok (TRecord (map (fun q => with_readonly (modified ro (readonly q)) q) qs)).
Proof.
  intros [Hnd Hopt] Hsub Hndq.
  unfold mapped_in, keys_of. rewrite direct_members_strings.
  destruct qs as [|q qs]; [reflexivity|].
  cbn [map attributes own_attributes bind].
  change (TStr (name q) :: map TStr (map name qs))
    with (map TStr (map name (q :: qs))).
  rewrite (map_map name TStr). fold (key_types (q :: qs)).
  match goal with
  | |- _ = Ok (TRecord (?x :: map ?h qs)) =>
      change (x :: map h qs) with (map h (q :: qs))
  end.
  apply mapped_members_pointwise; [exact Hndq|].
  intros p Hp. unfold mapped_attr. cbn [fst snd].
  rewrite lookup_self by auto. rewrite index_field by auto.
  cbn [bind modified]. unfold with_readonly. f_equal.
  rewrite Forall_forall in Hopt. specialize (Hopt p (Hsub p Hp)).
  destruct (optional p); [now rewrite Hopt|reflexivity].
Qed.

(** ** The readonly toggles *)

Lemma well_formed_with_readonly b ps :
  well_formed ps -> well_formed (map (with_readonly b) ps).
Proof.
  intros [Hnd Hopt]. split.
  - rewrite map_map. simpl. exact Hnd.
  - apply Forall_map. simpl. exact Hopt.
Qed.

Lemma with_readonly_twice a b ps :
  map (with_readonly a) (map (with_readonly b) ps) = map (with_readonly a) ps.
Proof. rewrite map_map. reflexivity. Qed.

Lemma with_readonly_same ps :
  map (fun p => with_readonly (modified Keep (readonly p)) p) ps = ps.
Proof.
  induction ps as [|[n v r o] ps IH]; [reflexivity|].
  cbn [map]. rewrite IH. reflexivity.
Qed.

(** [MyReadonly] sets the flag on every field and changes nothing else. *)
Lemma MyReadonly_record ps :
  well_formed ps ->
  MyReadonly (TRecord ps) = Ok (TRecord (map (with_readonly true) ps)).
Proof.
  intros H. unfold MyReadonly. cbn [mapped_keyof mapped_keyof_one attributes own_attributes bind].
  exact (mapped_members_record Add ps H).
Qed.

(** [MyMutable] clears the flag on every field and changes nothing else. *)
Lemma MyMutable_record ps :
  well_formed ps ->
  MyMutable (TRecord ps) = Ok (TRecord (map (with_readonly false) ps)).
Proof.
  intros H. unfold MyMutable. cbn [mapped_keyof mapped_keyof_one attributes own_attributes bind].
  exact (mapped_members_record Remove ps H).
Qed.

(** [Debug] re-exposes the fields of a record unchanged. *)
Lemma Debug_record ps : well_formed ps -> Debug (TRecord ps) = Ok (TRecord ps).
Proof.
  intros H. unfold Debug.
  cbn [mapped_keyof mapped_keyof_one attributes own_attributes bind].
  rewrite <- (with_readonly_same ps) at 3.
  exact (mapped_members_record Keep ps H).
Qed.

Lemma well_formedb_sound ps : well_formedb ps = true -> well_formed ps.
Proof.
  unfold well_formedb. intros H. apply andb_true_iff in H as [Hnd Hopt].
  split; [now apply distinct_names_NoDup|].
  apply Forall_forall. intros p Hp Ho.
  rewrite forallb_forall in Hopt. specialize (Hopt p Hp).
  rewrite Ho in Hopt. cbn [implb] in Hopt. unfold add_optional.
  destruct (maybe_undefined (valueType p)); [reflexivity|].
  destruct (valueType p); try discriminate; reflexivity.
Qed.

(** C10.  The full toggles are idempotent and the later one wins: on
    every well-formed record, [MyReadonly] after [MyReadonly] or after
    [MyMutable] gives what [MyReadonly] gives, and [MyMutable] after
    [MyMutable] or after [MyReadonly] gives what [MyMutable] gives; the
    results are equal for [Equal], which compares the [optional] and
    [readonly] modifiers. *)
Theorem readonly_toggles_idempotent_overriding (ps : list (attr ty)) :
  well_formed ps ->
  equal_results (R <- MyReadonly (TRecord ps) ;; MyReadonly R)
                (MyReadonly (TRecord ps))
  /\ equal_results (R <- MyMutable (TRecord ps) ;; MyMutable R)
                   (MyMutable (TRecord ps))
  /\ equal_results (R <- MyReadonly (TRecord ps) ;; MyMutable R)
                   (MyMutable (TRecord ps))
  /\ equal_results (R <- MyMutable (TRecord ps) ;; MyReadonly R)
                   (MyReadonly (TRecord ps)).
Proof.
  intros H.
  rewrite (MyReadonly_record ps H), (MyMutable_record ps H). cbn [bind].
  repeat split; apply equal_results_same.
  - rewrite MyReadonly_record by now apply well_formed_with_readonly.
    now rewrite with_readonly_twice.
  - rewrite MyMutable_record by now apply well_formed_with_readonly.
    now rewrite with_readonly_twice.
  - rewrite MyMutable_record by now apply well_formed_with_readonly.
    now rewrite with_readonly_twice.
  - rewrite MyReadonly_record by now apply well_formed_with_readonly.
    now rewrite with_readonly_twice.
Qed.

Lemma readonly_toggles_witness :
  well_formedb sample_record = true
  /\ equal_results (R <- MyReadonly (TRecord sample_record) ;; MyReadonly R)
                   (MyReadonly (TRecord sample_record)).
Proof.
  split; [reflexivity|].
  apply (readonly_toggles_idempotent_overriding sample_record).
  apply well_formedb_sound. reflexivity.
Defined.

(** ** [MyPick], [MyOmit] and [SomeReadonly] *)

(** [MyPick] returns the selected fields as they are declared. *)
Lemma MyPick_selected ps qs :
  well_formed ps -> (forall q, In q qs -> In q ps) -> NoDup (map name qs) ->
  MyPick (TRecord ps) (keys_of (map name qs)) = Ok (TRecord qs).
Proof.
  intros Hwf Hsub Hndq. pose proof Hwf as [Hnd _]. unfold MyPick.
  rewrite keyof_record by assumption. cbn [bind].
  unfold key_types. rewrite <- (map_map name TStr). fold (keys_of (map name ps)).
  unfold constrain. rewrite extends_keys, (In_forallb qs ps) by assumption.
  cbn [bind]. rewrite (mapped_in_selected Keep) by assumption.
  now rewrite with_readonly_same.
Qed.

(** Selecting every key gives the record back, modifiers included: the
    first half of the round trip of C3. *)
Lemma MyPick_all_keys ps K :
  well_formed ps ->
  keyof (TRecord ps) = Ok K ->
  MyPick (TRecord ps) K = Ok (TRecord ps).
Proof.
  intros Hwf HK. pose proof Hwf as [Hnd _].
  rewrite keyof_record in HK by assumption. injection HK as <-.
  unfold key_types. rewrite <- (map_map name TStr).
  apply MyPick_selected; auto.
Qed.

(** What [MyOmit] of [src/3-Omit.ts] computes on a record: the fields
    not named by [K], each with its value type and without its
    modifiers. *)
Lemma MyOmit_record ps ks :
  well_formed ps -> incl ks (map name ps) ->
  MyOmit (TRecord ps) (keys_of ks)
  = Ok (TRecord (map bare (filter (fun p => negb (named ks p)) ps))).
Proof.
  intros [Hnd Hopt] Hincl. unfold MyOmit.
  rewrite keyof_record by assumption. cbn [bind].
  unfold key_types. rewrite <- (map_map name TStr). fold (keys_of (map name ps)).
  unfold constrain. rewrite extends_keys, incl_forallb by assumption.
  cbn [bind]. rewrite MyExclude_keys by assumption. cbn [bind].
  pose (f := fun n => negb (existsb (String.eqb n) ks)).
  change (filter _ (map name ps)) with (filter f (map name ps)).
  change (filter (fun p => negb (named ks p)) ps)
    with (filter (fun p => f (name p)) ps).
  rewrite <- (names_filter f ps).
  set (qs := filter (fun p => f (name p)) ps).
  assert (Hqs : forall q, In q qs -> In q ps)
    by (intros q Hq; subst qs; now apply filter_In in Hq).
  assert (Hndq : NoDup (map name qs)).
  { subst qs. rewrite (names_filter f ps). now apply NoDup_filter. }
  clearbody qs.
  unfold mapped_in, keys_of. rewrite direct_members_strings.
  destruct qs as [|q qs]; [reflexivity|].
  cbn [map bind].
  change (TStr (name q) :: map TStr (map name qs))
    with (map TStr (map name (q :: qs))).
  rewrite (map_map name TStr). fold (key_types (q :: qs)).
  change (bare q :: map bare qs) with (map bare (q :: qs)).
  apply mapped_members_pointwise; [exact Hndq|].
  intros p Hp. unfold mapped_attr. cbn [fst snd lookup find modified].
  rewrite index_field by auto. reflexivity.
Qed.

(** [Pick<T, Exclude<keyof T, K>>] on a record: the fields not named by
    [K], as they are declared. *)
Lemma PickExclude_record ps ks :
  well_formed ps -> incl ks (map name ps) ->
  PickExclude (TRecord ps) (keys_of ks)
  = Ok (TRecord (filter (fun p => negb (named ks p)) ps)).
Proof.
  intros Hwf Hincl. pose proof Hwf as [Hnd _]. unfold PickExclude.
  rewrite keyof_record by assumption. cbn [bind].
  unfold key_types. rewrite <- (map_map name TStr). fold (keys_of (map name ps)).
  unfold constrain. rewrite extends_keys, incl_forallb by assumption.
  cbn [bind]. unfold Exclude. rewrite MyExclude_keys by assumption. cbn [bind].
  pose (f := fun n => negb (existsb (String.eqb n) ks)).
  change (filter _ (map name ps)) with (filter f (map name ps)).
  change (filter (fun p => negb (named ks p)) ps)
    with (filter (fun p => f (name p)) ps).
  rewrite <- (names_filter f ps).
  apply MyPick_selected; [exact Hwf| |].
  - intros q Hq. now apply filter_In in Hq.
  - rewrite (names_filter f ps). now apply NoDup_filter.
Qed.

Lemma bare_same p : readonly p = false -> optional p = false -> bare p = p.
Proof. destruct p as [n v r o]. simpl. intros -> ->. reflexivity. Qed.

(** Stripping the modifiers is seen by [Equal] as soon as one field had
    one. *)
Lemma Equal_bare qs :
  NoDup (map name qs) ->
  Equal (TRecord (map bare qs)) (TRecord qs)
  = Ok (TBool (forallb (fun q => negb (readonly q) && negb (optional q)) qs)).
Proof.
  intros Hnd. rewrite Equal_identical. do 2 f_equal.
  destruct (forallb _ qs) eqn:Hall.
  - rewrite forallb_forall in Hall.
    replace (map bare qs) with qs; [apply identical_refl|].
    rewrite <- (map_id qs) at 1. apply map_ext_in. intros q Hq.
    specialize (Hall q Hq). apply andb_true_iff in Hall as [Hr Ho].
    apply negb_true_iff in Hr, Ho. symmetry. now apply bare_same.
  - apply not_true_is_false. intros Hid.
    assert (Hx : exists q, In q qs /\ negb (readonly q) && negb (optional q) = false).
    { clear - Hall. induction qs as [|q qs IH]; [discriminate|].
      simpl in Hall. apply andb_false_iff in Hall as [H|H].
      - exists q. split; [now left|exact H].
      - destruct (IH H) as [q' [Hin Hq']]. exists q'. split; [now right|exact Hq']. }
    destruct Hx as [q [Hq Hmod]].
    cbn [identical] in Hid. apply andb_true_iff in Hid as [_ Hid].
    rewrite forallb_forall in Hid. specialize (Hid q Hq).
    apply existsb_exists in Hid as [p [Hp Hsame]].
    apply andb_true_iff in Hsame as [Hsame _].
    apply in_map_iff in Hp as [q' [<- Hq']].
    assert (q' = q).
    { apply same_decl_name in Hsame. cbn [bare name] in Hsame.
      pose proof (lookup_self qs q Hnd Hq) as E1.
      pose proof (lookup_self qs q' Hnd Hq') as E2.
      rewrite Hsame in E2. congruence. }
    subst q'. unfold same_decl in Hsame. cbn [bare readonly optional] in Hsame.
    rewrite String.eqb_refl in Hsame. cbn [andb] in Hsame.
    destruct (readonly q), (optional q); discriminate.
Qed.

(** [MyOmit] of [src/3-Omit.ts] against [Pick<T, Exclude<keyof T, K>>]:
    [Equal] holds between them when no remaining field is [readonly] or
    optional, and only then. *)
Lemma MyOmit_against_PickExclude ps ks :
  well_formed ps -> incl ks (map name ps) ->
  exists x y,
    MyOmit (TRecord ps) (keys_of ks) = Ok x
    /\ PickExclude (TRecord ps) (keys_of ks) = Ok y
    /\ Equal x y
       = Ok (TBool (forallb (fun q => negb (readonly q) && negb (optional q))
                      (filter (fun p => negb (named ks p)) ps))).
Proof.
  intros Hwf Hincl. pose proof Hwf as [Hnd _].
  eexists. eexists. split; [now apply MyOmit_record|].
  split; [now apply PickExclude_record|].
  apply Equal_bare.
  pose (f := fun n => negb (existsb (String.eqb n) ks)).
  change (filter (fun p => negb (named ks p)) ps)
    with (filter (fun p => f (name p)) ps).
  rewrite (names_filter f ps). now apply NoDup_filter.
Qed.

(** [SomeReadonly] on a record: the selected fields marked [readonly],
    intersected with the other fields stripped of their modifiers. *)
Lemma SomeReadonly_record ps qs :
  well_formed ps -> (forall q, In q qs -> In q ps) -> NoDup (map name qs) ->
  SomeReadonly (TRecord ps) (keys_of (map name qs))
  = Ok (intersect
          [TRecord (map (with_readonly true) qs);
           TRecord (map bare
                      (filter (fun p => negb (named (map name qs) p)) ps))]).
Proof.
  intros Hwf Hsub Hndq. pose proof Hwf as [Hnd _]. unfold SomeReadonly.
  rewrite keyof_record by assumption. cbn [bind].
  unfold key_types. rewrite <- (map_map name TStr). fold (keys_of (map name ps)).
  unfold constrain. rewrite extends_keys, (In_forallb qs ps) by assumption.
  cbn [bind]. rewrite (mapped_in_selected Add) by assumption.
  cbn [bind modified].
  assert (Hincl : incl (map name qs) (map name ps)).
  { intros k Hk. apply in_map_iff in Hk as [q [<- Hq]]. apply in_map. auto. }
  pose proof (MyOmit_record ps (map name qs) Hwf Hincl) as E.
  unfold MyOmit in E. rewrite keyof_record in E by assumption.
  cbn [bind] in E.
  unfold key_types in E. rewrite <- (map_map name TStr) in E.
  fold (keys_of (map name ps)) in E.
  unfold constrain in E.
  rewrite extends_keys, (In_forallb qs ps) in E by assumption.
  cbn [bind] in E. unfold Exclude.
  destruct (MyExclude (keys_of (map name ps)) (keys_of (map name qs)))
    as [ks'|e]; [|discriminate].
  cbn [bind] in E |- *. rewrite E. reflexivity.
Qed.

(** C2.  At [T = Todo] and [K = "completed"], [MyOmit<T, K>] of
    [src/3-Omit.ts] and [Pick<T, Exclude<keyof T, K>>] disagree: the
    mapped type of [MyOmit] has no modifiers type, so [title] is no
    longer [readonly] and [description] no longer optional. *)
Theorem MyOmit_drops_modifiers :
  MyOmit Todo (TStr "completed")
  = Ok (TRecord [field "title" TString;
                 field "description" (TUnion [TString; TUndefined])])
  /\ PickExclude Todo (TStr "completed")
     = Ok (TRecord [ro_field "title" TString; opt_field "description" TString])
  /\ Equal (TRecord [field "title" TString;
                     field "description" (TUnion [TString; TUndefined])])
           (TRecord [ro_field "title" TString; opt_field "description" TString])
     = Ok TFalse.
Proof. repeat split; reflexivity. Qed.

(** C3.  Selecting every key of [Todo] gives [Todo] back, but omitting
    no key does not: [MyOmit<Todo, never>] has lost the [readonly] of
    [title] and the [?] of [description]. *)
Theorem MyOmit_nothing_is_not_identity :
  MyPick Todo (TUnion [TStr "title"; TStr "description"; TStr "completed"])
  = Ok Todo
  /\ MyOmit Todo TNever
     = Ok (TRecord [field "title" TString;
                    field "description" (TUnion [TString; TUndefined]);
                    field "completed" TBoolean])
  /\ Equal (TRecord [field "title" TString;
                     field "description" (TUnion [TString; TUndefined]);
                     field "completed" TBoolean])
           Todo
     = Ok TFalse.
Proof. repeat split; reflexivity. Qed.

(** C5.  [SomeReadonly<Todo, "completed">] marks [completed], and the
    fields it was not asked to touch come out changed: [title] is no
    longer [readonly], [description] no longer optional. *)
Theorem SomeReadonly_changes_other_fields :
  SomeReadonly Todo (TStr "completed")
  = Ok (TInter
          [TRecord [ro_field "completed" TBoolean];
           TRecord [field "title" TString;
                    field "description" (TUnion [TString; TUndefined])]])
  /\ (R <- SomeReadonly Todo (TStr "completed") ;;
      ps <- attributes R ;;
      Ok (lookup "completed" ps, lookup "title" ps, lookup "description" ps))
     = Ok (Some (ro_field "completed" TBoolean),
           Some (field "title" TString),
           Some (field "description" (TUnion [TString; TUndefined])))
  /\ (ps <- attributes Todo ;;
      Ok (lookup "title" ps, lookup "description" ps))
     = Ok (Some (ro_field "title" TString),
           Some (opt_field "description" TString)).
Proof. repeat split; reflexivity. Qed.

(** ** [IsAny] and [NotAny] *)

Lemma atoms_kept (f : ty -> bool) xs :
  (forall x, atom x = true -> f x = true) ->
  forallb atom xs = true -> filter f xs = xs.
Proof.
  intros Hf H. apply filter_all. intros x Hx.
  rewrite forallb_forall in H. auto.
Qed.

Lemma atoms_none (f : ty -> bool) xs :
  (forall x, atom x = true -> f x = false) ->
  forallb atom xs = true -> existsb f xs = false.
Proof.
  intros Hf. induction xs as [|x xs IH]; simpl; [reflexivity|].
  intros H. apply andb_true_iff in H as [Hx Hxs].
  now rewrite (Hf x Hx), IH.
Qed.

Lemma flat_atoms_inter ts : forallb atom ts = true -> flat_map inter_members ts = ts.
Proof.
  induction ts as [|t ts IH]; simpl; [reflexivity|].
  intros H. apply andb_true_iff in H as [Ht Hts].
  rewrite IH by assumption. destruct t; try discriminate; reflexivity.
Qed.

(** [1 & ...] over atoms is [never], [1], or an intersection that starts
    with [1]. *)
Lemma inter_atoms_one xs :
  forallb atom xs = true ->
  is_never (inter_atoms (TNum 1 :: xs))
  || branded_one (inter_atoms (TNum 1 :: xs)) = true.
Proof.
  intros H. unfold inter_atoms, TNum.
  cbn [existsb is_never is_any orb filter is_unknown negb].
  rewrite (atoms_none is_never), (atoms_none is_any);
    try assumption; try (intros x; destruct x; (discriminate || reflexivity)).
  rewrite (atoms_kept _ xs);
    try assumption; try (intros x; destruct x; (discriminate || reflexivity)).
  cbn [dedupe].
  set (ys := filter (fun u => negb (identical (TLit (LNum 1)) u)) (dedupe xs)).
  destruct (has_conflict (TLit (LNum 1) :: ys)); [reflexivity|].
  cbn [filter absorbed negb].
  destruct (filter _ ys); reflexivity.
Qed.

Lemma assignable_zero_branded n y :
  branded_one y = true -> assignable (S (S n)) (TNum 0) y = Ok false.
Proof.
  intros H. rewrite assignable_S.
  destruct y as [| | | |  |[|z|]| |[|y ys]| | | | | |]; try discriminate.
  - destruct z as [|[]|]; try discriminate. reflexivity.
  - destruct y as [| | | |  |[|z|]| | | | | | | |]; try discriminate.
    destruct z as [|[]|]; try discriminate. reflexivity.
Qed.

Lemma extends_zero_united rs :
  Forall (fun r => is_never r || branded_one r = true) rs ->
  is_any (mkUnion rs) || is_unknown (mkUnion rs) = false
  /\ extends (TNum 0) (mkUnion rs) = Ok false.
Proof.
  intros H. unfold mkUnion.
  assert (Hfl : Forall (fun r => branded_one r = true)
                  (flat_map union_members rs)).
  { induction H as [|r rs Hr _ IH]; simpl; [constructor|].
    apply Forall_app. split; [|exact IH].
    destruct r; simpl in Hr; try discriminate;
      try (constructor; [exact Hr|constructor]).
    constructor. }
  set (fl := flat_map union_members rs) in *.
  assert (Hany : existsb is_any fl = false).
  { clearbody fl. induction Hfl as [|r l Hr _ IH]; simpl; [reflexivity|].
    rewrite IH. destruct r; (discriminate || reflexivity). }
  assert (Hunk : existsb is_unknown fl = false).
  { clear Hany. clearbody fl. induction Hfl as [|r l Hr _ IH]; simpl; [reflexivity|].
    rewrite IH. destruct r; (discriminate || reflexivity). }
  rewrite Hany, Hunk.
  set (l := filter _ (dedupe fl)).
  assert (Hl : Forall (fun r => branded_one r = true) l).
  { apply Forall_forall. intros x Hx. subst l.
    apply filter_In in Hx as [Hx _]. apply dedupe_In in Hx.
    rewrite Forall_forall in Hfl. auto. }
  clearbody l. clear - Hl.
  destruct l as [|a [|b l]]; cbn [of_members].
  - split; reflexivity.
  - inversion Hl as [|? ? Ha _]; subst. split.
    + destruct a; (discriminate || reflexivity).
    + unfold extends. pose proof (size_pos a).
      destruct a as [| | | |  |[|z|]| |[|y ys]| | | | | |]; try discriminate.
      * destruct z as [|[]|]; try discriminate. reflexivity.
      * cbn [size TNum]. apply assignable_zero_branded. exact Ha.
  - split; [reflexivity|]. unfold extends.
    pose proof (size_pos a). pose proof (size_pos b).
    assert (Hsz : 4 <= size (TNum 0) + size (TUnion (a :: b :: l)))
      by (cbn; lia).
    destruct (size (TNum 0) + size (TUnion (a :: b :: l)))
      as [|[|[|n]]]; try lia.
    rewrite assignable_S. cbv iota beta delta [TNum].
    rewrite (anyM_pointwise _ (fun _ => false)).
    + f_equal. clear. induction (a :: b :: l); simpl; auto.
    + intros y Hy. rewrite Forall_forall in Hl.
      apply (assignable_zero_branded n y). auto.
Qed.

Lemma choices_one T :
  choices [TNum 1; T]
  = map (fun m => TNum 1 :: inter_members m) (union_members T).
Proof.
  cbn [choices union_members TNum flat_map]. rewrite app_nil_r.
  induction (union_members T) as [|m ms IH]; [reflexivity|].
  cbn [flat_map map app inter_members]. rewrite app_nil_r.
  f_equal. exact IH.
Qed.

Lemma IsAny_flat T : flat_atoms T = true -> IsAny T = Ok TFalse.
Proof.
  intros H. unfold IsAny, intersect. rewrite choices_one, map_map.
  destruct (extends_zero_united
              (map (fun m => inter_atoms (TNum 1 :: inter_members m))
                   (union_members T))) as [Htop Hext].
  { apply Forall_map. apply Forall_forall. intros m Hm.
    apply inter_atoms_one. unfold flat_atoms in H.
    rewrite forallb_forall in H. auto. }
  unfold cond. cbn [TNum]. fold (TNum 0). fold (TNum 1).
  rewrite Htop. cbn [is_any TNum]. rewrite Hext. reflexivity.
Qed.

Lemma canonical_flat_atoms T :
  canonical T = true -> is_any T = false -> is_unknown T = false ->
  flat_atoms T = true.
Proof.
  intros Hc Ha Hu. unfold flat_atoms.
  destruct T; try discriminate; try reflexivity.
  - (* union *)
    destruct (canonical_union_inv _ Hc) as [_ [Hm _]]. clear Hc.
    rename Hm into Hc.
    cbn [union_members]. rewrite flat_constituents by assumption.
    apply forallb_forall. intros m Hm.
    rewrite forallb_forall in Hc. specialize (Hc m Hm).
    unfold constituent in Hc. apply orb_true_iff in Hc as [Hc|Hc].
    + destruct m; try discriminate; reflexivity.
    + destruct m; try discriminate.
      cbn [inter_members]. now rewrite flat_atoms_inter.
  - (* intersection *)
    cbn [canonical] in Hc. cbn [union_members forallb inter_members].
    rewrite flat_atoms_inter by assumption. now rewrite Hc.
Qed.

(** C7.  [IsAny] answers [true] on [any] and [false] on every other
    canonical type, and [NotAny] answers the opposite; in particular
    [IsAny<any>] is [true], [IsAny<number>] is [false] and
    [NotAny<number>] is [true]. *)
Theorem IsAny_exact (T : ty) :
  canonical T = true ->
  IsAny T = Ok (TBool (is_any T))
  /\ NotAny T = Ok (TBool (negb (is_any T)))
  /\ IsAny TAny = Ok TTrue
  /\ IsAny TNumber = Ok TFalse
  /\ NotAny TNumber = Ok TTrue.
Proof.
  intros Hc.
  assert (H : IsAny T = Ok (TBool (is_any T))).
  { destruct (is_any T) eqn:Ha.
    - destruct T; try discriminate. reflexivity.
    - destruct (is_unknown T) eqn:Hu.
      + destruct T; try discriminate. reflexivity.
      + apply IsAny_flat. now apply canonical_flat_atoms. }
  split; [exact H|]. split; [|repeat split; reflexivity].
  unfold NotAny. rewrite H. destruct (is_any T); reflexivity.
Qed.

Lemma IsAny_exact_witness :
  canonical (TUnion [TString; TRecord [field "a" TNumber]]) = true
  /\ IsAny (TUnion [TString; TRecord [field "a" TNumber]]) = Ok TFalse.
Proof.
  split; [reflexivity|].
  apply (IsAny_exact (TUnion [TString; TRecord [field "a" TNumber]])).
  reflexivity.
Defined.

(** ** [Expect] *)







(** ** [DeepReadonly] *)

Lemma extends_object_plain v : plain v = true -> extends v TObject = Ok true.
Proof.
  intros H. unfold extends. pose proof (size_pos v).
  destruct (size v + size TObject) as [|n] eqn:E; [lia|].
  destruct v; try discriminate; try reflexivity.
  destruct attrs; reflexivity.
Qed.

Lemma member_extends_object n m :
  primitive_like m || is_object_type m = true ->
  assignable (S n) m TObject = Ok (is_object_type m).
Proof.
  destruct m; try discriminate; try reflexivity.
  destruct attrs; reflexivity.
Qed.

Lemma extends_object_leaf v : leaf v = true -> extends v TObject = Ok false.
Proof.
  intros H. unfold extends.
  destruct v; try discriminate; try reflexivity.
  cbn [leaf] in H. apply andb_true_iff in H as [Hall Hsome].
  replace (size (TUnion members) + size TObject)
    with (S (size (TUnion members))) by (cbn; lia).
  rewrite assignable_S. cbv iota beta.
  pose proof (size_pos (TUnion members)).
  destruct (size (TUnion members)) as [|n]; [lia|].
  rewrite (allM_pointwise _ is_object_type).
  - f_equal. apply not_true_is_false. intros Hobj.
    rewrite forallb_forall in Hobj.
    apply existsb_exists in Hsome as [m [Hm Hp]].
    specialize (Hobj m Hm). destruct m; discriminate.
  - intros m Hm. rewrite forallb_forall in Hall.
    apply member_extends_object. auto.
Qed.

Lemma leaf_untouched v : leaf v = true -> deep_readonly_spec v = v.
Proof. destruct v; try discriminate; reflexivity. Qed.

(** The value of a field or of an array element under [DeepReadonly]. *)
Lemma DeepReadonly_value d v :
  leaf v || plain v = true ->
  (plain v = true -> DeepReadonly_at d v = Ok (deep_readonly_spec v)) ->
  cond v TObject (DeepReadonly_at d v) (Ok v) = Ok (deep_readonly_spec v).
Proof.
  intros Hv IH. unfold cond. cbn [is_any is_unknown orb].
  apply orb_true_iff in Hv as [Hl|Hp].
  - rewrite extends_object_leaf, leaf_untouched by assumption.
    destruct v; try discriminate; reflexivity.
  - rewrite extends_object_plain by assumption. cbn [bind].
    rewrite IH by assumption.
    destruct v; try discriminate; reflexivity.
Qed.

Lemma DeepReadonly_at_plain T :
  plain T = true ->
  forall d, size T <= d -> DeepReadonly_at d T = Ok (deep_readonly_spec T).
Proof.
  induction T using ty_nested_ind; try discriminate; intros Hp d Hd.
  - (* record *)
    pose proof (size_pos (TRecord ps)).
    destruct d as [|d]; [lia|].
    cbn [plain] in Hp. apply andb_true_iff in Hp as [Hnd Hfields].
    apply distinct_names_NoDup in Hnd.
    rewrite forallb_forall in Hfields. rewrite Forall_forall in H.
    cbn [DeepReadonly_at mapped_keyof mapped_keyof_one attributes
         own_attributes bind deep_readonly_spec].
    apply (mapped_members_fields Add ps _
             (fun p => deep_readonly_spec (valueType p))); [exact Hnd| |].
    + intros p Hin. rewrite index_field by assumption. cbn [bind].
      specialize (Hfields p Hin).
      apply andb_true_iff in Hfields as [Hv _].
      apply DeepReadonly_value; [exact Hv|].
      intros Hpl. apply H; [exact Hin|exact Hpl|].
      pose proof (size_field ps p Hin). lia.
    + intros p Hin Hopt. specialize (Hfields p Hin).
      apply andb_true_iff in Hfields as [_ Hu]. rewrite Hopt in Hu.
      cbn [implb] in Hu.
      assert (E : deep_readonly_spec (valueType p) = valueType p)
        by (destruct (valueType p); try discriminate; reflexivity).
      rewrite E. unfold add_optional. now rewrite Hu.
  - (* array *)
    destruct d as [|d]; [cbn in Hd; lia|].
    cbn [plain] in Hp.
    cbn [DeepReadonly_at mapped_keyof mapped_keyof_one index index_one
         TNumber bind deep_readonly_spec].
    rewrite DeepReadonly_value; [reflexivity|exact Hp|].
    intros Hpl. apply IHT; [exact Hpl|]. cbn [size] in Hd. lia.
  - (* function *)
    destruct d as [|d]; [cbn in Hd; lia|]. reflexivity.
Qed.

(** What [DeepReadonly] computes on records, arrays and functions nested
    in one another through required fields: it enters a value type when
    it is assignable to [object], and computes [deep_readonly_spec]. *)
Lemma DeepReadonly_on_plain_types (T v : ty) :
  plain T = true ->
  leaf v || plain v = true ->
  DeepReadonly T = Ok (deep_readonly_spec T)
  /\ extends v TObject = Ok (plain v)
  /\ cond v TObject (DeepReadonly v) (Ok v) = Ok (deep_readonly_spec v).
Proof.
  intros Hp Hv. split; [|split].
  - apply DeepReadonly_at_plain; [exact Hp|]. lia.
  - destruct (plain v) eqn:E.
    + now apply extends_object_plain.
    + rewrite orb_false_r in Hv. now apply extends_object_leaf.
  - apply DeepReadonly_value; [exact Hv|].
    intros Hpl. apply DeepReadonly_at_plain; [exact Hpl|]. lia.
Qed.

(** C4.  [DeepReadonly] does not do on every record what the claim and
    the notes of the code say.  A record nested under an optional field
    is not entered: [T[P]] is then [{ x: number } | undefined], which
    does not extend [object], so [x] stays mutable in
    [DeepReadonly<{ inner?: { x: number } }>], and [Equal] tells the
    result from the deep readonly record.  A function-typed value is not
    left as it is: the mapped type is applied to it and keeps no call
    signature, so [greet] becomes [{}].  Under required fields the
    nested records are entered, as on [DeepReadonlyUser], two levels
    deep. *)
Theorem DeepReadonly_misses_optional_nesting :
  DeepReadonly OptNested
  = Ok (TRecord [ro_opt_field "inner" (TRecord [field "x" TNumber])])
  /\ Equal (TRecord [ro_opt_field "inner" (TRecord [field "x" TNumber])])
           (TRecord [ro_opt_field "inner" (TRecord [ro_field "x" TNumber])])
     = Ok TFalse
  /\ DeepReadonly Greeter
     = Ok (TRecord [ro_field "id" TNumber; ro_field "greet" (TRecord [])])
  /\ Equal (TRecord [ro_field "id" TNumber; ro_field "greet" (TRecord [])])
           (TRecord [ro_field "id" TNumber;
                     ro_field "greet" (TFun 0 [] (TPrim PVoid))])
     = Ok TFalse
  /\ DeepReadonly DeepReadonlyUser
     = Ok (TRecord
             [ro_field "id" TNumber;
              ro_field "profile"
                (TRecord [ro_field "name" TString;
                          ro_field "settings"
                            (TRecord [ro_field "theme" TString])])]).
Proof. repeat split; reflexivity. Qed.

(** ** [TupleToObject] *)

Lemma filter_literals l ms :
  filter (fun u => negb (identical (TLit l) u)) (map TLit ms)
  = map TLit (filter (fun m => negb (lit_eqb l m)) ms).
Proof.
  induction ms as [|m ms IH]; [reflexivity|].
  change (filter (fun u => negb (identical (TLit l) u)) (map TLit (m :: ms)))
    with (if negb (lit_eqb l m)
          then TLit m :: filter (fun u => negb (identical (TLit l) u)) (map TLit ms)
          else filter (fun u => negb (identical (TLit l) u)) (map TLit ms)).
  rewrite IH. cbn [filter]. destruct (lit_eqb l m); reflexivity.
Qed.

Lemma dedupe_literals ls : dedupe (map TLit ls) = map TLit (uniq ls).
Proof.
  induction ls as [|l ls IH]; [reflexivity|].
  cbn [map dedupe uniq]. rewrite IH. f_equal. apply filter_literals.
Qed.

Lemma uniq_In l ls : In l (uniq ls) -> In l ls.
Proof.
  induction ls as [|a ls IH]; simpl; [auto|].
  intros [->|H]; [now left|]. apply filter_In in H as [H _]. auto.
Qed.


Lemma flat_literals ls : flat_map union_members (map TLit ls) = map TLit ls.
Proof.
  induction ls as [|a ls IH]; [reflexivity|].
  cbn [map flat_map]. rewrite IH. reflexivity.
Qed.

Lemma existsb_literals (f : ty -> bool) ls :
  (forall l, f (TLit l) = false) -> existsb f (map TLit ls) = false.
Proof. intros H. induction ls; simpl; [reflexivity|]. now rewrite H. Qed.

Lemma mkUnion_literals ls : mkUnion (map TLit ls) = of_members (map TLit (uniq ls)).
Proof.
  unfold mkUnion. rewrite flat_literals.
  rewrite !existsb_literals by reflexivity.
  rewrite dedupe_literals. rewrite filter_all; [reflexivity|].
  intros x Hx. apply in_map_iff in Hx as [l [<- _]].
  destruct l; cbn [subsumed_literal]; try reflexivity;
    now rewrite existsb_literals.
Qed.

Lemma direct_members_literals ls :
  direct_members (of_members (map TLit ls)) = map TLit ls.
Proof. destruct ls as [|a [|b ls]]; reflexivity. Qed.

(** A tuple satisfies the bound [readonly any[]]. *)
Lemma extends_readonly_array ro es :
  extends (TTuple ro es) (TArray true TAny) = Ok true.
Proof.
  unfold extends.
  assert (Hsz : 3 <= size (TTuple ro es) + size (TArray true TAny))
    by (cbn; lia).
  destruct (size (TTuple ro es) + size (TArray true TAny)) as [|[|f]]; try lia.
  rewrite assignable_S. cbn [related]. rewrite andb_false_r.
  rewrite (allM_pointwise _ (fun _ => true)).
  - f_equal. apply forallb_forall. reflexivity.
  - intros x _. reflexivity.
Qed.





Lemma to_int_proper z :
  Z.to_int z <> Decimal.Pos Decimal.Nil /\ Z.to_int z <> Decimal.Neg Decimal.Nil.
Proof.
  split; intros H; pose proof (f_equal Z.of_int H) as E;
    rewrite DecimalZ.of_to in E; cbn in E; subst z; cbn in H; discriminate.
Qed.

Lemma key_name_inj z z' : key_name z = key_name z' -> z = z'.
Proof.
  unfold key_name. intros H.
  apply DecimalZ.to_int_inj.
  apply (f_equal NilZero.int_of_string) in H.
  destruct (to_int_proper z), (to_int_proper z').
  rewrite !NilZero.isi in H by assumption. congruence.
Qed.

Lemma keys_apart_numbers zs : keys_apart (map LNum zs).
Proof.
  intros a b n Ha Hb.
  apply in_map_iff in Ha as [x [<- _]]. apply in_map_iff in Hb as [y [<- _]].
  cbn. intros Hx Hy. f_equal. apply key_name_inj. congruence.
Qed.

(** C9.  [TupleToObject<[1, "hello", true]>] has no field for [true]: a
    boolean literal is not a property name, and the mapped type skips
    it.  The result is not the [{ 1: 1; hello: "hello"; true: true }]
    announced next to the test [Mixed] of [src/5-Tuple2Object.ts]. *)
Theorem TupleToObject_skips_boolean :
  TupleToObject (TTuple false [TNum 1; TStr "hello"; TTrue])
  = Ok (TRecord [field "1" (TNum 1); field "hello" (TStr "hello")])
  /\ Equal (TRecord [field "1" (TNum 1); field "hello" (TStr "hello")])
           (TRecord [field "1" (TNum 1); field "hello" (TStr "hello");
                     field "true" TTrue])
     = Ok TFalse.
Proof. repeat split; reflexivity. Qed.

(** * Further properties *)

(** ** Keys outside the record *)

Lemma forallb_incl ks ns :
  forallb (fun k => existsb (String.eqb k) ns) ks = true -> incl ks ns.
Proof.
  intros H k Hk. rewrite forallb_forall in H. specialize (H k Hk).
  apply existsb_exists in H as [n [Hn E]].
  apply String.eqb_eq in E. now subst.
Qed.

Lemma foreign_key_found k ks ns :
  In k ks -> ~ In k ns ->
  forallb (fun k => existsb (String.eqb k) ns) ks = false.
Proof.
  intros Hk Hn. apply not_true_is_false. intros H.
  apply forallb_incl in H. auto.
Qed.

Lemma keyof_named ps :
  NoDup (map name ps) -> keyof (TRecord ps) = Ok (keys_of (map name ps)).
Proof.
  intros H. rewrite keyof_record by assumption.
  unfold key_types, keys_of. now rewrite map_map.
Qed.

(** X1.  The bound [K extends keyof T]: a key set that names a field the
    record does not declare is rejected by [MyPick], by [MyOmit], by
    [SomeReadonly] and by [Pick<T, Exclude<keyof T, K>>] alike. *)
Theorem foreign_key_rejected (ps : list (attr ty)) (ks : list string) (k : string) :
  NoDup (map name ps) ->
  In k ks ->
  ~ In k (map name ps) ->
  MyPick (TRecord ps) (keys_of ks) = Err StaticRejection
  /\ MyOmit (TRecord ps) (keys_of ks) = Err StaticRejection
  /\ SomeReadonly (TRecord ps) (keys_of ks) = Err StaticRejection
  /\ PickExclude (TRecord ps) (keys_of ks) = Err StaticRejection.
Proof.
  intros Hnd Hk Hn.
  unfold MyPick, MyOmit, SomeReadonly, PickExclude.
  rewrite keyof_named by assumption. cbn [bind]. unfold constrain.
  rewrite extends_keys, (foreign_key_found k) by assumption.
  cbn [bind]. auto.
Qed.

Lemma foreign_key_rejected_witness :
  distinct_names ["id"; "name"; "password"; "email"] = true
  /\ existsb (String.eqb "phone") ["id"; "name"; "password"; "email"] = false
  /\ MyPick MyUser (keys_of ["name"; "phone"]) = Err StaticRejection.
Proof.
  split; [reflexivity|]. split; [reflexivity|].
  apply (foreign_key_rejected
           [field "id" TNumber; field "name" TString;
            field "password" TString; field "email" TString]
           ["name"; "phone"] "phone").
  - apply distinct_names_NoDup. reflexivity.
  - simpl. auto.
  - simpl. intuition discriminate.
Defined.

(** ** What [MyPick] and [MyOmit] return, key by key *)

Lemma lookup_In n ps p : lookup n ps = Some p -> In p ps /\ name p = n.
Proof.
  unfold lookup. intros H. apply find_some in H as [Hin E].
  apply String.eqb_eq in E. auto.
Qed.

Lemma lookup_named n ps :
  In n (map name ps) -> exists p, lookup n ps = Some p.
Proof.
  unfold lookup. induction ps as [|q ps IH]; simpl; [contradiction|].
  intros [E|H].
  - exists q. now rewrite E, String.eqb_refl.
  - destruct (String.eqb (name q) n); [now exists q|auto].
Qed.

Lemma lookup_missing n ps : ~ In n (map name ps) -> lookup n ps = None.
Proof.
  unfold lookup. induction ps as [|q ps IH]; simpl; [reflexivity|].
  intros H. destruct (String.eqb_spec (name q) n) as [E|_].
  - exfalso. apply H. now left.
  - apply IH. intros Hin. apply H. now right.
Qed.

Lemma selected_names ks ps :
  incl ks (map name ps) -> map name (selected ks ps) = ks.
Proof.
  unfold selected. induction ks as [|k ks IH]; intros H; [reflexivity|].
  cbn [flat_map]. rewrite map_app, IH by (intros x Hx; apply H; now right).
  destruct (lookup_named k ps) as [p Hp]; [apply H; now left|].
  rewrite Hp. apply lookup_In in Hp as [_ <-]. reflexivity.
Qed.

Lemma selected_In ks ps q : In q (selected ks ps) -> In q ps.
Proof.
  unfold selected. intros H. apply in_flat_map in H as [k [_ H]].
  destruct (lookup k ps) as [p|] eqn:E; [|contradiction].
  destruct H as [<-|[]]. now apply lookup_In in E.
Qed.

Lemma lookup_selected n ks ps :
  NoDup (map name ps) -> incl ks (map name ps) -> NoDup ks ->
  lookup n (selected ks ps)
  = if existsb (String.eqb n) ks then lookup n ps else None.
Proof.
  intros Hnd Hincl Hks.
  destruct (existsb (String.eqb n) ks) eqn:E.
  - apply existsb_exists in E as [k [Hk E]]. apply String.eqb_eq in E. subst k.
    destruct (lookup_named n ps) as [p Hp]; [now apply Hincl|].
    rewrite Hp. pose proof (lookup_In _ _ _ Hp) as [Hin <-].
    apply lookup_self.
    + now rewrite selected_names.
    + unfold selected. apply in_flat_map. exists (name p). split; [exact Hk|].
      rewrite Hp. now left.
  - apply lookup_missing. rewrite selected_names by assumption.
    intros Hin. apply existsb_eqb_In in Hin. congruence.
Qed.

Lemma index_named ps n :
  index (TRecord ps) (TStr n)
  = match lookup n ps with
    | Some p => Ok (valueType p)
    | None => Err StaticRejection
    end.
Proof. reflexivity. Qed.

(** X2.  [MyPick] on a record returns the fields named by [K] as they
    are declared; the keys of the result are [K]; indexing the result by
    a key of [K] gives what [T] gives, and by any other name is
    rejected. *)
Theorem MyPick_selected_fields (ps : list (attr ty)) (ks : list string) (n : string) :
  well_formed ps ->
  NoDup ks ->
  incl ks (map name ps) ->
  MyPick (TRecord ps) (keys_of ks) = Ok (TRecord (selected ks ps))
  /\ (R <- MyPick (TRecord ps) (keys_of ks) ;; keyof R) = Ok (keys_of ks)
  /\ (R <- MyPick (TRecord ps) (keys_of ks) ;; index R (TStr n))
     = (if existsb (String.eqb n) ks then index (TRecord ps) (TStr n)
        else Err StaticRejection).
Proof.
  intros Hwf Hks Hincl. pose proof Hwf as [Hnd _].
  assert (E : MyPick (TRecord ps) (keys_of ks) = Ok (TRecord (selected ks ps))).
  { rewrite <- (selected_names ks ps Hincl) at 1.
    apply MyPick_selected; [exact Hwf|apply selected_In|].
    now rewrite selected_names. }
  rewrite E. cbn [bind]. split; [reflexivity|]. split.
  - rewrite keyof_named by now rewrite selected_names.
    now rewrite selected_names.
  - rewrite !index_named, lookup_selected by assumption.
    now destruct (existsb (String.eqb n) ks).
Qed.

Lemma MyPick_selected_fields_witness :
  well_formedb sample_record = true
  /\ distinct_names ["tags"; "id"] = true
  /\ forallb (fun k => existsb (String.eqb k) (map name sample_record))
       ["tags"; "id"] = true
  /\ MyPick (TRecord sample_record) (keys_of ["tags"; "id"])
     = Ok (TRecord [field "tags" (TArray false TString); ro_field "id" TNumber]).
Proof.
  split; [reflexivity|]. split; [reflexivity|]. split; [reflexivity|].
  apply (MyPick_selected_fields sample_record ["tags"; "id"] "id").
  - apply well_formedb_sound. reflexivity.
  - apply distinct_names_NoDup. reflexivity.
  - apply forallb_incl. reflexivity.
Defined.

Lemma lookup_filter (f : string -> bool) n ps :
  lookup n (filter (fun p => f (name p)) ps)
  = if f n then lookup n ps else None.
Proof.
  unfold lookup. induction ps as [|q ps IH]; simpl.
  - now destruct (f n).
  - destruct (f (name q)) eqn:Hq; simpl.
    + destruct (String.eqb_spec (name q) n) as [<-|_]; [now rewrite Hq|exact IH].
    + destruct (String.eqb_spec (name q) n) as [<-|_]; [|exact IH].
      rewrite Hq in IH. now rewrite Hq.
Qed.

Lemma lookup_bare n ps :
  lookup n (map bare ps) = option_map bare (lookup n ps).
Proof.
  unfold lookup. induction ps as [|q ps IH]; simpl; [reflexivity|].
  destruct (String.eqb (name q) n); [reflexivity|exact IH].
Qed.

Lemma names_bare ps : map name (map bare ps) = map name ps.
Proof. rewrite map_map. now apply map_ext. Qed.

(** X3.  The keys and the value types of [MyOmit] of [src/3-Omit.ts]:
    the keys of the result are [Exclude<keyof T, K>]; indexing the
    result by an omitted key is rejected, and by any other name gives
    what [T] gives. *)
Theorem MyOmit_keys_and_values (ps : list (attr ty)) (ks : list string) (n : string) :
  well_formed ps ->
  incl ks (map name ps) ->
  (R <- MyOmit (TRecord ps) (keys_of ks) ;; keyof R)
  = (K <- keyof (TRecord ps) ;; Exclude K (keys_of ks))
  /\ (R <- MyOmit (TRecord ps) (keys_of ks) ;; index R (TStr n))
     = (if existsb (String.eqb n) ks then Err StaticRejection
        else index (TRecord ps) (TStr n)).
Proof.
  intros Hwf Hincl. pose proof Hwf as [Hnd _].
  rewrite MyOmit_record by assumption. cbn [bind].
  pose (f := fun n => negb (existsb (String.eqb n) ks)).
  change (filter (fun p => negb (named ks p)) ps)
    with (filter (fun p => f (name p)) ps).
  split.
  - rewrite !keyof_named; cbn [bind].
    + unfold Exclude. rewrite MyExclude_keys by assumption.
      now rewrite names_bare, (names_filter f ps).
    + exact Hnd.
    + rewrite names_bare, (names_filter f ps). now apply NoDup_filter.
  - rewrite !index_named, lookup_bare, lookup_filter. unfold f.
    destruct (existsb (String.eqb n) ks); [reflexivity|].
    cbn [negb]. now destruct (lookup n ps).
Qed.

Lemma MyOmit_keys_and_values_witness :
  well_formedb sample_record = true
  /\ forallb (fun k => existsb (String.eqb k) (map name sample_record))
       ["id"] = true
  /\ (R <- MyOmit (TRecord sample_record) (keys_of ["id"]) ;; keyof R)
     = Ok (TUnion [TStr "name"; TStr "tags"]).
Proof.
  split; [reflexivity|]. split; [reflexivity|].
  refine (eq_trans
            (proj1 (MyOmit_keys_and_values sample_record ["id"] "id" _ _)) _).
  - apply well_formedb_sound. reflexivity.
  - apply forallb_incl. reflexivity.
  - reflexivity.
Defined.

(** ** [Equal] as a relation *)

Lemma lit_eqb_sym a b : lit_eqb a b = lit_eqb b a.
Proof.
  destruct a, b; simpl; auto using String.eqb_sym, Z.eqb_sym.
  now destruct b, b0.
Qed.

Lemma prim_eqb_sym a b : prim_eqb a b = prim_eqb b a.
Proof. destruct a, b; reflexivity. Qed.

Lemma same_decl_sym (p q : attr ty) : same_decl p q = same_decl q p.
Proof.
  unfold same_decl. rewrite (String.eqb_sym (name p)).
  now destruct (readonly p), (readonly q), (optional p), (optional q).
Qed.

Lemma forallb_existsb_ext {A B} (f g : A -> B -> bool) (l : list A) (m : list B) :
  (forall x, In x l -> forall y, f x y = g x y) ->
  forallb (fun x => existsb (fun y => f x y) m) l
  = forallb (fun x => existsb (fun y => g x y) m) l.
Proof.
  intros H. induction l as [|a l IH]; [reflexivity|].
  cbn [forallb]. rewrite IH by (intros; apply H; now right).
  f_equal. clear IH. induction m as [|b m IHm]; [reflexivity|].
  cbn [existsb]. rewrite IHm. f_equal. apply H. now left.
Qed.

Lemma forallb_existsb_ext_r {A B} (f g : A -> B -> bool) (l : list A) (m : list B) :
  (forall y, In y m -> forall x, f x y = g x y) ->
  forallb (fun x => existsb (fun y => f x y) m) l
  = forallb (fun x => existsb (fun y => g x y) m) l.
Proof.
  intros H. induction l as [|a l IH]; [reflexivity|].
  cbn [forallb]. rewrite IH. f_equal.
  clear IH. induction m as [|b m IHm]; [reflexivity|].
  cbn [existsb]. rewrite IHm by (intros; apply H; now right).
  f_equal. apply H. now left.
Qed.

Lemma identical_sym s : forall t, identical s t = identical t s.
Proof.
  induction s using ty_nested_ind; intros t; destruct t; try reflexivity;
    cbn [identical].
  - apply prim_eqb_sym.
  - apply lit_eqb_sym.
  - rewrite Forall_forall in H. rewrite andb_comm. f_equal.
    + apply (forallb_existsb_ext_r (fun y x => identical x y)
               (fun y x => identical y x)).
      intros x Hx y. now apply H.
    + apply (forallb_existsb_ext (fun x y => identical x y)
               (fun x y => identical y x)).
      intros x Hx y. now apply H.
  - rewrite Forall_forall in H. rewrite andb_comm. f_equal.
    + apply (forallb_existsb_ext_r (fun y x => identical x y)
               (fun y x => identical y x)).
      intros x Hx y. now apply H.
    + apply (forallb_existsb_ext (fun x y => identical x y)
               (fun x y => identical y x)).
      intros x Hx y. now apply H.
  - rewrite Forall_forall in H. rewrite andb_comm. f_equal.
    + apply (forallb_existsb_ext_r
               (fun q p => same_decl p q && identical (valueType p) (valueType q))
               (fun q p => same_decl q p && identical (valueType q) (valueType p))).
      intros p Hp q. rewrite same_decl_sym. f_equal. now apply H.
    + apply (forallb_existsb_ext
               (fun p q => same_decl p q && identical (valueType p) (valueType q))
               (fun p q => same_decl q p && identical (valueType q) (valueType p))).
      intros p Hp q. rewrite same_decl_sym. f_equal. now apply H.
  - rewrite IHs. f_equal. now destruct ro, ro0.
  - f_equal; [now destruct ro, ro0|].
    revert elems. induction H as [|x l Hx Hl IH]; intros [|y elems];
      try reflexivity.
    now rewrite Hx, IH.
  - rewrite IHs, (Nat.eqb_sym n). f_equal. f_equal.
    revert params. induction H as [|x l Hx Hl IH]; intros [|y params];
      try reflexivity.
    now rewrite Hx, IH.
  - apply Nat.eqb_sym.
  - now rewrite IHs1, IHs2, IHs3, IHs4.
Qed.

(** X4.  [Equal] and [NotEqual] do not depend on the order of their
    arguments, although they are written with [extends]; and whatever
    [X] and [Y] are, each answers [true] or [false], the one the
    opposite of the other, so that exactly one of [Expect<Equal<X, Y>>]
    and [Expect<NotEqual<X, Y>>] is accepted, [ExpectFalse] accepting
    the other one. *)
Theorem Equal_symmetric_and_decisive (X Y : ty) :
  Equal X Y = Equal Y X
  /\ NotEqual X Y = NotEqual Y X
  /\ ((Equal X Y = Ok TTrue /\ NotEqual X Y = Ok TFalse
       /\ (e <- Equal X Y ;; Expect e) = Ok TTrue
       /\ (e <- NotEqual X Y ;; Expect e) = Err StaticRejection
       /\ (e <- Equal X Y ;; ExpectFalse e) = Err StaticRejection
       /\ (e <- NotEqual X Y ;; ExpectFalse e) = Ok TFalse)
      \/ (Equal X Y = Ok TFalse /\ NotEqual X Y = Ok TTrue
          /\ (e <- Equal X Y ;; Expect e) = Err StaticRejection
          /\ (e <- NotEqual X Y ;; Expect e) = Ok TTrue
          /\ (e <- Equal X Y ;; ExpectFalse e) = Ok TFalse
          /\ (e <- NotEqual X Y ;; ExpectFalse e) = Err StaticRejection)).
Proof.
  rewrite !Equal_identical, !NotEqual_negates, (identical_sym Y X).
  cbn [bind]. split; [reflexivity|]. split; [reflexivity|].
  destruct (identical X Y); [left|right]; repeat split; reflexivity.
Qed.

Lemma same_decl_trans (p q r : attr ty) :
  same_decl p q = true -> same_decl q r = true -> same_decl p r = true.
Proof.
  unfold same_decl. intros H1 H2.
  apply andb_true_iff in H1 as [H1 Ho1]. apply andb_true_iff in H1 as [Hn1 Hr1].
  apply andb_true_iff in H2 as [H2 Ho2]. apply andb_true_iff in H2 as [Hn2 Hr2].
  apply String.eqb_eq in Hn1, Hn2. apply Bool.eqb_prop in Ho1, Ho2, Hr1, Hr2.
  rewrite Hn1, Hn2, Ho1, Ho2, Hr1, Hr2, String.eqb_refl, !Bool.eqb_reflx.
  reflexivity.
Qed.

(** Members related one after the other are related. *)
Lemma covered_trans {A} (f : A -> A -> bool) (l m n : list A) :
  (forall x y z, In x l -> f x y = true -> f y z = true -> f x z = true) ->
  forallb (fun x => existsb (fun y => f x y) m) l = true ->
  forallb (fun y => existsb (fun z => f y z) n) m = true ->
  forallb (fun x => existsb (fun z => f x z) n) l = true.
Proof.
  intros Ht H1 H2. rewrite forallb_forall in *. intros x Hx.
  specialize (H1 x Hx). apply existsb_exists in H1 as [y [Hy Hxy]].
  specialize (H2 y Hy). apply existsb_exists in H2 as [z [Hz Hyz]].
  apply existsb_exists. exists z. split; [exact Hz|]. eapply Ht; eauto.
Qed.

Lemma covering_trans {A} (f : A -> A -> bool) (l m n : list A) :
  (forall x y z, In x l -> f x y = true -> f y z = true -> f x z = true) ->
  forallb (fun y => existsb (fun x => f x y) l) m = true ->
  forallb (fun z => existsb (fun y => f y z) m) n = true ->
  forallb (fun z => existsb (fun x => f x z) l) n = true.
Proof.
  intros Ht H1 H2. rewrite forallb_forall in *. intros z Hz.
  specialize (H2 z Hz). apply existsb_exists in H2 as [y [Hy Hyz]].
  specialize (H1 y Hy). apply existsb_exists in H1 as [x [Hx Hxy]].
  apply existsb_exists. exists x. split; [exact Hx|]. eapply Ht; eauto.
Qed.

Lemma identical_trans s :
  forall t u, identical s t = true -> identical t u = true ->
              identical s u = true.
Proof.
  induction s using ty_nested_ind; intros t u Hst Htu;
    destruct t; try discriminate; destruct u; try discriminate;
    try reflexivity; cbn [identical] in *.
  - destruct p, p0; try discriminate; exact Htu.
  - apply lit_eqb_eq in Hst. now subst.
  - rewrite Forall_forall in H.
    apply andb_true_iff in Hst as [S1 S2]. apply andb_true_iff in Htu as [T1 T2].
    apply andb_true_iff. split.
    + apply (covered_trans identical ts members members0); auto.
      intros x y z Hx. apply H. exact Hx.
    + apply (covering_trans identical ts members members0); auto.
      intros x y z Hx. apply H. exact Hx.
  - rewrite Forall_forall in H.
    apply andb_true_iff in Hst as [S1 S2]. apply andb_true_iff in Htu as [T1 T2].
    apply andb_true_iff. split.
    + apply (covered_trans identical ts members members0); auto.
      intros x y z Hx. apply H. exact Hx.
    + apply (covering_trans identical ts members members0); auto.
      intros x y z Hx. apply H. exact Hx.
  - rewrite Forall_forall in H.
    apply andb_true_iff in Hst as [S1 S2]. apply andb_true_iff in Htu as [T1 T2].
    pose (f := fun p q : attr ty =>
                 same_decl p q && identical (valueType p) (valueType q)).
    assert (Hf : forall x y z, In x ps -> f x y = true -> f y z = true ->
                               f x z = true).
    { unfold f. intros x y z Hx Hxy Hyz.
      apply andb_true_iff in Hxy as [D1 I1]. apply andb_true_iff in Hyz as [D2 I2].
      apply andb_true_iff. split; [eapply same_decl_trans; eauto|].
      eapply H; eauto. }
    apply andb_true_iff. split.
    + apply (covered_trans f ps attrs attrs0); auto.
    + apply (covering_trans f ps attrs attrs0); auto.
  - apply andb_true_iff in Hst as [S1 S2]. apply andb_true_iff in Htu as [T1 T2].
    apply Bool.eqb_prop in S1, T1. subst.
    rewrite Bool.eqb_reflx. cbn [andb]. eauto.
  - apply andb_true_iff in Hst as [S1 S2]. apply andb_true_iff in Htu as [T1 T2].
    apply Bool.eqb_prop in S1, T1. subst.
    rewrite Bool.eqb_reflx. cbn [andb].
    revert elems elems0 S2 T2.
    induction H as [|x l Hx Hl IH]; intros [|y m] [|z n] S2 T2;
      try discriminate; try reflexivity.
    apply andb_true_iff in S2 as [S2 S3]. apply andb_true_iff in T2 as [T2 T3].
    apply andb_true_iff. split; [eapply Hx; eauto|eapply IH; eauto].
  - apply andb_true_iff in Hst as [S1 S2]. apply andb_true_iff in Htu as [T1 T2].
    apply andb_true_iff in S1 as [S0 S1]. apply andb_true_iff in T1 as [T0 T1].
    apply Nat.eqb_eq in S0, T0. subst.
    rewrite Nat.eqb_refl, (IHs _ _ S2 T2), andb_true_r. cbn [andb].
    revert params params0 S1 T1.
    induction H as [|x l Hx Hl IH]; intros [|y m] [|z k] S1 T1;
      try discriminate; try reflexivity.
    apply andb_true_iff in S1 as [S1 S3]. apply andb_true_iff in T1 as [T1 T3].
    apply andb_true_iff. split; [eapply Hx; eauto|eapply IH; eauto].
  - apply Nat.eqb_eq in Hst, Htu. subst. apply Nat.eqb_refl.
  - apply andb_true_iff in Hst as [S1 S4]. apply andb_true_iff in S1 as [S1 S3].
    apply andb_true_iff in S1 as [S1 S2].
    apply andb_true_iff in Htu as [T1 T4]. apply andb_true_iff in T1 as [T1 T3].
    apply andb_true_iff in T1 as [T1 T2].
    now rewrite (IHs1 _ _ S1 T1), (IHs2 _ _ S2 T2), (IHs3 _ _ S3 T3),
      (IHs4 _ _ S4 T4).
Qed.

Lemma Equal_true X Y : Equal X Y = Ok TTrue <-> identical X Y = true.
Proof.
  rewrite Equal_identical. split.
  - destruct (identical X Y); [reflexivity|discriminate].
  - now intros ->.
Qed.

(** X5.  [Equal] is an equivalence: every type is [Equal] to itself, and
    when [X] is [Equal] to [Y] and [Y] to [Z], then [Y] is [Equal] to
    [X] and [X] to [Z]. *)
Theorem Equal_is_an_equivalence (X Y Z : ty) :
  Equal X Y = Ok TTrue ->
  Equal Y Z = Ok TTrue ->
  Equal X X = Ok TTrue /\ Equal Y X = Ok TTrue /\ Equal X Z = Ok TTrue.
Proof.
  rewrite !Equal_true. intros H1 H2. split; [apply identical_refl|]. split.
  - now rewrite identical_sym.
  - eapply identical_trans; eauto.
Qed.

Lemma Equal_is_an_equivalence_witness :
  Equal (TRecord [field "a" TNumber; ro_field "b" TString; field "c" TNull])
        (TRecord [ro_field "b" TString; field "c" TNull; field "a" TNumber])
  = Ok TTrue
  /\ Equal (TRecord [ro_field "b" TString; field "c" TNull; field "a" TNumber])
           (TRecord [field "c" TNull; field "a" TNumber; ro_field "b" TString])
     = Ok TTrue
  /\ Equal (TRecord [field "a" TNumber; ro_field "b" TString; field "c" TNull])
           (TRecord [field "c" TNull; field "a" TNumber; ro_field "b" TString])
     = Ok TTrue.
Proof.
  split; [reflexivity|]. split; [reflexivity|].
  refine (proj2 (proj2 (Equal_is_an_equivalence
           (TRecord [field "a" TNumber; ro_field "b" TString; field "c" TNull])
           (TRecord [ro_field "b" TString; field "c" TNull; field "a" TNumber])
           (TRecord [field "c" TNull; field "a" TNumber; ro_field "b" TString])
           _ _))); reflexivity.
Defined.

(** ** The mapped types of [src/4-Readonly.ts] on arrays and tuples *)

Lemma nth_positions {A} (l : list A) d :
  map (fun i => nth i l d) (seq 0 (List.length l)) = l.
Proof.
  induction l as [|a l IH]; [reflexivity|].
  cbn [List.length seq map nth]. rewrite <- seq_shift, map_map.
  cbn [nth]. now rewrite IH.
Qed.

Lemma find_position (f : nat -> bool) i start len :
  start <= i < start + len ->
  f i = true ->
  (forall j, f j = true -> j = i) ->
  find f (seq start len) = Some i.
Proof.
  revert start. induction len as [|len IH]; intros start Hi Hf Hinj; [lia|].
  cbn [seq find]. destruct (f start) eqn:E.
  - f_equal. auto.
  - apply IH; auto.
    assert (start <> i) by (intros ->; congruence). lia.
Qed.

Lemma element_index_position i len :
  i < len -> element_index (TStr (key_name (Z.of_nat i))) len = Some i.
Proof.
  intros Hi. unfold element_index. cbn [prop_name TStr].
  apply find_position; [lia|apply String.eqb_refl|].
  intros j Hj. apply String.eqb_eq in Hj. apply key_name_inj in Hj. lia.
Qed.

Lemma tuple_elements ro es :
  mapM (fun i => index (TTuple ro es) (TStr (key_name (Z.of_nat i))))
       (seq 0 (List.length es))
  = Ok es.
Proof.
  transitivity (Ok (map (fun i => nth i es TNever) (seq 0 (List.length es))));
    [|now rewrite nth_positions].
  rewrite <- (map_id (seq 0 (List.length es))) at 1.
  apply mapM_pointwise. intros i Hi. apply in_seq in Hi.
  cbn [index TStr index_one]. fold (TStr (key_name (Z.of_nat i))).
  rewrite element_index_position by lia. reflexivity.
Qed.

(** X6.  On an array or a tuple the mapped types over [keyof T] are
    applied to the elements: [MyReadonly] gives the readonly array or
    tuple of the same elements, [MyMutable] the mutable one, whatever
    the argument was, and [Debug] gives the argument back. *)
Theorem toggles_on_arrays_and_tuples (ro : bool) (e : ty) (es : list ty) :
  MyReadonly (TArray ro e) = Ok (TArray true e)
  /\ MyMutable (TArray ro e) = Ok (TArray false e)
  /\ Debug (TArray ro e) = Ok (TArray ro e)
  /\ MyReadonly (TTuple ro es) = Ok (TTuple true es)
  /\ MyMutable (TTuple ro es) = Ok (TTuple false es)
  /\ Debug (TTuple ro es) = Ok (TTuple ro es).
Proof.
  repeat split; try reflexivity;
    unfold MyReadonly, MyMutable, Debug;
    cbn [mapped_keyof mapped_keyof_one]; rewrite tuple_elements; reflexivity.
Qed.

(** ** [Debug] *)

Lemma merge_attr_fresh p acc :
  ~ In (name p) (map name acc) -> merge_attr p acc = acc ++ [p].
Proof.
  induction acc as [|q acc IH]; simpl; intros H; [reflexivity|].
  destruct (String.eqb_spec (name p) (name q)) as [E|_].
  - exfalso. apply H. now left.
  - rewrite IH; [reflexivity|]. intros Hin. apply H. now right.
Qed.

Lemma merge_attrs_fresh l acc :
  NoDup (map name (acc ++ l)) ->
  fold_left (fun acc p => merge_attr p acc) l acc = acc ++ l.
Proof.
  revert acc. induction l as [|p l IH]; intros acc H; simpl.
  - now rewrite app_nil_r.
  - rewrite merge_attr_fresh.
    + rewrite IH by now rewrite <- app_assoc. now rewrite <- app_assoc.
    + rewrite map_app in H. simpl in H. apply NoDup_remove_2 in H.
      intros Hin. apply H. apply in_or_app. now left.
Qed.

Lemma attributes_of_two ps qs :
  NoDup (map name (ps ++ qs)) ->
  attributes (TInter [TRecord ps; TRecord qs]) = Ok (ps ++ qs).
Proof.
  intros H. cbn [attributes mapM own_attributes bind List.concat].
  rewrite app_nil_r. now rewrite merge_attrs_fresh.
Qed.

(** X7.  [Debug] spreads an intersection of two records that share no
    name into one record: every field of either operand is a field of
    the result, with its value type and its modifiers; on a single
    record it changes nothing. *)
Theorem Debug_merges_intersection (ps qs : list (attr ty)) :
  well_formed (ps ++ qs) ->
  Debug (TInter [TRecord ps; TRecord qs]) = Ok (TRecord (ps ++ qs))
  /\ Debug (TRecord (ps ++ qs)) = Ok (TRecord (ps ++ qs)).
Proof.
  intros Hwf. split; [|now apply Debug_record].
  destruct Hwf as [Hnd Hopt]. rewrite Forall_forall in Hopt.
  unfold Debug. cbn [mapped_keyof mapped_keyof_one].
  rewrite attributes_of_two by assumption. cbn [bind].
  fold (key_types (ps ++ qs)).
  rewrite (mapped_members_fields Keep (ps ++ qs) _ valueType);
    [do 2 f_equal; apply (with_readonly_same (ps ++ qs))
    | exact Hnd | | exact Hopt].
  intros p Hp. cbn [index TStr index_one prop_name].
  rewrite attributes_of_two by assumption. cbn [bind].
  now rewrite lookup_self.
Qed.

Lemma Debug_merges_intersection_witness :
  well_formedb ([ro_field "id" TNumber] ++ [opt_field "name" TString]) = true
  /\ Debug (TInter [TRecord [ro_field "id" TNumber];
                    TRecord [opt_field "name" TString]])
     = Ok (TRecord [ro_field "id" TNumber; opt_field "name" TString]).
Proof.
  split; [reflexivity|].
  apply (Debug_merges_intersection
           [ro_field "id" TNumber] [opt_field "name" TString]).
  apply well_formedb_sound. reflexivity.
Defined.

(** ** Conditional types on primitives and literals *)

Lemma atom_extends_scalar n a u :
  atom a = true -> primitive_like u = true ->
  assignable (S n) a u = Ok (scalar_sub a u).
Proof.
  intros Ha Hu. rewrite assignable_S.
  destruct u; try discriminate; destruct a; try discriminate;
    try reflexivity; destruct attrs; reflexivity.
Qed.

Lemma scalars_not_top U : scalars U = true -> is_any U || is_unknown U = false.
Proof. destruct U; try discriminate; reflexivity. Qed.

Lemma atom_assignable_scalars n x U :
  atom x = true -> scalars U = true ->
  assignable (S (S n)) x U = Ok (below U x).
Proof.
  intros Hx HU. unfold below.
  destruct U; try discriminate.
  - rewrite assignable_S. destruct x; try discriminate; reflexivity.
  - rewrite atom_extends_scalar by auto.
    cbn [direct_members existsb]. now rewrite orb_false_r.
  - rewrite atom_extends_scalar by auto.
    cbn [direct_members existsb]. now rewrite orb_false_r.
  - unfold scalars in HU. cbn [direct_members] in *.
    rewrite assignable_S.
    assert (E : forall A (a b c d : A) (f : list ty -> A),
               match x with
               | TNever => a | TAny => b | TUnknown => c
               | TUnion ss => f ss | _ => d
               end = d)
      by (intros; destruct x; try discriminate; reflexivity).
    rewrite E. apply anyM_pointwise.
    intros y Hy. rewrite forallb_forall in HU.
    apply atom_extends_scalar; auto.
Qed.

(** [x extends U] for an atom [x] and scalars [U]. *)
Lemma atom_extends_scalars x U :
  atom x = true -> scalars U = true -> extends x U = Ok (below U x).
Proof.
  intros Hx HU. unfold extends.
  assert (Hsz : 2 <= size x + size U)
    by (pose proof (size_pos x); pose proof (size_pos U); lia).
  destruct (size x + size U) as [|[|n]]; try lia.
  now apply atom_assignable_scalars.
Qed.

Lemma cond_atom x U (a b : result ty) :
  atom x = true -> scalars U = true ->
  cond x U a b = if below U x then a else b.
Proof.
  intros Hx HU. unfold cond.
  rewrite scalars_not_top, atom_extends_scalars by assumption. cbn [bind].
  destruct x; try discriminate; reflexivity.
Qed.

(** ** Members of a canonical union of atoms *)

Lemma atom_constituent x : atom x = true -> constituent x = true.
Proof. unfold constituent. now intros ->. Qed.

Lemma atoms_constituents ms :
  forallb atom ms = true -> forallb constituent ms = true.
Proof.
  rewrite !forallb_forall. intros H x Hx. apply atom_constituent. auto.
Qed.

Lemma atomic_members T :
  canonical T = true -> atomic T = true ->
  forallb atom (direct_members T) = true
  /\ distinct (direct_members T) = true
  /\ forallb (fun m => negb (subsumed_literal (direct_members T) m))
             (direct_members T) = true
  /\ T = of_members (direct_members T).
Proof.
  intros Hc Ha. split; [exact Ha|].
  destruct T; try discriminate; try (repeat split; reflexivity).
  - destruct l as [s|z|b]; repeat split; reflexivity.
  - destruct (canonical_union_inv _ Hc) as [Hlen [_ [Hd Hs]]].
    cbn [direct_members]. repeat split; try assumption.
    destruct members as [|a [|b l]]; try discriminate. reflexivity.
Qed.

Lemma forallb_filter {A} (f g : A -> bool) l :
  forallb f l = true -> forallb f (filter g l) = true.
Proof.
  rewrite !forallb_forall. intros H x Hx. apply filter_In in Hx as [Hx _]. auto.
Qed.

Lemma distinct_filter (g : ty -> bool) ms :
  distinct ms = true -> distinct (filter g ms) = true.
Proof.
  induction ms as [|m ms IH]; [reflexivity|].
  cbn [distinct filter]. intros H. apply andb_true_iff in H as [Hm Hms].
  destruct (g m); [|auto]. cbn [distinct]. rewrite IH by assumption.
  rewrite andb_true_r. apply negb_true_iff. apply negb_true_iff in Hm.
  apply not_true_is_false. intros Hex.
  apply existsb_exists in Hex as [x [Hx Hid]]. apply filter_In in Hx as [Hx _].
  assert (existsb (identical m) ms = true)
    by (apply existsb_exists; now exists x).
  congruence.
Qed.

Lemma subsumed_filter (g : ty -> bool) ms x :
  subsumed_literal (filter g ms) x = true -> subsumed_literal ms x = true.
Proof.
  assert (H : forall t, existsb (identical t) (filter g ms) = true ->
                        existsb (identical t) ms = true).
  { intros t Ht. apply existsb_exists in Ht as [y [Hy Hid]].
    apply filter_In in Hy as [Hy _]. apply existsb_exists. now exists y. }
  destruct x; try discriminate. destruct l; try discriminate; apply H.
Qed.

(** A part of the members of a canonical union of atoms unites to
    itself. *)
Lemma mkUnion_filter (g : ty -> bool) ms :
  forallb atom ms = true -> distinct ms = true ->
  forallb (fun m => negb (subsumed_literal ms m)) ms = true ->
  mkUnion (filter g ms) = of_members (filter g ms).
Proof.
  intros Ha Hd Hs. unfold mkUnion.
  assert (Hc : forallb constituent (filter g ms) = true)
    by (apply forallb_filter; now apply atoms_constituents).
  rewrite flat_constituents by assumption.
  rewrite (existsb_constituents is_any), (existsb_constituents is_unknown);
    try assumption; try (intros m; destruct m; (discriminate || reflexivity)).
  rewrite dedupe_distinct by now apply distinct_filter.
  rewrite filter_all; [reflexivity|].
  intros x Hx. apply filter_In in Hx as [Hx _].
  rewrite forallb_forall in Hs. specialize (Hs x Hx).
  apply negb_true_iff. apply negb_true_iff in Hs.
  apply not_true_is_false. intros H. apply subsumed_filter in H. congruence.
Qed.

Lemma direct_members_atoms ms :
  forallb atom ms = true -> direct_members (of_members ms) = ms.
Proof.
  destruct ms as [|a [|b l]]; try reflexivity.
  cbn [forallb of_members]. rewrite andb_true_r. intros Ha.
  destruct a; try discriminate; reflexivity.
Qed.

Lemma canonical_part (g : ty -> bool) ms :
  forallb atom ms = true -> distinct ms = true ->
  forallb (fun m => negb (subsumed_literal ms m)) ms = true ->
  canonical (of_members (filter g ms)) = true
  /\ atomic (of_members (filter g ms)) = true.
Proof.
  intros Ha Hd Hs.
  assert (Ha' : forallb atom (filter g ms) = true) by now apply forallb_filter.
  assert (Hd' : distinct (filter g ms) = true) by now apply distinct_filter.
  assert (Hs' : forallb (fun m => negb (subsumed_literal (filter g ms) m))
                        (filter g ms) = true).
  { apply forallb_forall. intros x Hx. apply filter_In in Hx as [Hx _].
    rewrite forallb_forall in Hs. specialize (Hs x Hx).
    apply negb_true_iff. apply negb_true_iff in Hs.
    apply not_true_is_false. intros H. apply subsumed_filter in H. congruence. }
  split.
  - destruct (filter g ms) as [|a [|b l]] eqn:E; [reflexivity| |].
    + cbn [of_members]. cbn [forallb] in Ha'. rewrite andb_true_r in Ha'.
      destruct a; try discriminate; reflexivity.
    + cbn [of_members canonical]. rewrite Hd', Hs'.
      rewrite (atoms_constituents _ Ha'). reflexivity.
  - unfold atomic. now rewrite direct_members_atoms.
Qed.

(** ** The distributive conditional types, member by member *)

Lemma flat_kept (f : ty -> bool) ms :
  flat_map union_members (map (fun m => if f m then m else TNever) ms)
  = flat_map union_members (filter f ms).
Proof.
  induction ms as [|m ms IH]; [reflexivity|].
  cbn [map flat_map filter]. rewrite IH. now destruct (f m).
Qed.

Lemma mkUnion_atom x : atom x = true -> mkUnion [x] = x.
Proof.
  destruct x; try discriminate; try reflexivity.
  destruct l; reflexivity.
Qed.

Lemma cond_dist_kept (f : ty -> bool) T U (a b : ty -> result ty) :
  canonical T = true -> atomic T = true ->
  (forall m, In m (direct_members T) ->
     cond m U (a m) (b m) = Ok (if f m then m else TNever)) ->
  cond_dist T U a b = Ok (of_members (filter f (direct_members T))).
Proof.
  intros Hc Ha Hm.
  destruct (atomic_members T Hc Ha) as [Hat [Hd [Hs HT]]].
  rewrite <- (mkUnion_filter f) by assumption.
  rewrite <- (mkUnion_flat _ _ (flat_kept f (direct_members T))).
  destruct T; try discriminate;
    try (pose proof (Hm _ (or_introl eq_refl)) as E;
         cbn [cond_dist direct_members map]; rewrite E;
         destruct (f _); [now rewrite mkUnion_atom|reflexivity]).
  - reflexivity.
  - cbn [cond_dist direct_members] in *.
    rewrite <- (map_id members) at 1.
    rewrite (mapM_pointwise _ _ (fun m => if f m then m else TNever))
      by exact Hm.
    reflexivity.
Qed.

Lemma MyExtract_members T U :
  canonical T = true -> atomic T = true -> scalars U = true ->
  MyExtract T U = Ok (of_members (filter (below U) (direct_members T))).
Proof.
  intros Hc Ha HU. apply cond_dist_kept; try assumption.
  intros m Hm. unfold atomic in Ha. rewrite forallb_forall in Ha.
  rewrite cond_atom by auto. now destruct (below U m).
Qed.

Lemma MyExclude_members T U :
  canonical T = true -> atomic T = true -> scalars U = true ->
  MyExclude T U
  = Ok (of_members (filter (fun m => negb (below U m)) (direct_members T))).
Proof.
  intros Hc Ha HU. apply cond_dist_kept; try assumption.
  intros m Hm. unfold atomic in Ha. rewrite forallb_forall in Ha.
  rewrite cond_atom by auto. now destruct (below U m).
Qed.

Lemma filter_twice {A} (g : A -> bool) l : filter g (filter g l) = filter g l.
Proof.
  apply filter_all. intros x Hx. now apply filter_In in Hx.
Qed.

Lemma filter_none {A} (g : A -> bool) l :
  (forall x, In x l -> g x = false) -> filter g l = [].
Proof.
  induction l as [|a l IH]; [reflexivity|]. intros H.
  cbn [filter]. rewrite (H a) by now left. apply IH.
  intros x Hx. apply H. now right.
Qed.

(** X8.  [MyExtract] and [MyExclude] split a union of atoms along the
    primitives and literals [U]: [MyExtract] keeps the members that are
    below a member of [U], and [MyExclude] keeps the others; nothing
    that was excluded can be extracted and conversely, and excluding
    twice excludes nothing more. *)
Theorem Extract_Exclude_partition (T U : ty) :
  canonical T = true ->
  atomic T = true ->
  scalars U = true ->
  MyExtract T U = Ok (of_members (filter (below U) (direct_members T)))
  /\ MyExclude T U
     = Ok (of_members (filter (fun m => negb (below U m)) (direct_members T)))
  /\ (R <- MyExclude T U ;; MyExtract R U) = Ok TNever
  /\ (R <- MyExtract T U ;; MyExclude R U) = Ok TNever
  /\ (R <- MyExclude T U ;; MyExclude R U) = MyExclude T U.
Proof.
  intros Hc Ha HU.
  destruct (atomic_members T Hc Ha) as [Hat [Hd [Hs _]]].
  rewrite MyExtract_members, MyExclude_members by assumption. cbn [bind].
  set (ms := direct_members T) in *.
  split; [reflexivity|]. split; [reflexivity|].
  destruct (canonical_part (below U) ms Hat Hd Hs) as [Hc1 Ha1].
  destruct (canonical_part (fun m => negb (below U m)) ms Hat Hd Hs)
    as [Hc2 Ha2].
  rewrite MyExtract_members, !MyExclude_members by assumption.
  rewrite !direct_members_atoms by now apply forallb_filter.
  rewrite filter_twice. repeat split.
  - rewrite filter_none; [reflexivity|].
    intros x Hx. apply filter_In in Hx as [_ Hx]. now apply negb_true_iff.
  - rewrite filter_none; [reflexivity|].
    intros x Hx. apply filter_In in Hx as [_ Hx]. now rewrite Hx.
Qed.

Lemma Extract_Exclude_partition_witness :
  canonical (TUnion [TString; TNum 1; TFalse; TTrue; TNull]) = true
  /\ atomic (TUnion [TString; TNum 1; TFalse; TTrue; TNull]) = true
  /\ scalars (TUnion [TNumber; TFalse; TTrue]) = true
  /\ MyExtract (TUnion [TString; TNum 1; TFalse; TTrue; TNull])
               (TUnion [TNumber; TFalse; TTrue])
     = Ok (TUnion [TNum 1; TFalse; TTrue]).
Proof.
  split; [reflexivity|]. split; [reflexivity|]. split; [reflexivity|].
  apply (Extract_Exclude_partition
           (TUnion [TString; TNum 1; TFalse; TTrue; TNull])
           (TUnion [TNumber; TFalse; TTrue]));
    reflexivity.
Defined.

Lemma below_nullish m :
  below (TUnion [TNull; TUndefined]) m = is_null_or_undefined m.
Proof.
  unfold below. cbn [direct_members existsb]. rewrite orb_false_r.
  destruct m; try reflexivity. now destruct p. now destruct l.
Qed.

(** X9.  [MyNonNullable] removes [null] and [undefined] from a union of
    atoms and keeps every other member, [void] included; applied twice
    it removes nothing more. *)
Theorem MyNonNullable_removes_null_and_undefined (T : ty) :
  canonical T = true ->
  atomic T = true ->
  MyNonNullable T
  = Ok (of_members (filter (fun m => negb (is_null_or_undefined m))
                           (direct_members T)))
  /\ (R <- MyNonNullable T ;; MyNonNullable R) = MyNonNullable T.
Proof.
  intros Hc Ha. unfold MyNonNullable, Exclude.
  destruct (atomic_members T Hc Ha) as [Hat [Hd [Hs _]]].
  set (keep := fun m => negb (is_null_or_undefined m)).
  assert (E : forall X, canonical X = true -> atomic X = true ->
                MyExclude X (TUnion [TNull; TUndefined])
                = Ok (of_members (filter keep (direct_members X)))).
  { intros X HX HaX. rewrite MyExclude_members by auto. do 2 f_equal.
    apply filter_ext. intros m. unfold keep. now rewrite below_nullish. }
  rewrite E by assumption. cbn [bind]. split; [reflexivity|].
  destruct (canonical_part keep (direct_members T) Hat Hd Hs) as [Hc1 Ha1].
  rewrite E by assumption.
  rewrite direct_members_atoms by now apply forallb_filter.
  now rewrite filter_twice.
Qed.

Lemma MyNonNullable_removes_null_and_undefined_witness :
  canonical (TUnion [TString; TNull; TRecord [field "id" TNumber];
                     TUndefined; TPrim PVoid]) = true
  /\ atomic (TUnion [TString; TNull; TRecord [field "id" TNumber];
                     TUndefined; TPrim PVoid]) = true
  /\ MyNonNullable (TUnion [TString; TNull; TRecord [field "id" TNumber];
                            TUndefined; TPrim PVoid])
     = Ok (TUnion [TString; TRecord [field "id" TNumber]; TPrim PVoid]).
Proof.
  split; [reflexivity|]. split; [reflexivity|].
  apply (MyNonNullable_removes_null_and_undefined
           (TUnion [TString; TNull; TRecord [field "id" TNumber];
                    TUndefined; TPrim PVoid]));
    reflexivity.
Defined.

(** ** [ExpectExtends] *)

Lemma uniq_bool_rest b r :
  filter (fun m => negb (lit_eqb (LBool b) m)) (uniq (map LBool r))
  = if existsb (fun c => negb (Bool.eqb b c)) r then [LBool (negb b)] else [].
Proof.
  induction r as [|c r IH]; [reflexivity|].
  cbn [map uniq filter existsb].
  change (lit_eqb (LBool b) (LBool c)) with (Bool.eqb b c).
  destruct (Bool.eqb b c) eqn:E; cbn [negb orb].
  - apply Bool.eqb_prop in E. subst c.
    rewrite filter_twice. exact IH.
  - assert (c = negb b) by (destruct b, c; (discriminate || reflexivity)).
    subst c. f_equal. apply filter_none.
    intros x Hx. apply filter_In in Hx as [Hx Hc].
    apply uniq_In in Hx. apply in_map_iff in Hx as [d [<- _]].
    cbn [lit_eqb] in *. now destruct b, d.
Qed.

Lemma uniq_bools b r :
  uniq (map LBool (b :: r))
  = LBool b :: (if existsb (fun c => negb (Bool.eqb b c)) r
                then [LBool (negb b)] else []).
Proof. cbn [map uniq]. now rewrite uniq_bool_rest. Qed.

Lemma all_or_other b r :
  existsb (fun c => negb (Bool.eqb b c)) r = false ->
  forallb (fun c => c) (b :: r) = b.
Proof.
  intros H. cbn [forallb]. destruct b; [|reflexivity]. cbn [andb].
  apply forallb_forall. intros c Hc.
  destruct c; [reflexivity|]. exfalso.
  assert (existsb (fun c => negb (Bool.eqb true c)) r = true)
    by (apply existsb_exists; now exists false).
  congruence.
Qed.

Lemma other_not_all b r :
  existsb (fun c => negb (Bool.eqb b c)) r = true ->
  forallb (fun c => c) (b :: r) = false.
Proof.
  intros H. cbn [forallb]. destruct b; [|reflexivity]. cbn [andb].
  apply existsb_exists in H as [c [Hc E]]. destruct c; [discriminate|].
  apply not_true_is_false. intros Hall. rewrite forallb_forall in Hall.
  specialize (Hall false Hc). discriminate.
Qed.

Lemma forallb_mapped {A} (f : A -> bool) l :
  forallb (fun c => c) (map f l) = forallb f l.
Proof. induction l as [|a l IH]; [reflexivity|]. cbn. now rewrite IH. Qed.

(** [Expect] on the union of boolean literals [bs]: accepted when none
    of them is [false]. *)
Lemma Expect_bools bs :
  Expect (mkUnion (map TBool bs))
  = if forallb (fun c => c) bs then Ok (mkUnion (map TBool bs))
    else Err StaticRejection.
Proof.
  replace (map TBool bs) with (map TLit (map LBool bs))
    by now rewrite map_map.
  rewrite mkUnion_literals.
  destruct bs as [|b r]; [reflexivity|].
  rewrite uniq_bools.
  destruct (existsb (fun c => negb (Bool.eqb b c)) r) eqn:E.
  - rewrite (other_not_all b r E). now destruct b.
  - rewrite (all_or_other b r E). now destruct b.
Qed.

Lemma ExpectExtends_members V E :
  canonical E = true -> atomic E = true -> scalars V = true ->
  ExpectExtends V E
  = Ok (mkUnion (map (fun m => TBool (below V m)) (direct_members E))).
Proof.
  intros Hc Ha HV. unfold ExpectExtends.
  assert (Hm : forall m, In m (direct_members E) ->
                 cond m V (Ok TTrue) (Ok TFalse) = Ok (TBool (below V m))).
  { intros m Hm. unfold atomic in Ha. rewrite forallb_forall in Ha.
    rewrite cond_atom by auto. now destruct (below V m). }
  destruct E; try discriminate;
    try (pose proof (Hm _ (or_introl eq_refl)) as E';
         cbn [cond_dist direct_members map]; rewrite E';
         now destruct (below V _)).
  - reflexivity.
  - cbn [cond_dist direct_members] in *.
    rewrite <- (map_id members) at 1.
    now rewrite (mapM_pointwise _ _ (fun m => TBool (below V m))) by exact Hm.
Qed.

(** X10.  [ExpectExtends<VALUE, EXPECTED>] distributes over the members
    of [EXPECTED]: it is the union of the answers, [boolean] when some
    members extend [VALUE] and others do not, and [never] when
    [EXPECTED] is [never].  So [Expect<ExpectExtends<VALUE, EXPECTED>>]
    is accepted exactly when every member of [EXPECTED] extends [VALUE],
    vacuously when there is none. *)
Theorem ExpectExtends_every_member (V E : ty) :
  canonical E = true ->
  atomic E = true ->
  scalars V = true ->
  ExpectExtends V E
  = Ok (mkUnion (map (fun m => TBool (below V m)) (direct_members E)))
  /\ (r <- ExpectExtends V E ;; Expect r)
     = (if forallb (below V) (direct_members E) then ExpectExtends V E
        else Err StaticRejection)
  /\ ExpectExtends V TNever = Ok TNever
  /\ ExpectExtends TString (TStr "hello") = Ok TTrue
  /\ ExpectExtends (TNum 1) TNumber = Ok TFalse
  /\ (r <- ExpectExtends TString (TUnion [TStr "hello"; TNum 1]) ;;
      Equal r TBoolean) = Ok TTrue.
Proof.
  intros Hc Ha HV. rewrite ExpectExtends_members by assumption.
  split; [reflexivity|]. split; [|repeat split; reflexivity].
  cbn [bind]. rewrite <- (map_map (below V) TBool), Expect_bools.
  rewrite forallb_mapped. reflexivity.
Qed.

Lemma ExpectExtends_every_member_witness :
  canonical (TUnion [TStr "hello"; TNum 1]) = true
  /\ atomic (TUnion [TStr "hello"; TNum 1]) = true
  /\ scalars TString = true
  /\ (r <- ExpectExtends TString (TUnion [TStr "hello"; TNum 1]) ;; Expect r)
     = Err StaticRejection.
Proof.
  split; [reflexivity|]. split; [reflexivity|]. split; [reflexivity|].
  refine (eq_trans (proj1 (proj2 (ExpectExtends_every_member
                     TString (TUnion [TStr "hello"; TNum 1]) _ _ _))) _);
    reflexivity.
Defined.

(** ** The aliases of [src/5-Tuple2Object.ts] on tuples of literals *)













(** ** [MyPartial] and [MyRequired] *)

Lemma mapped_members_modified ro opt ps :
  NoDup (map name ps) ->
  mapped_members ro opt ps (key_types ps) (index (TRecord ps))
  = Ok (TRecord
          (map (fun p =>
                  Attr (name p)
                       (if modified opt (optional p)
                        then add_optional (valueType p)
                        else if optional p then strip_undefined (valueType p)
                             else valueType p)
                       (modified ro (readonly p))
                       (modified opt (optional p))) ps)).
Proof.
  intros Hnd. apply mapped_members_pointwise; [exact Hnd|].
  intros p Hp. unfold mapped_attr. cbn [fst snd].
  rewrite lookup_self, index_field by assumption. reflexivity.
Qed.

Lemma MyPartial_record ps :
  NoDup (map name ps) ->
  MyPartial (TRecord ps) = Ok (TRecord (map partial_field ps)).
Proof.
  intros H. unfold MyPartial.
  cbn [mapped_keyof mapped_keyof_one attributes own_attributes bind].
  exact (mapped_members_modified Keep Add ps H).
Qed.

Lemma MyRequired_record ps :
  NoDup (map name ps) ->
  MyRequired (TRecord ps) = Ok (TRecord (map required_field ps)).
Proof.
  intros H. unfold MyRequired.
  cbn [mapped_keyof mapped_keyof_one attributes own_attributes bind].
  exact (mapped_members_modified Keep Remove ps H).
Qed.

Lemma dedupe_keeps x l :
  In x l -> exists y, In y (dedupe l) /\ identical y x = true.
Proof.
  induction l as [|a l IH]; [contradiction|].
  cbn [dedupe]. intros [->|H].
  - exists x. split; [now left|apply identical_refl].
  - destruct (IH H) as [y [Hy Hid]].
    destruct (identical a y) eqn:E.
    + exists a. split; [now left|]. now apply (identical_trans a y x).
    + exists y. split; [|exact Hid]. right. apply filter_In.
      split; [exact Hy|]. now rewrite E.
Qed.

(** [undefined] stays in a union it is put in, unless a top type
    absorbs it. *)
Lemma mkUnion_keeps_undefined ts :
  In TUndefined (flat_map union_members ts) ->
  is_any (mkUnion ts) || is_unknown (mkUnion ts)
  || maybe_undefined (mkUnion ts) = true.
Proof.
  intros Hin. unfold mkUnion.
  destruct (existsb is_any _); [reflexivity|].
  destruct (existsb is_unknown _); [reflexivity|].
  destruct (dedupe_keeps _ _ Hin) as [y [Hy Hid]].
  assert (y = TUndefined).
  { destruct y; try discriminate. now destruct p. }
  subst y.
  set (ds := dedupe (flat_map union_members ts)) in *.
  assert (Hf : In TUndefined (filter (fun t => negb (subsumed_literal ds t)) ds))
    by (apply filter_In; split; [exact Hy|reflexivity]).
  destruct (filter (fun t => negb (subsumed_literal ds t)) ds) as [|a [|b l]].
  - contradiction.
  - destruct Hf as [->|[]]. reflexivity.
  - cbn [of_members is_any is_unknown orb maybe_undefined direct_members].
    apply existsb_exists. exists TUndefined. split; [exact Hf|reflexivity].
Qed.

Lemma add_optional_twice v : add_optional (add_optional v) = add_optional v.
Proof.
  destruct (maybe_undefined v) eqn:E.
  - unfold add_optional. now rewrite !E.
  - assert (Ev : add_optional v = mkUnion [v; TUndefined])
      by (unfold add_optional; now rewrite E).
    rewrite Ev.
    pose proof (mkUnion_keeps_undefined [v; TUndefined]) as H.
    assert (Hin : In TUndefined (flat_map union_members [v; TUndefined])).
    { cbn [flat_map]. apply in_or_app. right. now left. }
    specialize (H Hin). unfold add_optional.
    destruct (mkUnion [v; TUndefined]) eqn:Eu; try discriminate;
      try reflexivity; cbn [is_any is_unknown orb] in H; now rewrite H.
Qed.

Lemma well_formed_partial ps :
  NoDup (map name ps) -> well_formed (map partial_field ps).
Proof.
  intros H. split.
  - rewrite map_map. exact H.
  - apply Forall_map. apply Forall_forall. intros p _ _.
    cbn [partial_field valueType]. apply add_optional_twice.
Qed.

Lemma partial_field_twice ps :
  map partial_field (map partial_field ps) = map partial_field ps.
Proof.
  rewrite map_map. apply map_ext. intros p. unfold partial_field.
  cbn [name valueType readonly]. now rewrite add_optional_twice.
Qed.

(** X14.  [MyPartial] makes every field of a record optional, puts
    [undefined] into its type and keeps its [readonly] flag; applied
    twice it changes nothing more, and it can be exchanged with
    [MyReadonly]. *)
Theorem MyPartial_idempotent_and_commutes (ps : list (attr ty)) :
  well_formed ps ->
  MyPartial (TRecord ps) = Ok (TRecord (map partial_field ps))
  /\ (R <- MyPartial (TRecord ps) ;; MyPartial R) = MyPartial (TRecord ps)
  /\ (R <- MyPartial (TRecord ps) ;; MyReadonly R)
     = (R <- MyReadonly (TRecord ps) ;; MyPartial R).
Proof.
  intros Hwf. pose proof Hwf as [Hnd _].
  rewrite MyPartial_record, MyReadonly_record by assumption. cbn [bind].
  split; [reflexivity|]. split.
  - rewrite MyPartial_record by (rewrite map_map; exact Hnd).
    now rewrite partial_field_twice.
  - rewrite MyReadonly_record by now apply well_formed_partial.
    rewrite MyPartial_record by (rewrite map_map; exact Hnd).
    now rewrite !map_map.
Qed.

Lemma MyPartial_idempotent_and_commutes_witness :
  well_formedb sample_record = true
  /\ MyPartial (TRecord sample_record)
     = Ok (TRecord [ro_opt_field "id" TNumber; opt_field "name" TString;
                    opt_field "tags" (TArray false TString)]).
Proof.
  split; [reflexivity|].
  refine (proj1 (MyPartial_idempotent_and_commutes sample_record _)).
  apply well_formedb_sound. reflexivity.
Defined.

Lemma not_undefined_like m :
  is_undefined_like m = false -> identical TUndefined m = false.
Proof. destruct m; try reflexivity. now destruct p. Qed.

Lemma identical_undefined m :
  is_undefined_like m = false -> identical m TUndefined = false.
Proof. destruct m; try reflexivity. now destruct p. Qed.

Lemma distinct_with_last ms x :
  distinct ms = true ->
  (forall m, In m ms -> identical m x = false) ->
  distinct (ms ++ [x]) = true.
Proof.
  induction ms as [|a ms IH]; [reflexivity|].
  cbn [distinct app]. intros H Hx. apply andb_true_iff in H as [Ha Hms].
  rewrite IH; [|exact Hms|intros m Hm; apply Hx; now right].
  rewrite andb_true_r, existsb_app. cbn [existsb].
  apply negb_true_iff in Ha. rewrite Ha, (Hx a) by now left. reflexivity.
Qed.

Lemma subsumed_with_undefined ms m :
  subsumed_literal (ms ++ [TUndefined]) m = subsumed_literal ms m.
Proof.
  destruct m; try reflexivity. destruct l; try reflexivity;
    cbn [subsumed_literal]; rewrite existsb_app; cbn; now rewrite orb_false_r.
Qed.

(** Putting [undefined] into a canonical union that has none. *)
Lemma mkUnion_with_undefined ms :
  canonical (TUnion ms) = true ->
  existsb is_undefined_like ms = false ->
  mkUnion [TUnion ms; TUndefined] = TUnion (ms ++ [TUndefined]).
Proof.
  intros Hc Hu. destruct (canonical_union_inv _ Hc) as [Hlen [Hm [Hd Hs]]].
  assert (Hno : forall m, In m ms -> is_undefined_like m = false).
  { intros m Hin. destruct (is_undefined_like m) eqn:E; [|reflexivity].
    assert (existsb is_undefined_like ms = true)
      by (apply existsb_exists; now exists m).
    congruence. }
  unfold mkUnion. cbn [flat_map union_members]. rewrite app_nil_r.
  rewrite flat_constituents by assumption.
  rewrite !existsb_app.
  rewrite (existsb_constituents is_any), (existsb_constituents is_unknown);
    try assumption; try (intros m; destruct m; (discriminate || reflexivity)).
  cbn [existsb is_any is_unknown orb].
  rewrite dedupe_distinct
    by (apply distinct_with_last;
        [exact Hd|intros m Hin; apply identical_undefined; auto]).
  rewrite filter_all.
  - destruct ms as [|a [|b l]]; try discriminate. reflexivity.
  - intros x Hx. rewrite subsumed_with_undefined.
    apply in_app_or in Hx as [Hx|[<-|[]]]; [|reflexivity].
    rewrite forallb_forall in Hs. auto.
Qed.

Lemma strip_last ms :
  (forall m, In m ms -> is_undefined_like m = false) ->
  filter (fun m => negb (identical TUndefined m)) (ms ++ [TUndefined]) = ms.
Proof.
  intros H. rewrite filter_app. cbn [filter identical prim_eqb negb].
  rewrite app_nil_r. apply filter_all.
  intros m Hm. now rewrite not_undefined_like by auto.
Qed.

(** Making a field optional and required again gives its type back,
    when the type is canonical and holds neither [undefined] nor [void]. *)
Lemma strip_added v :
  canonical v = true -> maybe_undefined v = false ->
  strip_undefined (add_optional v) = v.
Proof.
  intros Hc Hu. unfold add_optional. rewrite Hu.
  destruct v; try discriminate; try reflexivity.
  - destruct p; try discriminate; reflexivity.
  - destruct l; reflexivity.
  - change (existsb is_undefined_like members = false) in Hu.
    rewrite mkUnion_with_undefined by assumption.
    unfold strip_undefined. cbn [direct_members].
    rewrite strip_last; [now apply mkUnion_canonical|].
    intros m Hin. destruct (is_undefined_like m) eqn:E; [|reflexivity].
    assert (H : existsb is_undefined_like members = true)
      by (apply existsb_exists; now exists m).
    rewrite H in Hu. discriminate.
Qed.

Lemma required_after_partial ps :
  well_formed ps -> forallb tidy ps = true ->
  map required_field (map partial_field ps) = map required_field ps.
Proof.
  intros [_ Hopt] Ht. rewrite map_map. apply map_ext_in. intros p Hp.
  rewrite Forall_forall in Hopt. specialize (Hopt p Hp).
  rewrite forallb_forall in Ht. specialize (Ht p Hp).
  unfold required_field, partial_field. cbn [name valueType readonly optional].
  f_equal. destruct (optional p) eqn:Eo.
  - now rewrite Hopt.
  - unfold tidy in Ht. apply andb_true_iff in Ht as [Ht Hm].
    apply andb_true_iff in Ht as [Hc _]. rewrite Eo in Hm. cbn [orb] in Hm.
    apply negb_true_iff in Hm. now apply strip_added.
Qed.

Lemma required_field_twice ps :
  map required_field (map required_field ps) = map required_field ps.
Proof. rewrite map_map. now apply map_ext. Qed.

(** X15.  [MyRequired] undoes [MyPartial]: on a well-formed record with
    tidy field types, making every field optional and then required
    gives what [MyRequired] gives on the record itself: every field
    required, the type of a required field as it was, the type of an
    optional field without [undefined]; so a record without optional
    fields comes back as it was.  [MyRequired] applied twice changes
    nothing more.  A required field typed [string | undefined] is not
    tidy: it comes back typed [string]. *)
Theorem MyRequired_undoes_MyPartial (ps : list (attr ty)) :
  well_formed ps ->
  forallb tidy ps = true ->
  MyRequired (TRecord ps) = Ok (TRecord (map required_field ps))
  /\ (R <- MyPartial (TRecord ps) ;; MyRequired R) = MyRequired (TRecord ps)
  /\ (R <- MyRequired (TRecord ps) ;; MyRequired R) = MyRequired (TRecord ps)
  /\ (R <- MyPartial (TRecord [field "a" (TUnion [TString; TUndefined])]) ;;
      MyRequired R)
     = Ok (TRecord [field "a" TString]).
Proof.
  intros Hwf Ht. pose proof Hwf as [Hnd _].
  rewrite MyPartial_record, MyRequired_record by assumption. cbn [bind].
  split; [reflexivity|]. split; [|split; [|reflexivity]].
  - rewrite MyRequired_record by (rewrite map_map; exact Hnd).
    now rewrite required_after_partial.
  - rewrite MyRequired_record by (rewrite map_map; exact Hnd).
    now rewrite required_field_twice.
Qed.

Lemma MyRequired_undoes_MyPartial_witness :
  well_formedb [ro_field "id" TNumber; field "name" TString] = true
  /\ forallb tidy [ro_field "id" TNumber; field "name" TString] = true
  /\ (R <- MyPartial (TRecord [ro_field "id" TNumber; field "name" TString]) ;;
      MyRequired R)
     = Ok (TRecord [ro_field "id" TNumber; field "name" TString]).
Proof.
  split; [reflexivity|]. split; [reflexivity|].
  refine (eq_trans (proj1 (proj2 (MyRequired_undoes_MyPartial
                     [ro_field "id" TNumber; field "name" TString] _ _))) _).
  - apply well_formedb_sound. reflexivity.
  - reflexivity.
  - reflexivity.
Defined.

Lemma required_bare qs : map required_field (map bare qs) = map bare qs.
Proof. rewrite map_map. now apply map_ext. Qed.

(** X16.  After [MyOmit] of [src/3-Omit.ts], [MyRequired] has nothing
    left to do: the fields [MyOmit] returns are required already and
    keep [undefined] in their types, so [Required<MyOmit<T, K>>] is
    [MyOmit<T, K>].  On the [RegisterForm] of the notes, [name] and
    [email] come out typed [string | undefined], where
    [Pick<T, Exclude<keyof T, K>>] in the place of [MyOmit] gives
    [string]. *)
Theorem MyRequired_after_MyOmit (ps : list (attr ty)) (ks : list string) :
  well_formed ps ->
  incl ks (map name ps) ->
  (R <- MyOmit (TRecord ps) (keys_of ks) ;; MyRequired R)
  = MyOmit (TRecord ps) (keys_of ks)
  /\ (R <- MyOmit FormUser (keys_of ["id"; "password"]) ;; MyRequired R)
     = Ok (TRecord [field "name" (TUnion [TString; TUndefined]);
                    field "email" (TUnion [TString; TUndefined])])
  /\ (R <- PickExclude FormUser (keys_of ["id"; "password"]) ;; MyRequired R)
     = Ok (TRecord [field "name" TString; field "email" TString]).
Proof.
  intros Hwf Hincl. pose proof Hwf as [Hnd _].
  rewrite MyOmit_record by assumption. cbn [bind].
  pose (f := fun n => negb (existsb (String.eqb n) ks)).
  change (filter (fun p => negb (named ks p)) ps)
    with (filter (fun p => f (name p)) ps).
  assert (Hq : NoDup (map name (filter (fun p => f (name p)) ps)))
    by (rewrite (names_filter f ps); now apply NoDup_filter).
  split; [|split; reflexivity].
  rewrite MyRequired_record by now rewrite names_bare.
  now rewrite required_bare.
Qed.

Lemma MyRequired_after_MyOmit_witness :
  well_formedb sample_record = true
  /\ forallb (fun k => existsb (String.eqb k) (map name sample_record))
       ["id"] = true
  /\ (R <- MyOmit (TRecord sample_record) (keys_of ["id"]) ;; MyRequired R)
     = Ok (TRecord [field "name" (TUnion [TString; TUndefined]);
                    field "tags" (TArray false TString)]).
Proof.
  split; [reflexivity|]. split; [reflexivity|].
  refine (eq_trans (proj1 (MyRequired_after_MyOmit sample_record ["id"] _ _)) _).
  - apply well_formedb_sound. reflexivity.
  - apply forallb_incl. reflexivity.
  - reflexivity.
Defined.

(** ** [MyRecord] *)

Lemma atoms_extend_scalars ms U :
  forallb atom ms = true -> scalars U = true ->
  extends (of_members ms) U = Ok (forallb (below U) ms).
Proof.
  intros Ha HU. destruct ms as [|a [|b l]].
  - unfold extends. pose proof (size_pos U).
    destruct (size (of_members []) + size U) as [|n] eqn:E; [cbn in E; lia|].
    rewrite assignable_S. destruct U; try discriminate; reflexivity.
  - cbn [forallb of_members] in *. rewrite andb_true_r in *.
    now apply atom_extends_scalars.
  - cbn [of_members]. unfold extends.
    assert (Hsz : 4 <= size (TUnion (a :: b :: l)) + size U).
    { pose proof (size_pos a). pose proof (size_pos b). pose proof (size_pos U).
      cbn [size]. cbn [size] in *. lia. }
    destruct (size (TUnion (a :: b :: l)) + size U) as [|[|[|n]]]; try lia.
    rewrite assignable_S.
    assert (E : forall A (x y : A),
               match U with TAny | TUnknown => x | _ => y end = y)
      by (intros; destruct U; try discriminate; reflexivity).
    rewrite E. apply allM_pointwise. intros x Hx.
    rewrite forallb_forall in Ha. apply atom_assignable_scalars; auto.
Qed.

Lemma strings_are_atoms ks : forallb atom (map TStr ks) = true.
Proof. induction ks; [reflexivity|exact IHks]. Qed.

Lemma keys_are_property_keys ks : extends (keys_of ks) PropertyKey = Ok true.
Proof.
  unfold keys_of. rewrite atoms_extend_scalars;
    [|apply strings_are_atoms|reflexivity].
  f_equal. apply forallb_forall. intros x Hx.
  apply in_map_iff in Hx as [k [<- _]]. reflexivity.
Qed.

Lemma MyRecord_fields ks T :
  NoDup ks ->
  MyRecord (keys_of ks) T = Ok (TRecord (map (fun k => field k T) ks)).
Proof.
  intros Hnd. unfold MyRecord, constrain.
  rewrite keys_are_property_keys. cbn [bind].
  unfold mapped_in, keys_of. rewrite direct_members_strings.
  destruct ks as [|k ks]; [reflexivity|].
  cbn [map bind]. change (TStr k :: map TStr ks) with (map TStr (k :: ks)).
  set (qs := map (fun k => field k T) (k :: ks)).
  assert (Hn : map name qs = k :: ks).
  { unfold qs. rewrite map_map. cbn [field name]. apply map_id. }
  replace (map TStr (k :: ks)) with (key_types qs)
    by (unfold key_types; now rewrite <- (map_map name TStr), Hn).
  change (field k T :: map (fun k => field k T) ks) with qs.
  rewrite <- (map_id qs) at 2.
  apply mapped_members_pointwise; [now rewrite Hn|].
  intros q Hq. unfold qs in Hq. apply in_map_iff in Hq as [n [<- _]].
  reflexivity.
Qed.

Lemma lookup_constant n ks T :
  lookup n (map (fun k => field k T) ks)
  = if existsb (String.eqb n) ks then Some (field n T) else None.
Proof.
  unfold lookup. induction ks as [|k ks IH]; [reflexivity|].
  cbn [map find existsb name field]. rewrite (String.eqb_sym n k).
  destruct (String.eqb_spec k n) as [->|_]; [reflexivity|exact IH].
Qed.

(** X17.  [MyRecord<K, T>] over distinct string keys has one required,
    mutable field of type [T] per key: its keys are [K], indexing it by
    a key of [K] gives [T] and by any other name is rejected; a key type
    that is no property key, as [true], is rejected. *)
Theorem MyRecord_keys_and_values (ks : list string) (T : ty) (n : string) :
  NoDup ks ->
  MyRecord (keys_of ks) T = Ok (TRecord (map (fun k => field k T) ks))
  /\ (R <- MyRecord (keys_of ks) T ;; keyof R) = Ok (keys_of ks)
  /\ (R <- MyRecord (keys_of ks) T ;; index R (TStr n))
     = (if existsb (String.eqb n) ks then Ok T else Err StaticRejection)
  /\ MyRecord TTrue T = Err StaticRejection.
Proof.
  intros Hnd. rewrite MyRecord_fields by assumption. cbn [bind].
  assert (Hn : map name (map (fun k => field k T) ks) = ks)
    by (rewrite map_map; cbn [field name]; apply map_id).
  split; [reflexivity|]. split; [|split; [|reflexivity]].
  - rewrite keyof_named by now rewrite Hn. now rewrite Hn.
  - rewrite index_named, lookup_constant.
    now destruct (existsb (String.eqb n) ks).
Qed.

Lemma MyRecord_keys_and_values_witness :
  distinct_names ["home"; "about"; "contact"] = true
  /\ MyRecord (keys_of ["home"; "about"; "contact"])
              (TRecord [field "title" TString])
     = Ok (TRecord [field "home" (TRecord [field "title" TString]);
                    field "about" (TRecord [field "title" TString]);
                    field "contact" (TRecord [field "title" TString])]).
Proof.
  split; [reflexivity|].
  refine (proj1 (MyRecord_keys_and_values ["home"; "about"; "contact"]
                   (TRecord [field "title" TString]) "home" _)).
  apply distinct_names_NoDup. reflexivity.
Defined.

(** ** [Flatten] *)

Lemma Flatten_at_S d T :
  Flatten_at (S d) T
  = constrain T (TArray true TAny) (
      rs <- mapM (fun M =>
              match M with
              | TTuple false (First :: Rest) =>
                  cond_dist First (TArray false TAny)
                    (fun F =>
                       a <- Flatten_at d F ;;
                       b <- Flatten_at d (TTuple false Rest) ;;
                       variadic [a; b])
                    (fun F =>
                       b <- Flatten_at d (TTuple false Rest) ;;
                       variadic [TTuple false [F]; b])
              | TTuple _ _ | TArray _ _ => Ok (TTuple false [])
              | _ => Err OutsideFragment
              end)
            (direct_members T) ;;
      Ok (mkUnion rs)).
Proof. reflexivity. Qed.

Lemma all_extend_any n es :
  allM (fun x => assignable (S n) x TAny) es = Ok true.
Proof.
  rewrite (allM_pointwise _ (fun _ => true)).
  - f_equal. apply forallb_forall. reflexivity.
  - intros x _. reflexivity.
Qed.

Lemma tuple_extends_any_array ro' es :
  extends (TTuple false es) (TArray ro' TAny) = Ok true.
Proof.
  unfold extends.
  assert (Hsz : 3 <= size (TTuple false es) + size (TArray ro' TAny))
    by (cbn; lia).
  destruct (size (TTuple false es) + size (TArray ro' TAny)) as [|[|f]];
    try lia.
  rewrite assignable_S. cbn [related andb]. apply all_extend_any.
Qed.

Lemma array_extends_any_array ro' e :
  extends (TArray false e) (TArray ro' TAny) = Ok true.
Proof.
  unfold extends.
  assert (Hsz : 3 <= size (TArray false e) + size (TArray ro' TAny))
    by (pose proof (size_pos e); cbn [size]; lia).
  destruct (size (TArray false e) + size (TArray ro' TAny)) as [|[|f]];
    try lia.
  reflexivity.
Qed.

Lemma kept_extends_array e :
  kept e = true -> extends e (TArray false TAny) = Ok false.
Proof.
  intros H. unfold extends.
  assert (Hsz : 1 <= size e + size (TArray false TAny))
    by (cbn [size]; lia).
  destruct (size e + size (TArray false TAny)) as [|f]; try lia.
  destruct e; try discriminate; try reflexivity;
    destruct ro; try discriminate; reflexivity.
Qed.

Lemma nested_extends_array e :
  nested e = true -> extends e (TArray false TAny) = Ok true.
Proof.
  destruct e; try discriminate; destruct ro; try discriminate; intros _.
  - apply array_extends_any_array.
  - apply tuple_extends_any_array.
Qed.

Lemma nested_extends_readonly_array e :
  nested e = true -> extends e (TArray true TAny) = Ok true.
Proof.
  destruct e; try discriminate; destruct ro; try discriminate; intros _.
  - apply array_extends_any_array.
  - apply tuple_extends_any_array.
Qed.

Lemma variadic_two xs ys :
  variadic [TTuple false xs; TTuple false ys] = Ok (TTuple false (xs ++ ys)).
Proof.
  unfold variadic. cbn [spread spread_one direct_members mapM bind flat_map map].
  now rewrite !app_nil_r.
Qed.

Lemma leaves_kept e : kept e = true -> leaves e = [e].
Proof.
  destruct e; try discriminate; try reflexivity;
    destruct ro; try discriminate; reflexivity.
Qed.

Lemma size_tuple_tail ro e es :
  size (TTuple ro es) < size (TTuple ro (e :: es))
  /\ size e < size (TTuple ro (e :: es)).
Proof. pose proof (size_pos e). cbn [size]. lia. Qed.

(** [Flatten] on nested mutable tuples, for every budget that covers
    the argument. *)
Lemma Flatten_at_nested d :
  forall T, nested T = true -> size T <= d ->
  Flatten_at d T = Ok (TTuple false (leaves T)).
Proof.
  induction d as [|d IH]; intros T Hn Hsz;
    [pose proof (size_pos T); lia|].
  rewrite Flatten_at_S. unfold constrain.
  rewrite nested_extends_readonly_array by assumption. cbn [bind].
  destruct T; try discriminate; destruct ro; try discriminate.
  - reflexivity.
  - destruct elems as [|F Rest]; [reflexivity|].
    cbn [direct_members mapM].
    cbn [nested forallb] in Hn. apply andb_true_iff in Hn as [HF HR].
    destruct (size_tuple_tail false F Rest) as [S1 S2].
    assert (ER : Flatten_at d (TTuple false Rest)
                 = Ok (TTuple false (leaves (TTuple false Rest))))
      by (apply IH; [exact HR|lia]).
    assert (EC : cond_dist F (TArray false TAny)
                   (fun F =>
                      a <- Flatten_at d F ;;
                      b <- Flatten_at d (TTuple false Rest) ;;
                      variadic [a; b])
                   (fun F =>
                      b <- Flatten_at d (TTuple false Rest) ;;
                      variadic [TTuple false [F]; b])
                 = Ok (TTuple false (leaves (TTuple false (F :: Rest))))).
    { destruct (kept F) eqn:EK.
      - assert (EF : cond_dist F (TArray false TAny)
                       (fun F =>
                          a <- Flatten_at d F ;;
                          b <- Flatten_at d (TTuple false Rest) ;;
                          variadic [a; b])
                       (fun F =>
                          b <- Flatten_at d (TTuple false Rest) ;;
                          variadic [TTuple false [F]; b])
                     = (b <- Flatten_at d (TTuple false Rest) ;;
                        variadic [TTuple false [F]; b])).
        { pose proof (kept_extends_array F EK) as EX.
          destruct F; try discriminate; unfold cond_dist, cond;
            cbn [is_any is_unknown orb]; rewrite EX; reflexivity. }
        rewrite EF, ER. cbn [bind]. rewrite variadic_two.
        cbn [leaves flat_map]. now rewrite (leaves_kept F EK).
      - cbn [orb] in HF.
        assert (EF : cond_dist F (TArray false TAny)
                       (fun F =>
                          a <- Flatten_at d F ;;
                          b <- Flatten_at d (TTuple false Rest) ;;
                          variadic [a; b])
                       (fun F =>
                          b <- Flatten_at d (TTuple false Rest) ;;
                          variadic [TTuple false [F]; b])
                     = (a <- Flatten_at d F ;;
                        b <- Flatten_at d (TTuple false Rest) ;;
                        variadic [a; b])).
        { pose proof (nested_extends_array F HF) as EX.
          destruct F; try discriminate; unfold cond_dist, cond;
            cbn [is_any is_unknown orb]; rewrite EX; reflexivity. }
        rewrite EF, (IH F HF) by lia. rewrite ER. cbn [bind].
        rewrite variadic_two. reflexivity. }
    rewrite EC. reflexivity.
Qed.

Lemma leaves_are_kept T : nested T = true -> forallb kept (leaves T) = true.
Proof.
  induction T using ty_nested_ind; try discriminate;
    destruct ro; try discriminate; intros Hn; [reflexivity|].
  cbn [nested] in Hn. cbn [leaves].
  induction H as [|e es He Hes IHes]; [reflexivity|].
  cbn [forallb flat_map] in *. apply andb_true_iff in Hn as [Hk Hr].
  rewrite forallb_app, (IHes Hr), andb_true_r.
  destruct (kept e) eqn:E.
  - rewrite (leaves_kept e E). cbn [forallb]. now rewrite E.
  - apply He. exact Hk.
Qed.

Lemma kept_are_leaves ls :
  forallb kept ls = true ->
  nested (TTuple false ls) = true /\ leaves (TTuple false ls) = ls.
Proof.
  intros H. split.
  - cbn [nested]. apply forallb_forall. intros e He.
    rewrite forallb_forall in H. now rewrite (H e He).
  - cbn [leaves]. induction ls as [|e ls IH]; [reflexivity|].
    cbn [forallb flat_map] in *. apply andb_true_iff in H as [He Hl].
    now rewrite (leaves_kept e He), IH.
Qed.

(** X18.  [Flatten] flattens mutable tuples nested in one another, inside
    the instantiation depth of the checker: the result is the mutable
    tuple of the kept elements from left to right.  A primitive, a
    literal, a readonly tuple or a readonly array nested in the argument
    is kept as an element; a mutable array nested in it contributes no
    element.  Flattening twice changes nothing more.  A readonly tuple
    as the argument, which the bound [T extends readonly any[]] admits,
    is not matched by the mutable pattern: it gives the empty tuple.
    [TupleToObject] of the flattened [[1, 2], [3, 4]] has the four
    fields [1] to [4]. *)
Theorem Flatten_nested_tuples (T : ty) (es : list ty) :
  nested T = true ->
  within_depth T = true ->
  Flatten T = Ok (TTuple false (leaves T))
  /\ (R <- Flatten T ;; Flatten R) = Flatten T
  /\ Flatten (TTuple true es) = Ok (TTuple false [])
  /\ Flatten (TTuple false [TTuple false [TNum 1; TNum 2];
                            TTuple false [TNum 3; TNum 4]])
     = Ok (TTuple false [TNum 1; TNum 2; TNum 3; TNum 4])
  /\ Flatten (TTuple false [TArray false TNumber; TNum 1;
                            TTuple true [TNum 2]])
     = Ok (TTuple false [TNum 1; TTuple true [TNum 2]])
  /\ (R <- Flatten (TTuple false [TTuple false [TNum 1; TNum 2];
                                  TTuple false [TNum 3; TNum 4]]) ;;
      TupleToObject R)
     = Ok (TRecord [field "1" (TNum 1); field "2" (TNum 2);
                    field "3" (TNum 3); field "4" (TNum 4)]).
Proof.
  intros Hn _.
  assert (E : Flatten T = Ok (TTuple false (leaves T)))
    by (apply Flatten_at_nested; [exact Hn|lia]).
  rewrite E. cbn [bind]. split; [reflexivity|]. split; [|split].
  - destruct (kept_are_leaves (leaves T) (leaves_are_kept T Hn)) as [Hn' El].
    unfold Flatten. rewrite Flatten_at_nested by (auto; lia).
    now rewrite El.
  - unfold Flatten. pose proof (size_pos (TTuple true es)) as Hs.
    destruct (size (TTuple true es)) as [|d]; [lia|].
    rewrite Flatten_at_S. unfold constrain.
    now rewrite extends_readonly_array.
  - repeat split; reflexivity.
Qed.

Lemma Flatten_nested_tuples_witness :
  nested (TTuple false [TTuple false [TStr "a"; TTuple false [TStr "b"]];
                        TStr "c"]) = true
  /\ within_depth
       (TTuple false [TTuple false [TStr "a"; TTuple false [TStr "b"]];
                      TStr "c"]) = true
  /\ Flatten (TTuple false [TTuple false [TStr "a"; TTuple false [TStr "b"]];
                            TStr "c"])
     = Ok (TTuple false [TStr "a"; TStr "b"; TStr "c"]).
Proof.
  split; [reflexivity|]. split; [reflexivity|].
  refine (proj1 (Flatten_nested_tuples
                   (TTuple false [TTuple false [TStr "a"; TTuple false [TStr "b"]];
                                  TStr "c"]) [] _ _)); reflexivity.
Defined.

(** ** Mapped types with an [as] clause *)

Lemma add_renamed_fresh n k o acc :
  ~ In n (map (fun e => fst (fst e)) acc) ->
  add_renamed n k o acc = acc ++ [(n, k, o)].
Proof.
  induction acc as [|[[m k'] o'] acc IH]; simpl; intros H; [reflexivity|].
  destruct (String.eqb_spec n m) as [E|_].
  - exfalso. apply H. now left.
  - f_equal. apply IH. intros Hin. apply H. now right.
Qed.

(** A name type that keeps the key or resolves to [never] selects the
    fields, in their order. *)
Lemma collect_filtered mods as_name (keepf : attr ty -> bool) qs : forall acc,
  (forall q, In q qs ->
     as_name (TStr (name q)) = Ok (if keepf q then TStr (name q) else TNever)) ->
  (forall q, In q qs -> lookup (name q) mods = Some q) ->
  NoDup (map (fun e => fst (fst e)) acc ++ map name qs) ->
  collect_renamed mods as_name (key_types qs) acc
  = Ok (acc ++ map (fun q => (name q, TStr (name q), Some q)) (filter keepf qs)).
Proof.
  induction qs as [|q qs IH]; intros acc Has Hl Hnd; simpl.
  - now rewrite app_nil_r.
  - rewrite (Has q) by now left. cbn [bind prop_name].
    rewrite (Hl q) by now left.
    assert (Hq : ~ In (name q) (map (fun e => fst (fst e)) acc)).
    { intros Hin. apply NoDup_remove_2 in Hnd. apply Hnd.
      apply in_or_app. now left. }
    assert (Hnd' : NoDup (map (fun e => fst (fst e)) acc ++ map name qs))
      by now apply NoDup_remove_1 in Hnd.
    destruct (keepf q).
    + change (direct_members (TStr (name q))) with [TStr (name q)].
      cbn [add_names prop_name TStr bind].
      rewrite add_renamed_fresh by assumption.
      rewrite IH.
      * now rewrite <- app_assoc.
      * intros; apply Has; now right.
      * intros; apply Hl; now right.
      * rewrite map_app. cbn [map fst]. rewrite <- app_assoc. exact Hnd.
    + cbn [direct_members add_names bind].
      apply IH; [intros; apply Has; now right|intros; apply Hl; now right|assumption].
Qed.

Lemma mapped_as_filtered as_name (keepf : attr ty -> bool) ps :
  well_formed ps ->
  (forall q, In q ps ->
     as_name (TStr (name q)) = Ok (if keepf q then TStr (name q) else TNever)) ->
  mapped_as_members Keep Keep ps as_name (index (TRecord ps)) (key_types ps)
  = Ok (TRecord (filter keepf ps)).
Proof.
  intros [Hnd Hopt] Has. unfold mapped_as_members.
  rewrite (collect_filtered ps as_name keepf ps []);
    [|exact Has|intros; now apply lookup_self|exact Hnd].
  cbn [bind app].
  rewrite (mapM_pointwise _ _ (fun q => q)).
  - cbn [bind]. now rewrite map_id.
  - intros q Hq. apply filter_In in Hq as [Hq _].
    unfold renamed_attr. cbn [fst snd modified].
    rewrite index_named, lookup_self by assumption. cbn [bind].
    rewrite Forall_forall in Hopt. specialize (Hopt q Hq).
    destruct q as [n v r o]. cbn [name valueType readonly optional] in *.
    destruct o; [now rewrite Hopt|reflexivity].
Qed.

Lemma MyOmit_as_record ps ks :
  well_formed ps -> incl ks (map name ps) ->
  MyOmit_as (TRecord ps) (keys_of ks)
  = Ok (TRecord (filter (fun p => negb (named ks p)) ps)).
Proof.
  intros Hwf Hincl. pose proof Hwf as [Hnd _]. unfold MyOmit_as.
  rewrite keyof_record by assumption. cbn [bind].
  unfold key_types. rewrite <- (map_map name TStr). fold (keys_of (map name ps)).
  unfold constrain. rewrite extends_keys, incl_forallb by assumption.
  cbn [bind mapped_keyof_as mapped_keyof_as_one attributes own_attributes].
  fold (key_types ps).
  apply mapped_as_filtered; [exact Hwf|].
  intros q _. change (cond_dist (TStr (name q)) (keys_of ks)
                        (fun _ => Ok TNever) (fun P => Ok P))
    with (cond (TStr (name q)) (keys_of ks) (Ok TNever) (Ok (TStr (name q)))).
  rewrite MyExclude_key. unfold named.
  now destruct (existsb (String.eqb (name q)) ks).
Qed.

(** X19.  The [MyOmit] of the notes on the [as] clause,
    [{ [P in keyof T as P extends K ? never : P]: T[P] }], keeps on every
    well-formed record the fields not named by [K] as they are declared,
    [readonly] and [?] included: it agrees with
    [Pick<T, Exclude<keyof T, K>>], omitting nothing gives the record
    back, and on [Todo] without [completed] the field [title] is still
    [readonly] and [description] still optional, which [Equal] tells
    from the result of the [MyOmit] of [src/3-Omit.ts]. *)
Theorem MyOmit_as_keeps_modifiers (ps : list (attr ty)) (ks : list string) :
  well_formed ps ->
  incl ks (map name ps) ->
  MyOmit_as (TRecord ps) (keys_of ks)
  = Ok (TRecord (filter (fun p => negb (named ks p)) ps))
  /\ MyOmit_as (TRecord ps) (keys_of ks) = PickExclude (TRecord ps) (keys_of ks)
  /\ MyOmit_as (TRecord ps) TNever = Ok (TRecord ps)
  /\ MyOmit_as Todo (TStr "completed")
     = Ok (TRecord [ro_field "title" TString; opt_field "description" TString])
  /\ (a <- MyOmit Todo (TStr "completed") ;;
      b <- MyOmit_as Todo (TStr "completed") ;;
      Equal a b) = Ok TFalse.
Proof.
  intros Hwf Hincl. split; [now apply MyOmit_as_record|]. split.
  - now rewrite MyOmit_as_record, PickExclude_record.
  - split; [|split; reflexivity].
    change TNever with (keys_of []).
    rewrite MyOmit_as_record; [|exact Hwf|intros k []].
    do 2 f_equal. apply filter_all. reflexivity.
Qed.

Lemma MyOmit_as_keeps_modifiers_witness :
  well_formedb sample_record = true
  /\ forallb (fun k => existsb (String.eqb k) (map name sample_record))
       ["id"] = true
  /\ MyOmit_as (TRecord sample_record) (TStr "id")
     = Ok (TRecord [opt_field "name" TString;
                    field "tags" (TArray false TString)]).
Proof.
  split; [reflexivity|]. split; [reflexivity|].
  refine (proj1 (MyOmit_as_keeps_modifiers sample_record ["id"] _ _)).
  - apply well_formedb_sound. reflexivity.
  - intros k [<-|[]]. simpl. auto.
Defined.

Lemma cond_atomic v U (a b : result ty) :
  canonical v = true -> atomic v = true -> scalars U = true ->
  cond v U a b = if forallb (below U) (direct_members v) then a else b.
Proof.
  intros Hc Ha HU.
  destruct (atomic_members v Hc Ha) as [Hat [_ [_ Hv]]].
  unfold cond. rewrite (scalars_not_top U HU).
  assert (Hany : is_any v = false) by (destruct v; try discriminate; reflexivity).
  rewrite Hany.
  assert (E : extends v U = Ok (forallb (below U) (direct_members v))).
  { rewrite Hv at 1. now apply atoms_extend_scalars. }
  rewrite E. cbn [bind].
  destruct v; try discriminate; reflexivity.
Qed.

Lemma typed_by_field ps U q (a b : result ty) :
  well_formed ps -> forallb atomic_field ps = true -> scalars U = true ->
  In q ps ->
  (v <- index (TRecord ps) (TStr (name q)) ;; cond v U a b)
  = if typed_below U q then a else b.
Proof.
  intros [Hnd _] Hat HU Hq.
  rewrite index_named, lookup_self by assumption. cbn [bind].
  rewrite forallb_forall in Hat. specialize (Hat q Hq).
  apply andb_true_iff in Hat as [Hc Ha].
  now apply cond_atomic.
Qed.

Lemma PickByType_record ps U :
  well_formed ps -> forallb atomic_field ps = true -> scalars U = true ->
  PickByType (TRecord ps) U = Ok (TRecord (filter (typed_below U) ps)).
Proof.
  intros Hwf Hat HU. unfold PickByType.
  cbn [mapped_keyof_as mapped_keyof_as_one attributes own_attributes bind].
  fold (key_types ps).
  apply mapped_as_filtered; [exact Hwf|].
  intros q Hq. rewrite (typed_by_field ps U q) by assumption.
  now destruct (typed_below U q).
Qed.

Lemma OmitByType_record ps U :
  well_formed ps -> forallb atomic_field ps = true -> scalars U = true ->
  OmitByType (TRecord ps) U
  = Ok (TRecord (filter (fun p => negb (typed_below U p)) ps)).
Proof.
  intros Hwf Hat HU. unfold OmitByType.
  cbn [mapped_keyof_as mapped_keyof_as_one attributes own_attributes bind].
  fold (key_types ps).
  apply mapped_as_filtered; [exact Hwf|].
  intros q Hq. rewrite (typed_by_field ps U q) by assumption.
  now destruct (typed_below U q).
Qed.

(** X20.  Filtering by type with an [as] clause: on a well-formed record
    whose fields have primitive, literal or object types, or unions of
    them, [PickByType<T, U>] keeps the fields whose type is below the
    primitives and literals [U], [OmitByType<T, U>] keeps the others,
    and both keep [readonly] and [?].  An optional [string] field is
    not below [string], its type holding [undefined]; a field of type
    [any] is kept by both. *)
Theorem PickByType_OmitByType_split (ps : list (attr ty)) (U : ty) :
  well_formed ps ->
  forallb atomic_field ps = true ->
  scalars U = true ->
  PickByType (TRecord ps) U = Ok (TRecord (filter (typed_below U) ps))
  /\ OmitByType (TRecord ps) U
     = Ok (TRecord (filter (fun p => negb (typed_below U p)) ps))
  /\ PickByType TypedUser TString
     = Ok (TRecord [field "name" TString; field "email" TString])
  /\ OmitByType TypedUser TString
     = Ok (TRecord [field "id" TNumber; field "active" TBoolean])
  /\ PickByType (TRecord [ro_field "name" TString; opt_field "nick" TString])
       TString
     = Ok (TRecord [ro_field "name" TString])
  /\ PickByType (TRecord [field "a" TAny; field "b" TNumber]) TString
     = Ok (TRecord [field "a" TAny])
  /\ OmitByType (TRecord [field "a" TAny; field "b" TNumber]) TString
     = Ok (TRecord [field "a" TAny; field "b" TNumber]).
Proof.
  intros Hwf Hat HU.
  split; [now apply PickByType_record|].
  split; [now apply OmitByType_record|].
  repeat split; reflexivity.
Qed.

Lemma PickByType_OmitByType_split_witness :
  well_formedb sample_record = true
  /\ forallb atomic_field sample_record = true
  /\ scalars (TUnion [TNumber; TUndefined]) = true
  /\ OmitByType (TRecord sample_record) (TUnion [TNumber; TUndefined])
     = Ok (TRecord [opt_field "name" TString;
                    field "tags" (TArray false TString)]).
Proof.
  split; [reflexivity|]. split; [reflexivity|]. split; [reflexivity|].
  refine (proj1 (proj2 (PickByType_OmitByType_split sample_record
                          (TUnion [TNumber; TUndefined]) _ _ _)));
    [apply well_formedb_sound|..]; reflexivity.
Defined.

Lemma extends_empty_record q :
  extends (TRecord []) (TRecord [q]) = Ok (optional q).
Proof.
  unfold extends.
  assert (H : 2 <= size (TRecord []) + size (TRecord [q]))
    by (pose proof (size_pos (TRecord [])); pose proof (size_pos (TRecord [q])); lia).
  destruct (size (TRecord []) + size (TRecord [q])) as [|[|n]]; try lia.
  rewrite assignable_S. cbn.
  now destruct (optional q).
Qed.

Lemma names_kept (f : attr ty -> bool) ps :
  NoDup (map name ps) -> NoDup (map name (filter f ps)).
Proof.
  induction ps as [|p ps IH]; simpl; intros H; [constructor|].
  inversion H as [|? ? Hp Hps]; subst.
  destruct (f p); simpl; [constructor|]; auto.
  intros Hin. apply Hp. apply in_map_iff in Hin as [q [E Hq]].
  apply filter_In in Hq as [Hq _]. apply in_map_iff. now exists q.
Qed.

Lemma OptionalKeys_record ps :
  well_formed ps -> OptionalKeys (TRecord ps) = Ok (TRecord (filter optional ps)).
Proof.
  intros Hwf. pose proof Hwf as [Hnd _]. unfold OptionalKeys.
  cbn [mapped_keyof_as mapped_keyof_as_one attributes own_attributes bind].
  fold (key_types ps).
  apply mapped_as_filtered; [exact Hwf|].
  intros q Hq.
  change (TStr (name q)) with (keys_of (map name [q])) at 1.
  rewrite (MyPick_selected ps [q]); [|exact Hwf| |].
  - cbn [bind]. unfold cond.
    cbn [is_any is_unknown orb]. rewrite extends_empty_record. cbn [bind].
    now destruct (optional q).
  - intros p [<-|[]]. exact Hq.
  - repeat constructor. intros [].
Qed.

(** X21.  [OptionalKeys<T>] (and [PickOptional<T>], the same declaration)
    keeps of a well-formed record the optional fields and nothing else,
    as they are declared; applied twice it gives what it gives once,
    and the [User] of the notes, which has no optional field, is mapped
    to [{}]. *)
Theorem OptionalKeys_optional_fields (ps : list (attr ty)) :
  well_formed ps ->
  OptionalKeys (TRecord ps) = Ok (TRecord (filter optional ps))
  /\ (R <- OptionalKeys (TRecord ps) ;; OptionalKeys R)
     = OptionalKeys (TRecord ps)
  /\ OptionalKeys TypedUser = Ok (TRecord [])
  /\ OptionalKeys (TRecord [field "a" TNumber; opt_field "b" TString;
                            opt_field "c" TNumber])
     = Ok (TRecord [opt_field "b" TString; opt_field "c" TNumber]).
Proof.
  intros Hwf. pose proof Hwf as [Hnd Hopt].
  rewrite OptionalKeys_record by assumption. cbn [bind].
  split; [reflexivity|]. split; [|split; reflexivity].
  rewrite OptionalKeys_record.
  - do 2 f_equal. apply filter_all. intros p Hp.
    now apply filter_In in Hp.
  - split.
    + now apply names_kept.
    + apply Forall_forall. intros p Hp. apply filter_In in Hp as [Hp _].
      rewrite Forall_forall in Hopt. auto.
Qed.

Lemma OptionalKeys_optional_fields_witness :
  well_formedb sample_record = true
  /\ OptionalKeys (TRecord sample_record)
     = Ok (TRecord [opt_field "name" TString]).
Proof.
  split; [reflexivity|].
  refine (proj1 (OptionalKeys_optional_fields sample_record _)).
  apply well_formedb_sound. reflexivity.
Defined.

(** ** [TupleToObjectUpperKeys] *)

Lemma collect_upper ls : forall acc,
  forallb string_or_number ls = true ->
  NoDup (map (fun e => fst (fst e)) acc
         ++ map upper_name
              (flat_map (fun l => match l with LStr s => [s] | _ => [] end) ls)) ->
  collect_renamed [] (fun P => Uppercase (intersect [P; TString]))
    (map TLit ls) acc
  = Ok (acc ++ map (fun s => (upper_name s, TStr s, None))
                 (flat_map (fun l => match l with LStr s => [s] | _ => [] end) ls)).
Proof.
  induction ls as [|l ls IH]; intros acc Hl Hnd; simpl.
  - now rewrite app_nil_r.
  - cbn [forallb] in Hl. apply andb_true_iff in Hl as [Hl Hls].
    destruct l as [s|z|b]; [| |discriminate].
    + change (intersect [TLit (LStr s); TString]) with (TLit (LStr s)).
      cbn [Uppercase Uppercase_one].
      unfold string_or_number, is_ascii in Hl.
      cbn [flat_map app map] in Hnd |- *. unfold upper_name at 1 in Hnd.
      unfold upper_name at 1.
      destruct (upper s) as [u|]; [|discriminate].
      cbn [bind]. change (direct_members (TStr u)) with [TStr u].
      cbn [add_names prop_name TStr bind lookup find].
      rewrite add_renamed_fresh.
      * rewrite IH; [now rewrite <- app_assoc|assumption|].
        rewrite map_app. cbn [map fst]. now rewrite <- app_assoc.
      * intros Hin. apply NoDup_remove_2 in Hnd. apply Hnd.
        apply in_or_app. now left.
    + change (intersect [TLit (LNum z); TString]) with TNever.
      cbn [Uppercase bind direct_members add_names flat_map app].
      now apply IH.
Qed.

Lemma TupleToObjectUpperKeys_literals ro ls :
  forallb string_or_number ls = true ->
  NoDup (map upper_name (strings_of ls)) ->
  TupleToObjectUpperKeys (TTuple ro (map TLit ls))
  = Ok (TRecord (map (fun s => field (upper_name s) (TStr s)) (strings_of ls))).
Proof.
  intros Hl Hnd. unfold TupleToObjectUpperKeys, constrain.
  rewrite extends_readonly_array. cbn [bind index index_one TNumber].
  rewrite mkUnion_literals, direct_members_literals.
  unfold mapped_as_members.
  rewrite collect_upper; [| |exact Hnd].
  - cbn [app bind].
    rewrite (mapM_pointwise _ _ (fun s => field (upper_name s) (TStr s)));
      [reflexivity|].
    intros s _. reflexivity.
  - apply forallb_forall. intros l Hin. apply uniq_In in Hin.
    rewrite forallb_forall in Hl. auto.
Qed.

(** X22.  [TupleToObjectUpperKeys] on a tuple of ASCII string literals and
    numbers: one field for each string element, named by the element in
    upper case and typed by the element as it is written, provided that
    no two elements have the same name in upper case; a number element
    gives no field, since [P & string] is then [never].  Two elements
    that differ by case only share one field, typed by their union. *)
Theorem TupleToObjectUpperKeys_names_and_values (ro : bool) (ls : list lit) :
  forallb string_or_number ls = true ->
  NoDup (map upper_name (strings_of ls)) ->
  TupleToObjectUpperKeys (TTuple ro (map TLit ls))
  = Ok (TRecord (map (fun s => field (upper_name s) (TStr s)) (strings_of ls)))
  /\ TupleToObjectUpperKeys (TTuple false [TStr "hello"; TStr "world"])
     = Ok (TRecord [field "HELLO" (TStr "hello"); field "WORLD" (TStr "world")])
  /\ TupleToObjectUpperKeys (TTuple false [TStr "a"; TStr "A"])
     = Ok (TRecord [field "A" (TUnion [TStr "a"; TStr "A"])])
  /\ TupleToObjectUpperKeys (TTuple false [TNum 1; TStr "a"])
     = Ok (TRecord [field "A" (TStr "a")])
  /\ TupleToObject (TTuple false [TNum 1; TStr "a"])
     = Ok (TRecord [field "1" (TNum 1); field "a" (TStr "a")]).
Proof.
  intros Hl Hnd. split; [now apply TupleToObjectUpperKeys_literals|].
  repeat split; reflexivity.
Qed.

Lemma TupleToObjectUpperKeys_names_and_values_witness :
  forallb string_or_number [LStr "model 3"; LNum 7; LStr "tesla"; LStr "model 3"]
  = true
  /\ distinct_names
       (map upper_name
          (strings_of [LStr "model 3"; LNum 7; LStr "tesla"; LStr "model 3"]))
     = true
  /\ TupleToObjectUpperKeys
       (TTuple true [TStr "model 3"; TNum 7; TStr "tesla"; TStr "model 3"])
     = Ok (TRecord [field "MODEL 3" (TStr "model 3");
                    field "TESLA" (TStr "tesla")]).
Proof.
  split; [reflexivity|]. split; [reflexivity|].
  refine (proj1 (TupleToObjectUpperKeys_names_and_values true
                   [LStr "model 3"; LNum 7; LStr "tesla"; LStr "model 3"] _ _)).
  - reflexivity.
  - apply distinct_names_NoDup. reflexivity.
Defined.

(** ** Indexed access and distributive conditional types of the notes *)

Lemma index_selected ps ks :
  NoDup (map name ps) -> incl ks (map name ps) -> NoDup ks ->
  index (TRecord (selected ks ps)) (keys_of ks)
  = index (TRecord ps) (keys_of ks).
Proof.
  intros Hnd Hincl Hks.
  assert (H : forall k, In k ks ->
                index (TRecord (selected ks ps)) (TStr k)
                = index (TRecord ps) (TStr k)).
  { intros k Hk. rewrite !index_named, lookup_selected by assumption.
    assert (E : existsb (String.eqb k) ks = true).
    { apply existsb_exists. exists k. split; [exact Hk|apply String.eqb_refl]. }
    now rewrite E. }
  destruct ks as [|a [|b l]].
  - reflexivity.
  - apply H. now left.
  - unfold keys_of. cbn [map of_members index].
    rewrite (mapM_ext_in _ (index_one (TRecord ps))); [reflexivity|].
    intros x Hx.
    change (In x (map TStr (a :: b :: l))) in Hx.
    apply in_map_iff in Hx as [k [<- Hk]]. exact (H k Hk).
Qed.

(** X23.  [ValueOf<T>] is [T[keyof T]]: the values of the picked fields
    are the values [T] has at the picked keys, so
    [ValueOf<Pick<T, K>>] is [T[K]].  On the [User] of the notes it is
    [string | number], and on [{}] it is [never]. *)
Theorem ValueOf_of_picked (ps : list (attr ty)) (ks : list string) :
  well_formed ps ->
  NoDup ks ->
  incl ks (map name ps) ->
  (R <- MyPick (TRecord ps) (keys_of ks) ;; ValueOf R)
  = index (TRecord ps) (keys_of ks)
  /\ ValueOf User = Ok (TUnion [TString; TNumber])
  /\ ValueOf (TRecord []) = Ok TNever
  /\ index User (TUnion [TStr "name"; TStr "age"])
     = Ok (TUnion [TString; TNumber]).
Proof.
  intros Hwf Hks Hincl. pose proof Hwf as [Hnd _].
  split; [|repeat split; reflexivity].
  rewrite <- (selected_names ks ps Hincl) at 1.
  rewrite MyPick_selected;
    [|exact Hwf|apply selected_In|now rewrite selected_names].
  cbn [bind]. unfold ValueOf.
  rewrite keyof_named by now rewrite selected_names.
  rewrite selected_names by assumption. cbn [bind].
  now apply index_selected.
Qed.

Lemma ValueOf_of_picked_witness :
  well_formedb sample_record = true
  /\ distinct_names ["tags"; "id"] = true
  /\ forallb (fun k => existsb (String.eqb k) (map name sample_record))
       ["tags"; "id"] = true
  /\ (R <- MyPick (TRecord sample_record) (keys_of ["tags"; "id"]) ;;
      ValueOf R)
     = Ok (TUnion [TArray false TString; TNumber]).
Proof.
  split; [reflexivity|]. split; [reflexivity|]. split; [reflexivity|].
  refine (proj1 (ValueOf_of_picked sample_record ["tags"; "id"] _ _ _)).
  - apply well_formedb_sound. reflexivity.
  - apply distinct_names_NoDup. reflexivity.
  - apply forallb_incl. reflexivity.
Defined.

Lemma cond_any_target m (a b : result ty) :
  match m with TVar _ => false | _ => true end = true ->
  cond m TAny a b = a.
Proof. destruct m; try discriminate; reflexivity. Qed.

(** X24.  [ToArray] distributes over a union of atoms: it is the union of
    the arrays of the members, not the array of the union, so
    [ToArray<boolean>] is [false[] | true[]], which [Equal] tells from
    [boolean[]]; [ToArray<never>] is [never] and [ToArray<any>] is
    [any[]].  [IsString] distributes too: it answers [boolean] on
    [string | number], and [never] on [never]. *)
Theorem ToArray_distributes (T : ty) :
  canonical T = true ->
  atomic T = true ->
  ToArray T = Ok (mkUnion (map (TArray false) (direct_members T)))
  /\ ToArray (TUnion [TString; TNumber])
     = Ok (TUnion [TArray false TString; TArray false TNumber])
  /\ ToArray TBoolean = Ok (TUnion [TArray false TFalse; TArray false TTrue])
  /\ (R <- ToArray TBoolean ;; Equal R (TArray false TBoolean)) = Ok TFalse
  /\ ToArray TNever = Ok TNever
  /\ ToArray TAny = Ok (TArray false TAny)
  /\ IsString TString = Ok TTrue
  /\ IsString TNumber = Ok TFalse
  /\ (R <- IsString (TUnion [TString; TNumber]) ;; Equal R TBoolean) = Ok TTrue
  /\ IsString TNever = Ok TNever.
Proof.
  intros Hc _. split; [|repeat split; reflexivity].
  assert (Hm : forall m, In m (direct_members T) ->
                 cond m TAny (Ok (TArray false m)) (Ok TNever)
                 = Ok (TArray false m)).
  { intros m Hm. apply cond_any_target.
    destruct T; try discriminate; cbn [direct_members] in Hm;
      try (destruct Hm as [<-|[]]; reflexivity); try contradiction.
    destruct (canonical_union_inv _ Hc) as [_ [Hk _]].
    rewrite forallb_forall in Hk. specialize (Hk m Hm).
    destruct m; try discriminate; reflexivity. }
  destruct T;
    try (cbn [ToArray cond_dist direct_members map];
         rewrite (Hm _ (or_introl eq_refl)); reflexivity).
  - reflexivity.
  - unfold ToArray. cbn [cond_dist direct_members] in *.
    rewrite <- (map_id members) at 1.
    rewrite (mapM_pointwise _ _ (TArray false)); [reflexivity|].
    intros m Hin. now apply Hm.
Qed.

Lemma ToArray_distributes_witness :
  canonical (TUnion [TStr "a"; TNull]) = true
  /\ atomic (TUnion [TStr "a"; TNull]) = true
  /\ ToArray (TUnion [TStr "a"; TNull])
     = Ok (TUnion [TArray false (TStr "a"); TArray false TNull]).
Proof.
  split; [reflexivity|]. split; [reflexivity|].
  refine (proj1 (ToArray_distributes (TUnion [TStr "a"; TNull]) _ _));
    reflexivity.
Defined.
